(** * GrizzlyMapper: the model <-> script transducer

    A shallow embedding of the core of [src/GrizzlyMapper.jsx] (the latest
    variant of the component): the transformation registry, the code
    generator [generateCode], the template parser [parseTemplate], the
    diff engine [calculateChanges] and the state-changing handlers of the
    component ([handleFile], [addModule], [updateModuleName], ...).

    JavaScript strings are modelled as lists of 8-bit code units
    ([list ascii], the Latin-1 range), JavaScript objects used as records
    (the mappings) as finite maps from property names to values, arrays as
    lists, and the objects used as ordered dictionaries in the diff engine
    as association lists in insertion order. *)

From stdpp Require Import gmap strings list pretty.
From Stdlib Require Import Ascii.

Local Open Scope string_scope.
Local Open Scope list_scope.
Local Open Scope nat_scope.

(** ** Strings *)

Abbreviation str := (list ascii).

(** A string literal of the source. *)
Definition lit (s : string) : str := String.list_ascii_of_string s.
Arguments lit : simpl never.

Definition code (c : ascii) : nat := nat_of_ascii c.

Definition in_range (lo hi : nat) (c : ascii) : bool :=
  (lo <=? code c) && (code c <=? hi).

(** [\w] : [A-Za-z0-9_]. *)
Definition is_word (c : ascii) : bool :=
  in_range 48 57 c || in_range 65 90 c || in_range 97 122 c || (code c =? 95).

(** [\s], also the characters removed by [String.prototype.trim]: TAB, LF,
    VT, FF, CR, SPACE and NBSP are the ones below U+0100. *)
Definition is_space (c : ascii) : bool :=
  in_range 9 13 c || (code c =? 32) || (code c =? 160).

(** Line terminators, which [.] does not match (without the [s] flag). *)
Definition is_line_terminator (c : ascii) : bool :=
  (code c =? 10) || (code c =? 13).

Definition ascii_eqb (a b : ascii) : bool := Ascii.eqb a b.

Definition chr_dot : ascii := "."%char.
Definition chr_quote : ascii := ascii_of_nat 34.
Definition chr_squote : ascii := "'"%char.
Definition chr_nl : ascii := ascii_of_nat 10.

(** The one-character strings: a double quote, a newline. *)
Definition dq : str := [chr_quote].
Definition nl : str := [chr_nl].

(** [s.startsWith(p)] *)
Fixpoint startsWith (p s : str) : bool :=
  match p, s with
  | [], _ => true
  | a :: p', b :: s' => ascii_eqb a b && startsWith p' s'
  | _ :: _, [] => false
  end.

(** [s.includes(c)] for a one-character needle. *)
Definition includes (c : ascii) (s : str) : bool := existsb (ascii_eqb c) s.

(** [s.split(c)] for a one-character separator: always at least one piece. *)
Fixpoint split (c : ascii) (s : str) : list str :=
  match s with
  | [] => [[]]
  | a :: s' =>
      if ascii_eqb a c then [] :: split c s'
      else match split c s' with
           | p :: ps => (a :: p) :: ps
           | [] => [[a]]
           end
  end.

(** [l.join(sep)] *)
Fixpoint join (sep : str) (l : list str) : str :=
  match l with
  | [] => []
  | [x] => x
  | x :: l' => x ++ sep ++ join sep l'
  end.

Fixpoint trimStart (s : str) : str :=
  match s with
  | c :: s' => if is_space c then trimStart s' else s
  | [] => []
  end.

Definition trimEnd (s : str) : str := rev (trimStart (rev s)).

(** [s.trim()] *)
Definition trim (s : str) : str := trimEnd (trimStart s).

(** ** Regular expressions

    The regular expressions of the parser are kept as syntax and run by a
    backtracking matcher in continuation-passing style, the formulation of
    the ECMAScript specification: alternatives are tried left to right,
    greedy quantifiers try one more iteration before the continuation, lazy
    ones the continuation first, and the first success is the result. *)

Inductive regexp : Type :=
  | Eps
  | Lit (l : str)                        (* a literal run of characters *)
  | Cls (p : ascii -> bool)              (* a character class *)
  | Seq (r1 r2 : regexp)
  | Alt (r1 r2 : regexp)                  (* r1|r2 *)
  | Star (greedy : bool) (r : regexp)     (* r* and r*? *)
  | Opt (r : regexp)                      (* r? (greedy) *)
  | Grp (n : nat) (r : regexp)            (* the n-th capturing group *)
  | Bol                                  (* ^ *)
  | Eol.                                 (* $ *)

(** [r+] and [r+?] *)
Definition Plus (greedy : bool) (r : regexp) : regexp := Seq r (Star greedy r).

Fixpoint seq (rs : list regexp) : regexp :=
  match rs with
  | [] => Eps
  | [r] => r
  | r :: rs' => Seq r (seq rs')
  end.

(** The state of a match: the index reached, the input left, and the
    captures made so far (latest first). *)
Record mstate : Type := MState {
  pos : nat;
  rest : str;
  caps : list (nat * str)
}.

Definition advance (n : nat) (st : mstate) : mstate :=
  {| pos := pos st + n; rest := drop n (rest st); caps := caps st |}.

Definition set_cap (n : nat) (s : str) (st : mstate) : mstate :=
  {| pos := pos st; rest := rest st; caps := (n, s) :: caps st |}.

(** The text of group [n], [None] where the group took no part. *)
Fixpoint cap_lookup (n : nat) (cs : list (nat * str)) : option str :=
  match cs with
  | [] => None
  | (m, s) :: cs' => if n =? m then Some s else cap_lookup n cs'
  end.

Definition cap (n : nat) (st : mstate) : option str := cap_lookup n (caps st).

Definition orelse {A} (a : option A) (b : unit -> option A) : option A :=
  match a with
  | Some x => Some x
  | None => b tt
  end.

(** The iterations of [r*] and [r*?], where [body] matches [r]. An iteration
    that consumes nothing is rejected, so that [fuel] above the length of
    the input never runs out. *)
Fixpoint star_loop (body : (mstate -> option mstate) -> mstate -> option mstate)
  (greedy : bool) (k : mstate -> option mstate) (fuel : nat) (st : mstate)
  : option mstate :=
  match fuel with
  | O => k st
  | S fuel' =>
      let again (_ : unit) :=
        body (fun st' =>
                if length (rest st') <? length (rest st)
                then star_loop body greedy k fuel' st' else None) st in
      if greedy then orelse (again tt) (fun _ => k st)
      else orelse (k st) again
  end.

Fixpoint rmatch (r : regexp) (k : mstate -> option mstate) (st : mstate)
  : option mstate :=
  match r with
  | Eps => k st
  | Lit l => if startsWith l (rest st) then k (advance (length l) st) else None
  | Cls p =>
      match rest st with
      | c :: _ => if p c then k (advance 1 st) else None
      | [] => None
      end
  | Seq r1 r2 => rmatch r1 (rmatch r2 k) st
  | Alt r1 r2 => orelse (rmatch r1 k st) (fun _ => rmatch r2 k st)
  | Star greedy r' => star_loop (rmatch r') greedy k (S (length (rest st))) st
  | Opt r' => orelse (rmatch r' k st) (fun _ => k st)
  | Grp n r' =>
      rmatch r' (fun st' =>
        k (set_cap n (take (length (rest st) - length (rest st')) (rest st)) st'))
        st
  | Bol => if pos st =? 0 then k st else None
  | Eol => match rest st with [] => k st | _ :: _ => None end
  end.

(** [RegExp.prototype.exec] on a regular expression without the [g] flag,
    the search behind [s.match(re)]: the leftmost index at which the
    expression matches. The result holds the index where the match starts
    and the state where it ends. *)
Fixpoint search_from (r : regexp) (i : nat) (s : str) : option (nat * mstate) :=
  match rmatch r Some {| pos := i; rest := s; caps := [] |} with
  | Some st => Some (i, st)
  | None =>
      match s with
      | [] => None
      | _ :: s' => search_from r (S i) s'
      end
  end.

Definition exec (r : regexp) (s : str) : option mstate :=
  snd <$> search_from r 0 s.

(** Whether [s.match(re)] is an array rather than [null]. *)
Definition matches (r : regexp) (s : str) : bool :=
  match exec r s with
  | Some _ => true
  | None => false
  end.

(** [s.matchAll(re)] / [s.replace(re, by)] with the [g] flag walk the
    successive matches; after an empty match the search resumes one
    character further. [scan] returns, for each match, the text skipped
    before it and the final state, and the text after the last match. *)
Fixpoint scan (fuel : nat) (r : regexp) (i : nat) (s : str)
  : list (str * mstate) * str :=
  match fuel with
  | O => ([], s)
  | S fuel' =>
      match search_from r i s with
      | None => ([], s)
      | Some (j, st) =>
          let skipped := take (j - i) s in
          if pos st =? j then
            (* empty match: step over one character *)
            match rest st with
            | [] => ([(skipped, st)], [])
            | c :: s' =>
                let '(ms, tl) := scan fuel' r (S j) s' in
                match ms with
                | [] => ([(skipped, st)], c :: tl)
                | (sk, st') :: ms' => ((skipped, st) :: (c :: sk, st') :: ms', tl)
                end
            end
          else
            let '(ms, tl) := scan fuel' r (pos st) (rest st) in
            ((skipped, st) :: ms, tl)
      end
  end.

(** [[...s.matchAll(re)].map(m => m[n])] *)
Definition matchAll_group (r : regexp) (n : nat) (s : str) : list (option str) :=
  map (fun m => cap n (snd m)) (fst (scan (S (length s)) r 0 s)).

(** [s.replace(re, '')] with the [g] flag: what is left between the matches. *)
Definition remove_all (r : regexp) (s : str) : str :=
  let '(ms, tl) := scan (S (length s)) r 0 s in
  concat (map fst ms) ++ tl.

(** ** JavaScript values and objects *)

(** The values the fields of a mapping hold. *)
Inductive jsval : Type :=
  | Undefined
  | Null
  | Bool (b : bool)
  | Str (s : str).

#[global] Instance jsval_eq_dec : EqDecision jsval.
Proof. solve_decision. Defined.

(** [a === b] *)
Definition strict_eq (a b : jsval) : bool := bool_decide (a = b).

Definition str_eqb (a b : str) : bool := bool_decide (a = b).

(** ToBoolean *)
Definition truthy (v : jsval) : bool :=
  match v with
  | Undefined | Null => false
  | Bool b => b
  | Str [] => false
  | Str (_ :: _) => true
  end.

(** [a || b] *)
Definition jsor (a b : jsval) : jsval := if truthy a then a else b.

(** ToString, as applied by a template literal and by a property key. *)
Definition to_string (v : jsval) : str :=
  match v with
  | Undefined => lit "undefined"
  | Null => lit "null"
  | Bool true => lit "true"
  | Bool false => lit "false"
  | Str s => s
  end.

(** A mapping is a plain object; [get m "f"] is [m.f]. *)
Abbreviation Mapping := (gmap string jsval).

Definition get (m : Mapping) (f : string) : jsval := default Undefined (m !! f).

(** The object literal [{ f1: v1, ..., fn: vn }]. *)
Definition obj (fs : list (string * jsval)) : Mapping :=
  fold_left (fun m kv => <[kv.1 := kv.2]> m) fs ∅.

Record Module : Type := mkModule {
  mod_id : str;
  name : str;
  mappings : list Mapping
}.

(** Results of code that can throw. *)
Inductive result (A : Type) : Type :=
  | Ok (a : A)
  | Throw (e : string).
Arguments Ok {A} a.
Arguments Throw {A} e.

#[global] Instance result_bind : MBind result :=
  fun A B (f : A -> result B) (r : result A) =>
    match r with
    | Ok a => f a
    | Throw e => Throw e
    end.

(** [l.forEach(f)] where [f] updates the state [s] and may throw. *)
Fixpoint forEach {A S} (f : S -> A -> result S) (l : list A) (s : S) : result S :=
  match l with
  | [] => Ok s
  | x :: l' => s' ← f s x; forEach f l' s'
  end.

(** ** The transformation registry *)

Inductive plugin : Type :=
  | direct | conditional | for_loop | if_block | break | continue
  | datetime_parse | datetime_format | datetime_add | decimal | regex.

(** What [TRANSFORMATION_PLUGINS[key]] evaluates to. The registry is an
    object literal, so besides its own eleven properties a lookup finds the
    properties every object inherits from [Object.prototype]; those are
    truthy and have no [generate] method. *)
Inductive property : Type :=
  | Own (p : plugin)
  | Inherited
  | Absent.

Definition object_prototype_keys : list string :=
  [ "constructor"; "hasOwnProperty"; "isPrototypeOf"; "propertyIsEnumerable";
    "toLocaleString"; "toString"; "valueOf"; "__proto__";
    "__defineGetter__"; "__defineSetter__"; "__lookupGetter__";
    "__lookupSetter__" ].

Definition own_keys : list (string * plugin) :=
  [ ("direct", direct); ("conditional", conditional); ("for_loop", for_loop);
    ("if_block", if_block); ("break", break); ("continue", continue);
    ("datetime_parse", datetime_parse); ("datetime_format", datetime_format);
    ("datetime_add", datetime_add); ("decimal", decimal); ("regex", regex) ].

Fixpoint assoc {A} (k : str) (l : list (string * A)) : option A :=
  match l with
  | [] => None
  | (k', a) :: l' => if str_eqb k (lit k') then Some a else assoc k l'
  end.

Definition TRANSFORMATION_PLUGINS (key : jsval) : property :=
  let k := to_string key in
  match assoc k own_keys with
  | Some p => Own p
  | None =>
      if existsb (fun k' => str_eqb k (lit k')) object_prototype_keys
      then Inherited else Absent
  end.

(** [`${a || "dflt"}`] *)
Definition or_default (v : jsval) (dflt : string) : str :=
  to_string (jsor v (Str (lit dflt))).

(** [v.includes('.')] : a method of strings only. *)
Definition js_includes_dot (v : jsval) : result bool :=
  match v with
  | Str s => Ok (includes chr_dot s)
  | _ => Throw "TypeError: includes is not a function"
  end.

(** [v.split(".")] *)
Definition js_split_dot (v : jsval) : result (list str) :=
  match v with
  | Str s => Ok (split chr_dot s)
  | _ => Throw "TypeError: split is not a function"
  end.

Definition is_str (v : jsval) (s : string) : bool := strict_eq v (Str (lit s)).

Definition generate_direct (m : Mapping) : result str :=
  let src := or_default (get m "source") "source" in
  let code := lit "INPUT." ++ src in
  Ok (if is_str (get m "transform") "upper" then code ++ lit ".upper()"
      else if is_str (get m "transform") "lower" then code ++ lit ".lower()"
      else if is_str (get m "transform") "capitalize" then code ++ lit ".capitalize()"
      else if truthy (get m "transform")
           then to_string (get m "transform") ++ lit "(" ++ code ++ lit ")"
      else code).

Definition generate_conditional (m : Mapping) : result str :=
  let field := or_default (get m "condField") "field" in
  let op := or_default (get m "condOp") "==" in
  let val := or_default (get m "condValue") "value" in
  let then_ := jsor (get m "thenValue") (Str (lit "value1")) in
  let els := jsor (get m "elseValue") (Str (lit "value2")) in
  thenDot ← js_includes_dot then_;
  let thenCode := if (thenDot : bool) then lit "INPUT." ++ to_string then_
                  else dq ++ to_string then_ ++ dq in
  elseDot ← js_includes_dot els;
  let elseCode := if (elseDot : bool) then lit "INPUT." ++ to_string els
                  else dq ++ to_string els ++ dq in
  Ok (thenCode ++ lit " if INPUT." ++ field ++ lit " " ++ op ++ lit " " ++ dq
        ++ val ++ dq ++ lit " else " ++ elseCode).

Definition generate_for_loop (m : Mapping) : str :=
  lit "for " ++ or_default (get m "loopVar") "item" ++ lit " in "
    ++ or_default (get m "iterable") "items" ++ lit ":".

Definition generate_if_block (m : Mapping) : str :=
  if is_str (get m "ifType") "else" then lit "else:"
  else if is_str (get m "ifType") "elif"
       then lit "elif " ++ or_default (get m "condition") "condition" ++ lit ":"
  else lit "if " ++ or_default (get m "condition") "condition" ++ lit ":".

Definition generate_datetime_parse (m : Mapping) : str :=
  or_default (get m "varName") "date" ++ lit " = parseDate("
    ++ or_default (get m "source") "INPUT.date" ++ lit ", " ++ dq
    ++ or_default (get m "format") "yyyyMMdd" ++ dq ++ lit ")".

Definition generate_datetime_format (m : Mapping) : str :=
  lit "formatDate(" ++ or_default (get m "dateVar") "date" ++ lit ", " ++ dq
    ++ or_default (get m "format") "yyyy-MM-dd" ++ dq ++ lit ")".

Definition generate_datetime_add (m : Mapping) : str :=
  or_default (get m "varName") "newDate" ++ lit " = "
    ++ or_default (get m "operation") "addDays" ++ lit "("
    ++ or_default (get m "source") "date" ++ lit ", "
    ++ or_default (get m "amount") "1" ++ lit ")".

Definition decimal_binop (m : Mapping) (op : string) : str :=
  or_default (get m "resultVar") "result" ++ lit " = "
    ++ or_default (get m "value1") "val1" ++ lit op
    ++ or_default (get m "value2") "val2".

Definition generate_decimal (m : Mapping) : str :=
  if is_str (get m "decimalOp") "create"
  then or_default (get m "varName") "amount" ++ lit " = Decimal("
         ++ to_string (jsor (get m "source") (Str (dq ++ lit "0" ++ dq))) ++ lit ")"
  else if is_str (get m "decimalOp") "add" then decimal_binop m " + "
  else if is_str (get m "decimalOp") "subtract" then decimal_binop m " - "
  else if is_str (get m "decimalOp") "multiply" then decimal_binop m " * "
  else if is_str (get m "decimalOp") "divide" then decimal_binop m " / "
  else if is_str (get m "decimalOp") "round"
  then lit "round(" ++ or_default (get m "source") "amount" ++ lit ", "
         ++ or_default (get m "decimals") "2" ++ lit ")"
  else lit "Decimal(" ++ dq ++ lit "0" ++ dq ++ lit ")".

Definition regex_call (fn : string) (pattern source : str) : str :=
  lit fn ++ lit "(r" ++ dq ++ pattern ++ dq ++ lit ", " ++ source ++ lit ")".

Definition generate_regex (m : Mapping) : str :=
  let pattern := or_default (get m "pattern") "pattern" in
  let source := or_default (get m "source") "INPUT.text" in
  if is_str (get m "regexOp") "match" then regex_call "re.match" pattern source
  else if is_str (get m "regexOp") "search" then regex_call "re.search" pattern source
  else if is_str (get m "regexOp") "findall" then regex_call "re.findall" pattern source
  else if is_str (get m "regexOp") "replace"
  then lit "re.sub(r" ++ dq ++ pattern ++ dq ++ lit ", " ++ dq
         ++ to_string (jsor (get m "replacement") (Str [])) ++ dq ++ lit ", "
         ++ source ++ lit ")"
  else if is_str (get m "regexOp") "split" then regex_call "re.split" pattern source
  else regex_call "re.match" pattern source.

(** [Plugin.generate(m)] for an own property of the registry. *)
Definition generate (p : plugin) (m : Mapping) : result str :=
  match p with
  | direct => generate_direct m
  | conditional => generate_conditional m
  | for_loop => Ok (generate_for_loop m)
  | if_block => Ok (generate_if_block m)
  | break => Ok (lit "break")
  | continue => Ok (lit "continue")
  | datetime_parse => Ok (generate_datetime_parse m)
  | datetime_format => Ok (generate_datetime_format m)
  | datetime_add => Ok (generate_datetime_add m)
  | decimal => Ok (generate_decimal m)
  | regex => Ok (generate_regex m)
  end.

(** [Plugin.generate(m)] for whatever the lookup returned and passed the
    [!Plugin] test. *)
Definition call_generate (P : property) (m : Mapping) : result str :=
  match P with
  | Own p => generate p m
  | Inherited | Absent => Throw "TypeError: Plugin.generate is not a function"
  end.

(** ** The code generator *)

(** [lines.push(l)] *)
Definition push (lines : list str) (l : str) : list str := lines ++ [l].

(** The template literal that puts [p] between a bracket-quote and a
    quote-bracket. *)
Definition bracket (p : str) : str := lit "[" ++ dq ++ p ++ dq ++ lit "]".

(** [a[i]] as a value: [undefined] past the end. *)
Definition item (a : list str) (i : nat) : jsval :=
  match a !! i with
  | Some s => Str s
  | None => Undefined
  end.

(** [!Plugin] is false for every object and function. *)
Definition property_truthy (P : property) : bool :=
  match P with
  | Own _ | Inherited => true
  | Absent => false
  end.

(** The part of the loop body that [generateCode] runs on a mapping that is
    not a module call; the text is the same in the loop of the helper
    modules and in the loop of the main module. *)
Definition field_mapping (lines : list str) (m : Mapping) : result (list str) :=
  let Plugin := TRANSFORMATION_PLUGINS (get m "transformation") in
  if negb (property_truthy Plugin) || negb (truthy (get m "target")) then Ok lines
  else
    targetPath ← js_split_dot (get m "target");
    code ← call_generate Plugin m;
    let assignment :=
      if length (targetPath : list str) =? 1
      then lit "    OUTPUT[" ++ dq ++ to_string (item targetPath 0) ++ dq
             ++ lit "] = " ++ code
      else
        let parts := join [] (map bracket targetPath) in
        lit "    OUTPUT" ++ parts ++ lit " = " ++ code in
    Ok (push lines assignment).

(** The loop body over the mappings of a helper module. *)
Definition helper_mapping (lines : list str) (m : Mapping) : result (list str) :=
  if is_str (get m "type") "module_call" then
    let lines := push lines
      (lit "    # Call " ++ to_string (get m "moduleName") ++ lit " module") in
    let lines := push lines
      (lit "    map_" ++ to_string (get m "moduleName") ++ lit "(INPUT, OUTPUT)") in
    Ok lines
  else field_mapping lines m.

(** The loop body over the mappings of the main module. *)
Definition main_mapping (lines : list str) (m : Mapping) : result (list str) :=
  if is_str (get m "type") "module_call" then
    let lines := push lines
      (lit "    # Call " ++ to_string (get m "moduleName") ++ lit " module") in
    let lines := push lines
      (lit "    map_" ++ to_string (get m "moduleName") ++ lit "(INPUT, OUTPUT)") in
    let lines := push lines (lit "    ") in
    Ok lines
  else field_mapping lines m.

Definition triple_quote : str := dq ++ dq ++ dq.

(** STEP 1 of [generateCode]: the loop body over the modules. *)
Definition helper_module (lines : list str) (module : Module) : result (list str) :=
  if str_eqb (name module) (lit "main") || (length (mappings module) =? 0)
  then Ok lines
  else
    let lines := push lines (lit "def map_" ++ name module ++ lit "(INPUT, OUTPUT):") in
    let lines := push lines
      (lit "    " ++ triple_quote ++ name module ++ lit " mappings" ++ triple_quote) in
    lines ← forEach helper_mapping (mappings module) lines;
    Ok (push lines []).

Definition is_main (m : Module) : bool := str_eqb (name m) (lit "main").

Definition uses_regex (map : Mapping) : bool :=
  is_str (get map "transformation") "regex".

(** The array [lines] that [generateCode] joins. *)
Definition generateLines (modules : list Module) : result (list str) :=
  let lines := [] in
  let lines := push lines (lit "#!/usr/bin/env python3") in
  let lines := push lines (lit "# GRIZZLY_TEMPLATE_V1") in
  let lines := push lines triple_quote in
  let lines := push lines (lit "Generated by Grizzly") in
  let lines := push lines triple_quote in
  let lines := push lines [] in
  let hasRegex := existsb (fun m => existsb uses_regex (mappings m)) modules in
  let lines := if hasRegex then push (push lines (lit "import re")) [] else lines in
  lines ← forEach helper_module modules lines;
  match List.find is_main modules with
  | Some mainModule =>
      let lines := push lines (lit "def transform(INPUT):") in
      let lines := push lines
        (lit "    " ++ triple_quote ++ lit "Main transformation" ++ triple_quote) in
      let lines := push lines (lit "    OUTPUT = {}") in
      let lines := push lines (lit "    ") in
      lines ← forEach main_mapping (mappings mainModule) lines;
      let lines := push lines (lit "    ") in
      let lines := push lines (lit "    return OUTPUT") in
      Ok lines
  | None => Ok lines
  end.

Definition generateCode (modules : list Module) : result str :=
  lines ← generateLines modules;
  Ok (join nl lines).

(** ** The template parser

    In the comments that quote a regular expression of the source, the
    double quote character is written [\x22]. *)

Definition not_quote (c : ascii) : bool := negb (ascii_eqb c chr_quote).
Definition is_dot (c : ascii) : bool := ascii_eqb c chr_dot.
(** [.] *)
Definition any_char (c : ascii) : bool := negb (is_line_terminator c).

(** [/^def transform\(INPUT\):/] *)
Definition re_main : regexp := seq [Bol; Lit (lit "def transform(INPUT):")].

(** [/^def map_(\w+)\(INPUT, OUTPUT\):/] *)
Definition re_moduleDef : regexp :=
  seq [Bol; Lit (lit "def map_"); Grp 1 (Plus true (Cls is_word));
       Lit (lit "(INPUT, OUTPUT):")].

(** [/^def (transform|map_\w+)\(INPUT, OUTPUT\):/] *)
Definition re_knownDef : regexp :=
  seq [Bol; Lit (lit "def ");
       Grp 1 (Alt (Lit (lit "transform"))
                  (Seq (Lit (lit "map_")) (Plus true (Cls is_word))));
       Lit (lit "(INPUT, OUTPUT):")].

(** [/^map_(\w+)\(INPUT, OUTPUT\)/] *)
Definition re_moduleCall : regexp :=
  seq [Bol; Lit (lit "map_"); Grp 1 (Plus true (Cls is_word));
       Lit (lit "(INPUT, OUTPUT)")].

(** [(?:\.(\w+)\(\))?] *)
Definition re_method : regexp :=
  Opt (seq [Lit (lit "."); Grp 3 (Plus true (Cls is_word)); Lit (lit "()")]).

(** [/OUTPUT\[\x22([^\x22]+)\x22\]\s*=\s*INPUT\.([^\s.]+)(?:\.(\w+)\(\))?/] *)
Definition re_simple : regexp :=
  seq [Lit (lit "OUTPUT[" ++ dq); Grp 1 (Plus true (Cls not_quote));
       Lit (dq ++ lit "]");
       Star true (Cls is_space); Lit (lit "="); Star true (Cls is_space);
       Lit (lit "INPUT.");
       Grp 2 (Plus true (Cls (fun c => negb (is_space c || is_dot c))));
       re_method].

(** [/OUTPUT(\[\x22[^\x22]+\x22\])+\s*=\s*INPUT\.([\w.]+?)(?:\.(\w+)\(\))?$/] *)
Definition re_nested : regexp :=
  seq [Lit (lit "OUTPUT");
       Plus true (Grp 1 (seq [Lit (lit "[" ++ dq); Plus true (Cls not_quote);
                              Lit (dq ++ lit "]")]));
       Star true (Cls is_space); Lit (lit "="); Star true (Cls is_space);
       Lit (lit "INPUT.");
       Grp 2 (Plus false (Cls (fun c => is_word c || is_dot c)));
       re_method; Eol].

(** [/\[\x22([^\x22]+)\x22\]/g] *)
Definition re_pathPart : regexp :=
  seq [Lit (lit "[" ++ dq); Grp 1 (Plus true (Cls not_quote)); Lit (dq ++ lit "]")].

(** [/OUTPUT\[\x22([^\x22]+)\x22\]\s*=\s*(.+) if INPUT\.(\w+) (==|!=|>|<) \x22([^\x22]+)\x22 else (.+)/] *)
Definition re_cond : regexp :=
  seq [Lit (lit "OUTPUT[" ++ dq); Grp 1 (Plus true (Cls not_quote));
       Lit (dq ++ lit "]");
       Star true (Cls is_space); Lit (lit "="); Star true (Cls is_space);
       Grp 2 (Plus true (Cls any_char)); Lit (lit " if INPUT.");
       Grp 3 (Plus true (Cls is_word)); Lit (lit " ");
       Grp 4 (Alt (Lit (lit "==")) (Alt (Lit (lit "!="))
                  (Alt (Lit (lit ">")) (Lit (lit "<")))));
       Lit (lit " " ++ dq); Grp 5 (Plus true (Cls not_quote));
       Lit (dq ++ lit " else "); Grp 6 (Plus true (Cls any_char))].

(** [/^\[\x22']|[\x22']$/g]: the first alternative is the four literal characters
    of an opening bracket, a double quote, a single quote and a closing
    bracket at the start; the second a quote character at the end. *)
Definition re_cleanQuotes : regexp :=
  Alt (Seq Bol (Lit (lit "[" ++ dq ++ lit "']")))
      (Seq (Cls (fun c => ascii_eqb c chr_quote || ascii_eqb c chr_squote)) Eol).

(** [/INPUT\./g] *)
Definition re_inputPrefix : regexp := Lit (lit "INPUT.").

(** [m[n]] of a match result. *)
Definition group (n : nat) (st : mstate) : jsval :=
  match cap n st with
  | Some s => Str s
  | None => Undefined
  end.

(** [const cleanVal = (v) => v.replace(...).replace(...).trim()] *)
Definition cleanVal (v : str) : str :=
  trim (remove_all re_inputPrefix (remove_all re_cleanQuotes v)).

(** The local variables of [parseTemplate]. [currentModule] is a reference
    to an element of the array [modules], kept here as its index, so that a
    push onto [currentModule.mappings] is seen through [modules].
    [uid_calls] counts the calls of [uid()] made so far. *)
Record pstate : Type := PState {
  ps_modules : list Module;
  currentModule : option nat;
  currentModuleName : option str;
  ps_totalMappings : nat;
  uid_calls : nat
}.

(** The object [parseTemplate] returns ([modules] is [null] or an array),
    with the number of identifiers drawn. *)
Record parsed : Type := Parsed {
  parsed_modules : option (list Module);
  totalMappings : nat;
  parsed_uids : nat
}.

Definition set_mappings (ms : list Mapping) (module : Module) : Module :=
  {| mod_id := mod_id module; name := name module; mappings := ms |}.

Definition set_name (n : str) (module : Module) : Module :=
  {| mod_id := mod_id module; name := n; mappings := mappings module |}.

Section Parser.

(** [uid()] reads the clock and the random number generator; [uid n] is
    the identifier the [n]-th call returns. *)
Variable uid : nat -> str.

(** [modules.push(currentModule = { id: uid(), name, mappings: [] })] *)
Definition open_module (st : pstate) (n : str) : pstate :=
  {| ps_modules := ps_modules st ++ [mkModule (uid (uid_calls st)) n []];
     currentModule := Some (length (ps_modules st));
     currentModuleName := Some n;
     ps_totalMappings := ps_totalMappings st;
     uid_calls := S (uid_calls st) |}.

(** [currentModule = null; currentModuleName = null] *)
Definition close_module (st : pstate) : pstate :=
  {| ps_modules := ps_modules st;
     currentModule := None;
     currentModuleName := None;
     ps_totalMappings := ps_totalMappings st;
     uid_calls := uid_calls st |}.

(** [currentModule.mappings.push({ id: uid(), ...fields }); totalMappings++]
    for the module at index [i]. *)
Definition add_mapping (st : pstate) (i : nat) (fields : list (string * jsval))
  : pstate :=
  let m := obj (("id", Str (uid (uid_calls st))) :: fields) in
  {| ps_modules :=
       alter (fun module => set_mappings (mappings module ++ [m]) module) i
             (ps_modules st);
     currentModule := currentModule st;
     currentModuleName := currentModuleName st;
     ps_totalMappings := S (ps_totalMappings st);
     uid_calls := S (uid_calls st) |}.

(** The text of a group that took part in the match. *)
Definition gtext (n : nat) (st : mstate) : str := to_string (group n st).

(** The callback of [lines.forEach] in [parseTemplate]. *)
Definition parse_line (st : pstate) (line : str) : pstate :=
  let trimmed := trim line in
  if matches re_main trimmed then open_module st (lit "main")
  else match exec re_moduleDef trimmed with
  | Some moduleDefMatch => open_module st (gtext 1 moduleDefMatch)
  | None =>
  if startsWith (lit "def ") trimmed && negb (matches re_knownDef trimmed)
  then close_module st
  else match currentModule st with
  | None => st
  | Some cur =>
  match exec re_moduleCall trimmed with
  | Some moduleCallMatch =>
      add_mapping st cur
        [ ("moduleName", group 1 moduleCallMatch);
          ("type", Str (lit "module_call"));
          ("isNew", Bool false) ]
  | None =>
  match exec re_simple trimmed with
  | Some simpleMatch =>
      add_mapping st cur
        [ ("target", group 1 simpleMatch);
          ("source", group 2 simpleMatch);
          ("transform", jsor (group 3 simpleMatch) Null);
          ("transformation", Str (lit "direct"));
          ("type", Str (lit "field"));
          ("isNew", Bool false) ]
  | None =>
  match exec re_nested trimmed with
  | Some nestedMatch =>
      let pathParts := matchAll_group re_pathPart 1 trimmed in
      let target := join (lit ".") (map (default []) pathParts) in
      let sourceParts := split chr_dot (gtext 2 nestedMatch) in
      let source := join (lit ".") sourceParts in
      let transform := jsor (group 3 nestedMatch) Null in
      add_mapping st cur
        [ ("target", Str target);
          ("source", Str source);
          ("transform", transform);
          ("transformation", Str (lit "direct"));
          ("type", Str (lit "field"));
          ("isNew", Bool false) ]
  | None =>
  match exec re_cond trimmed with
  | Some condMatch =>
      add_mapping st cur
        [ ("target", group 1 condMatch);
          ("condField", group 3 condMatch);
          ("condOp", group 4 condMatch);
          ("condValue", group 5 condMatch);
          ("thenValue", Str (cleanVal (gtext 2 condMatch)));
          ("elseValue", Str (cleanVal (gtext 6 condMatch)));
          ("transformation", Str (lit "conditional"));
          ("type", Str (lit "field"));
          ("isNew", Bool false) ]
  | None => st
  end end end end end end.

Definition parse_init (uids : nat) : pstate :=
  {| ps_modules := []; currentModule := None; currentModuleName := None;
     ps_totalMappings := 0; uid_calls := uids |}.

(** [parseTemplate(pythonCode)], when [uids] identifiers were drawn before. *)
Definition parseTemplate (uids : nat) (pythonCode : str) : parsed :=
  let lines := split chr_nl pythonCode in
  let st := fold_left parse_line lines (parse_init uids) in
  {| parsed_modules :=
       if 0 <? length (ps_modules st) then Some (ps_modules st) else None;
     totalMappings := ps_totalMappings st;
     parsed_uids := uid_calls st |}.

End Parser.

(** ** The diff engine *)

(** A plain object used as a dictionary: the properties in insertion order.
    (Keys that are canonical array indices would be listed first; the keys
    of the diff engine contain a colon and never are.) *)
Abbreviation dict := (list (str * Mapping)).

(** [o[k]] *)
Fixpoint dict_get (k : str) (o : dict) : option Mapping :=
  match o with
  | [] => None
  | (k', v) :: o' => if str_eqb k k' then Some v else dict_get k o'
  end.

(** [o[k] = v]: an existing property keeps its place. *)
Fixpoint dict_set (k : str) (v : Mapping) (o : dict) : dict :=
  match o with
  | [] => [(k, v)]
  | (k', v') :: o' =>
      if str_eqb k k' then (k, v) :: o' else (k', v') :: dict_set k v o'
  end.

(** The key under which [calculateChanges] files mapping [m] of module [md]. *)
Definition flat_key (md : Module) (m : Mapping) : str :=
  if is_str (get m "type") "module_call"
  then name md ++ lit ":call_" ++ to_string (get m "moduleName")
  else name md ++ lit ":" ++ to_string (get m "target").

(** [{ module: md.name, ...m }] *)
Definition flat_entry (md : Module) (m : Mapping) : Mapping :=
  m ∪ {[ "module" := Str (name md) ]}.

(** The two [forEach] loops that fill [currentFlat] and [originalFlat]. *)
Definition flatten (modules : list Module) : dict :=
  fold_left (fun flat md =>
    fold_left (fun flat m => dict_set (flat_key md m) (flat_entry md m) flat)
              (mappings md) flat)
    modules [].

Record Changes : Type := mkChanges {
  added : list Mapping;
  removed : list Mapping;
  modified : list (Mapping * Mapping);   (* { current, original } *)
  unchanged : list Mapping
}.

Definition no_changes : Changes :=
  {| added := []; removed := []; modified := []; unchanged := [] |}.

(** [a !== b] *)
Definition strict_ne (a b : jsval) : bool := negb (strict_eq a b).

(** The test that files a key of both dictionaries under [modified]. *)
Definition differs (curr orig : Mapping) : bool :=
  strict_ne (get curr "source") (get orig "source")
  || strict_ne (get curr "transformation") (get orig "transformation")
  || strict_ne (get curr "transform") (get orig "transform")
  || strict_ne (get curr "moduleName") (get orig "moduleName").

(** The callback of [Object.keys(currentFlat).forEach]. *)
Definition classify_current (originalFlat : dict) (changes : Changes)
  (kv : str * Mapping) : Changes :=
  let '(key, curr) := kv in
  match dict_get key originalFlat with
  | None =>
      {| added := added changes ++ [curr]; removed := removed changes;
         modified := modified changes; unchanged := unchanged changes |}
  | Some orig =>
      if differs curr orig
      then {| added := added changes; removed := removed changes;
              modified := modified changes ++ [(curr, orig)];
              unchanged := unchanged changes |}
      else {| added := added changes; removed := removed changes;
              modified := modified changes;
              unchanged := unchanged changes ++ [curr] |}
  end.

(** The callback of [Object.keys(originalFlat).forEach]. *)
Definition classify_original (currentFlat : dict) (changes : Changes)
  (kv : str * Mapping) : Changes :=
  let '(key, orig) := kv in
  match dict_get key currentFlat with
  | None =>
      {| added := added changes; removed := removed changes ++ [orig];
         modified := modified changes; unchanged := unchanged changes |}
  | Some _ => changes
  end.

(** [calculateChanges()], a function of the two pieces of state it reads. *)
Definition calculateChanges (originalModules : option (list Module))
  (modules : list Module) : Changes :=
  match originalModules with
  | None => no_changes
  | Some originalModules =>
      let changes := no_changes in
      let currentFlat := flatten modules in
      let originalFlat := flatten originalModules in
      let changes := fold_left (classify_current originalFlat) currentFlat changes in
      let changes := fold_left (classify_original currentFlat) originalFlat changes in
      changes
  end.

(** ** The component: its state and its handlers *)

(** The pieces of React state the handlers below read or set. [console]
    collects the lines written with [console.log]; [uids] counts the
    calls of [uid()]. *)
Record State : Type := mkState {
  modules : list Module;
  activeModule : nat;
  expandedRow : option nat;
  templateLoaded : bool;
  templateInfo : str;
  originalModules : option (list Module);
  console : list str;
  uids : nat
}.

(** What running a handler leads to. An assignment past the end of an
    array leaves JavaScript with a sparse array, or with a module object
    that has neither [id] nor [name]; lists of [Module] have no such
    values and the handler's outcome is [Sparse] there. *)
Inductive outcome : Type :=
  | Done (s : State)
  | Threw (e : string)
  | Sparse.

(** [l.filter((_, i) => i !== idx)] *)
Fixpoint filter_out {A} (idx : nat) (l : list A) : list A :=
  match l, idx with
  | [], _ => []
  | _ :: l', O => l'
  | x :: l', S idx' => x :: filter_out idx' l'
  end.

(** [JSON.parse(JSON.stringify(modules))]: a copy without the properties
    whose value is [undefined]. *)
Definition json_copy_mapping (m : Mapping) : Mapping :=
  filter (fun kv => kv.2 ≠ Undefined) m.

Definition json_copy (ms : list Module) : list Module :=
  map (fun md => set_mappings (map json_copy_mapping (mappings md)) md) ms.

(** Decimal digits of a number, as a template literal prints it. *)
Definition number (n : nat) : str := lit (pretty n).

Section Handlers.

Variable uid : nat -> str.

(** The state of a freshly mounted component. *)
Definition initial_state : State :=
  {| modules := [mkModule (uid 0) (lit "main") []];
     activeModule := 0; expandedRow := None;
     templateLoaded := false; templateInfo := [];
     originalModules := None; console := []; uids := 1 |}.

(** [const mappings = modules[activeModule]?.mappings || []] *)
Definition active_mappings (s : State) : list Mapping :=
  match modules s !! activeModule s with
  | Some md => mappings md
  | None => []
  end.

(** The branch [type === "template"] of the [onload] callback in
    [handleFile]. *)
Definition handleFile_template (content : str) (s : State) : State :=
  let parsed := parseTemplate uid (uids s) content in
  match parsed_modules parsed with
  | Some ms =>
      {| modules := ms;
         originalModules := Some (json_copy ms);
         activeModule := 0;
         templateLoaded := true;
         templateInfo := number (totalMappings parsed) ++ lit " mappings, "
                           ++ number (length ms) ++ lit " modules";
         expandedRow := expandedRow s;
         console := console s;
         uids := parsed_uids parsed |}
  | None =>
      {| modules := modules s;
         originalModules := originalModules s;
         activeModule := activeModule s;
         templateLoaded := templateLoaded s;
         templateInfo := templateInfo s;
         expandedRow := expandedRow s;
         console := console s ++ [lit "No mappings found in template file"];
         uids := parsed_uids parsed |}
  end.

Definition with_modules (ms : list Module) (s : State) : State :=
  {| modules := ms; activeModule := activeModule s; expandedRow := expandedRow s;
     templateLoaded := templateLoaded s; templateInfo := templateInfo s;
     originalModules := originalModules s; console := console s; uids := uids s |}.

Definition with_activeModule (i : nat) (s : State) : State :=
  {| modules := modules s; activeModule := i; expandedRow := expandedRow s;
     templateLoaded := templateLoaded s; templateInfo := templateInfo s;
     originalModules := originalModules s; console := console s; uids := uids s |}.

Definition with_expandedRow (r : option nat) (s : State) : State :=
  {| modules := modules s; activeModule := activeModule s; expandedRow := r;
     templateLoaded := templateLoaded s; templateInfo := templateInfo s;
     originalModules := originalModules s; console := console s; uids := uids s |}.

Definition with_uids (n : nat) (s : State) : State :=
  {| modules := modules s; activeModule := activeModule s;
     expandedRow := expandedRow s;
     templateLoaded := templateLoaded s; templateInfo := templateInfo s;
     originalModules := originalModules s; console := console s; uids := n |}.

Definition addModule (s : State) : State :=
  let newModule :=
    mkModule (uid (uids s)) (lit "module_" ++ number (length (modules s))) [] in
  with_uids (S (uids s))
    (with_activeModule (length (modules s))
       (with_modules (modules s ++ [newModule]) s)).

(** The rewriting [updateModuleName] applies to a mapping of another module. *)
Definition rename_call (oldName name : str) (m : Mapping) : Mapping :=
  if is_str (get m "type") "module_call" && strict_eq (get m "moduleName") (Str oldName)
  then <["moduleName" := Str name]> m
  else m.

Definition updateModuleName (idx : nat) (name' : str) (s : State) : outcome :=
  match modules s !! idx with
  | None => Threw "TypeError: Cannot read properties of undefined (reading 'name')"
  | Some this =>
      if str_eqb (name this) (lit "main") then Done s
      else
        let oldName := name this in
        if str_eqb oldName name' then Done s
        else
          let newModules :=
            imap (fun i md =>
                    if i =? idx then set_name name' md
                    else set_mappings (map (rename_call oldName name') (mappings md)) md)
                 (modules s) in
          Done (with_modules newModules s)
  end.

Definition deleteModule (idx : nat) (s : State) : State :=
  if length (modules s) =? 1 then s
  else
    let newModules := filter_out idx (modules s) in
    let s' := with_modules newModules s in
    if length newModules <=? activeModule s
    then with_activeModule (length newModules - 1) s'
    else s'.

Definition updateModuleMappings (moduleIdx : nat) (newMappings : list Mapping)
  (s : State) : outcome :=
  match modules s !! moduleIdx with
  | Some md => Done (with_modules (<[moduleIdx := set_mappings newMappings md]> (modules s)) s)
  | None => Sparse
  end.

Definition then_ (o : outcome) (f : State -> State) : outcome :=
  match o with
  | Done s => Done (f s)
  | _ => o
  end.

Definition addMapping (s : State) : outcome :=
  let newMapping :=
    obj [ ("id", Str (uid (uids s))); ("target", Str []); ("source", Str []);
          ("transformation", Str (lit "direct")); ("type", Str (lit "field"));
          ("isNew", Bool true) ] in
  let newMappings := active_mappings s ++ [newMapping] in
  then_ (updateModuleMappings (activeModule s) newMappings s)
        (fun s' => with_uids (S (uids s))
                     (with_expandedRow (Some (length newMappings - 1)) s')).

Definition addModuleCall (s : State) : outcome :=
  let newModuleCall :=
    obj [ ("id", Str (uid (uids s))); ("moduleName", Str []);
          ("type", Str (lit "module_call")); ("isNew", Bool true) ] in
  let newMappings := active_mappings s ++ [newModuleCall] in
  then_ (updateModuleMappings (activeModule s) newMappings s)
        (with_uids (S (uids s))).

(** [{ ...old, ...updates, isNew: false }] *)
Definition merge_updates (old updates : Mapping) : Mapping :=
  <["isNew" := Bool false]> (updates ∪ old).

Definition updateMapping (idx : nat) (updates : Mapping) (s : State) : outcome :=
  let mappings := active_mappings s in
  match mappings !! idx with
  | Some old =>
      updateModuleMappings (activeModule s)
        (<[idx := merge_updates old updates]> mappings) s
  | None =>
      if idx =? length mappings
      then updateModuleMappings (activeModule s)
             (mappings ++ [merge_updates ∅ updates]) s
      else Sparse
  end.

Definition deleteMapping (idx : nat) (s : State) : outcome :=
  let newMappings := filter_out idx (active_mappings s) in
  updateModuleMappings (activeModule s) newMappings s.

(** [calculateChanges()] as the component calls it. *)
Definition changes_of (s : State) : Changes :=
  calculateChanges (originalModules s) (modules s).

End Handlers.

(** * Properties *)

(** ** The diff engine *)

(** The classification that the specification describes, as comprehensions
    over the two flattened dictionaries. *)
Definition spec_added (currentFlat originalFlat : dict) : list Mapping :=
  omap (fun kv : str * Mapping =>
          match dict_get kv.1 originalFlat with
          | None => Some kv.2
          | Some _ => None
          end) currentFlat.

Definition spec_modified (currentFlat originalFlat : dict)
  : list (Mapping * Mapping) :=
  omap (fun kv : str * Mapping =>
          match dict_get kv.1 originalFlat with
          | Some orig => if differs kv.2 orig then Some (kv.2, orig) else None
          | None => None
          end) currentFlat.

Definition spec_unchanged (currentFlat originalFlat : dict) : list Mapping :=
  omap (fun kv : str * Mapping =>
          match dict_get kv.1 originalFlat with
          | Some orig => if differs kv.2 orig then None else Some kv.2
          | None => None
          end) currentFlat.

Definition spec_removed (currentFlat originalFlat : dict) : list Mapping :=
  omap (fun kv : str * Mapping =>
          match dict_get kv.1 currentFlat with
          | None => Some kv.2
          | Some _ => None
          end) originalFlat.

Lemma classify_current_fold (fo fc : dict) (ch : Changes) :
  fold_left (classify_current fo) fc ch =
  {| added := added ch ++ spec_added fc fo;
     removed := removed ch;
     modified := modified ch ++ spec_modified fc fo;
     unchanged := unchanged ch ++ spec_unchanged fc fo |}.
Proof.
  revert ch. induction fc as [|[k c] fc IH]; intros ch.
  - destruct ch; simpl. by rewrite !app_nil_r.
  - simpl. rewrite IH. unfold classify_current, spec_added, spec_modified,
      spec_unchanged. simpl.
    destruct (dict_get k fo) as [o|]; simpl.
    + destruct (differs c o); simpl; by rewrite <- ?app_assoc.
    + by rewrite <- ?app_assoc.
Qed.

Lemma classify_original_fold (fc fo : dict) (ch : Changes) :
  fold_left (classify_original fc) fo ch =
  {| added := added ch;
     removed := removed ch ++ spec_removed fc fo;
     modified := modified ch;
     unchanged := unchanged ch |}.
Proof.
  revert ch. induction fo as [|[k o] fo IH]; intros ch.
  - destruct ch; simpl. by rewrite app_nil_r.
  - simpl. rewrite IH. unfold classify_original, spec_removed. simpl.
    destruct (dict_get k fc) as [c|]; simpl.
    + by destruct ch.
    + by rewrite <- app_assoc.
Qed.

Lemma strict_ne_true (a b : jsval) : strict_ne a b = true <-> a ≠ b.
Proof.
  unfold strict_ne, strict_eq. rewrite negb_true_iff, bool_decide_eq_false. done.
Qed.

Lemma differs_spec (c o : Mapping) :
  differs c o = true <->
  get c "source" ≠ get o "source"
  \/ get c "transformation" ≠ get o "transformation"
  \/ get c "transform" ≠ get o "transform"
  \/ get c "moduleName" ≠ get o "moduleName".
Proof.
  unfold differs. rewrite !orb_true_iff, !strict_ne_true. tauto.
Qed.

(** The models of the example in the specification. *)
Definition diff_original : list Module :=
  [mkModule [] (lit "main")
     [obj [("target", Str (lit "x")); ("source", Str (lit "a"))]]].

Definition diff_current : list Module :=
  [mkModule [] (lit "main")
     [obj [("target", Str (lit "x")); ("source", Str (lit "b"))];
      obj [("target", Str (lit "y")); ("source", Str (lit "c"))]]].

Definition entry (module target source : string) : Mapping :=
  obj [("module", Str (lit module)); ("target", Str (lit target));
       ("source", Str (lit source))].

(** C3. For every pair of models, [calculateChanges] files each key of both
    flattened dictionaries under [modified] exactly when [source],
    [transformation], [transform] or [moduleName] differ (by [!==]) and
    under [unchanged] otherwise, the keys of the current dictionary alone
    under [added] and those of the original alone under [removed]. On the
    example of the specification it reports [x] modified, [y] added and
    nothing removed; without an original snapshot all four lists are
    empty. *)
Theorem C3_diff_classification :
  (forall original current : list Module,
     let ch := calculateChanges (Some original) current in
     added ch = spec_added (flatten current) (flatten original)
     /\ removed ch = spec_removed (flatten current) (flatten original)
     /\ modified ch = spec_modified (flatten current) (flatten original)
     /\ unchanged ch = spec_unchanged (flatten current) (flatten original))
  /\ (forall c o : Mapping,
        differs c o = true <->
        get c "source" ≠ get o "source"
        \/ get c "transformation" ≠ get o "transformation"
        \/ get c "transform" ≠ get o "transform"
        \/ get c "moduleName" ≠ get o "moduleName")
  /\ calculateChanges (Some diff_original) diff_current =
       {| added := [entry "main" "y" "c"];
          removed := [];
          modified := [(entry "main" "x" "b", entry "main" "x" "a")];
          unchanged := [] |}
  /\ (forall current : list Module,
        calculateChanges None current = no_changes).
Proof.
  split; [|split; [|split]].
  - intros original current. unfold calculateChanges.
    rewrite classify_original_fold, classify_current_fold. simpl. done.
  - apply differs_spec.
  - vm_compute. reflexivity.
  - done.
Qed.

(** An identifier source for the concrete runs below. *)
Definition uid_sample (n : nat) : str := lit "m_" ++ number n.

(** *** Keys of field mappings and of module calls *)

Definition field_call_helper : Mapping :=
  obj [ ("id", Str (lit "m_1")); ("target", Str (lit "call_helper"));
        ("source", Str (lit "a")); ("transformation", Str (lit "direct"));
        ("type", Str (lit "field")); ("isNew", Bool false) ].

Definition call_helper : Mapping :=
  obj [ ("id", Str (lit "m_2")); ("moduleName", Str (lit "helper"));
        ("type", Str (lit "module_call")); ("isNew", Bool false) ].

Definition main_of (ms : list Mapping) : Module := mkModule (lit "m_0") (lit "main") ms.

(** C5. The key of a field mapping is its target and the key of a module
    call is [call_] and the callee, both after the module name and a colon,
    so that the field mapping with target [call_helper] and the call of
    module [helper] share the key [main:call_helper]: the flattened
    dictionary keeps one entry for the two, and adding that field mapping
    to a model that has the call is reported as no change at all. *)
Theorem C5_field_key_meets_call_key :
  let both := main_of [field_call_helper; call_helper] in
  flat_key both field_call_helper = lit "main:call_helper"
  /\ flat_key both call_helper = lit "main:call_helper"
  /\ flatten [both] = [(lit "main:call_helper", flat_entry both call_helper)]
  /\ calculateChanges (Some [main_of [call_helper]]) [both] =
       {| added := []; removed := []; modified := [];
          unchanged := [flat_entry both call_helper] |}.
Proof. vm_compute. done. Qed.

(** *** Renaming a module *)

Definition call_of (callee : string) : Mapping :=
  obj [ ("id", Str (lit "m_9")); ("moduleName", Str (lit callee));
        ("type", Str (lit "module_call")); ("isNew", Bool false) ].

Definition renaming_state : State :=
  {| modules := [ mkModule (lit "m_0") (lit "main") [call_of "a"];
                  mkModule (lit "m_1") (lit "a") [call_of "a"] ];
     activeModule := 0; expandedRow := None; templateLoaded := true;
     templateInfo := []; originalModules := None; console := []; uids := 4 |}.

(** C10. Renaming module [a], which calls itself, to [b] rewrites the call
    in [main] and leaves the call inside the renamed module pointing at
    [a], a name no module has any more: [updateModuleName] returns the
    renamed module with its mappings as they were. *)
Theorem C10_rename_keeps_own_calls :
  exists s',
    updateModuleName 1 (lit "b") renaming_state = Done s'
    /\ modules s' = [ mkModule (lit "m_0") (lit "main") [call_of "b"];
                      mkModule (lit "m_1") (lit "b") [call_of "a"] ].
Proof. eexists. split; [reflexivity|]. vm_compute. done. Qed.

(** What [updateModuleName] does to the other modules, and when it does
    nothing. *)
Lemma updateModuleName_main (idx : nat) (n : str) (s : State) (this : Module) :
  modules s !! idx = Some this -> name this = lit "main" ->
  updateModuleName idx n s = Done s.
Proof.
  intros H1 H2. unfold updateModuleName. rewrite H1, H2.
  unfold str_eqb. by rewrite bool_decide_eq_true_2.
Qed.

Lemma updateModuleName_same (idx : nat) (s : State) (this : Module) :
  modules s !! idx = Some this ->
  updateModuleName idx (name this) s = Done s.
Proof.
  intros H1. unfold updateModuleName. rewrite H1.
  destruct (str_eqb (name this) (lit "main")); [done|].
  unfold str_eqb. by rewrite bool_decide_eq_true_2.
Qed.

Lemma get_insert_ne (m : Mapping) (f g : string) (v : jsval) :
  f ≠ g -> get (<[f := v]> m) g = get m g.
Proof. intros H. unfold get. by rewrite lookup_insert_ne. Qed.

Lemma get_insert_eq (m : Mapping) (f : string) (v : jsval) :
  get (<[f := v]> m) f = v.
Proof. unfold get. by rewrite lookup_insert_eq. Qed.

Lemma rename_call_spec (oldName n : str) (m : Mapping) :
  (get m "type" = Str (lit "module_call") /\ get m "moduleName" = Str oldName ->
     get (rename_call oldName n m) "moduleName" = Str n
     /\ forall f, f ≠ "moduleName" -> get (rename_call oldName n m) f = get m f)
  /\ (~ (get m "type" = Str (lit "module_call") /\ get m "moduleName" = Str oldName) ->
        rename_call oldName n m = m).
Proof.
  unfold rename_call, is_str, strict_eq. split.
  - intros [H1 H2]. rewrite !bool_decide_eq_true_2 by done. simpl.
    split; [apply get_insert_eq|]. intros f Hf. by apply get_insert_ne.
  - intros H. destruct (bool_decide _) eqn:E1; [|done].
    destruct (bool_decide (get m "moduleName" = _)) eqn:E2; [|done].
    apply bool_decide_eq_true_1 in E1, E2. tauto.
Qed.

Lemma updateModuleName_others (idx i : nat) (n : str) (s s' : State)
  (this md : Module) :
  modules s !! idx = Some this -> name this ≠ lit "main" -> name this ≠ n ->
  updateModuleName idx n s = Done s' ->
  modules s !! i = Some md -> i ≠ idx ->
  modules s' !! i =
    Some (set_mappings (map (rename_call (name this) n) (mappings md)) md)
  /\ modules s' !! idx = Some (set_name n this).
Proof.
  intros H1 H2 H3 H4 H5 H6. unfold updateModuleName in H4. rewrite H1 in H4.
  unfold str_eqb in H4. rewrite !bool_decide_eq_false_2 in H4 by done.
  injection H4 as <-. simpl. rewrite !list_lookup_imap, H1, H5. simpl.
  rewrite Nat.eqb_refl. destruct (Nat.eqb_spec i idx); done.
Qed.

(** *** Mappings that generate nothing *)

Definition inherited_kind : Mapping :=
  obj [ ("id", Str (lit "m_1")); ("target", Str (lit "x"));
        ("source", Str (lit "a")); ("transformation", Str (lit "toString"));
        ("type", Str (lit "field")); ("isNew", Bool false) ].

(** [toString] is not a kind of the registry, but the lookup
    [TRANSFORMATION_PLUGINS["toString"]] finds the method every object
    inherits, the test [!Plugin] lets it pass, and the call of its missing
    [generate] throws. The parser, [addMapping] and the kind selector store
    kinds of the registry only, so a model holds such a kind only when it
    is built by hand. *)
Lemma inherited_kind_aborts :
  assoc (lit "toString") own_keys = None
  /\ TRANSFORMATION_PLUGINS (get inherited_kind "transformation") = Inherited
  /\ generateCode [main_of [inherited_kind]] =
       Throw "TypeError: Plugin.generate is not a function"
  /\ generateCode [mkModule (lit "m_2") (lit "helper") [inherited_kind]; main_of []] =
       Throw "TypeError: Plugin.generate is not a function".
Proof. vm_compute. done. Qed.

(** The two skips the loop body does make: a falsy target, and a kind that
    neither the registry nor [Object.prototype] knows. *)
Lemma field_mapping_skips_empty_target (lines : list str) (m : Mapping) :
  truthy (get m "target") = false -> field_mapping lines m = Ok lines.
Proof.
  intros H. unfold field_mapping. rewrite H. simpl. by rewrite orb_true_r.
Qed.

Lemma field_mapping_skips_absent_kind (lines : list str) (m : Mapping) :
  TRANSFORMATION_PLUGINS (get m "transformation") = Absent ->
  field_mapping lines m = Ok lines.
Proof. intros H. unfold field_mapping. by rewrite H. Qed.

(** ** The code generator *)

Lemma split_length (c : ascii) (s : str) :
  length (split c s) = S (length (filter (fun a => a = c) s)).
Proof.
  induction s as [|a s IH]; [done|]. simpl. unfold ascii_eqb.
  destruct (Ascii.eqb_spec a c) as [->|Hne].
  - rewrite filter_cons_True by done. simpl. by rewrite IH.
  - rewrite filter_cons_False by done.
    destruct (split c s); simpl in *; done.
Qed.

Lemma split_nonempty (c : ascii) (s : str) : split c s ≠ [].
Proof. intros H. pose proof (split_length c s) as E. by rewrite H in E. Qed.

Lemma join_nil_concat (l : list str) : join [] l = concat l.
Proof.
  induction l as [|x l IH]; [done|]. simpl. rewrite <- IH.
  destruct l; [by rewrite app_nil_r|done].
Qed.

(** The assignment line for a target and the code of its right-hand side:
    one bracketed key for each segment of the target. *)
Definition assignment_line (t code : str) : str :=
  lit "    OUTPUT" ++ concat (map bracket (split chr_dot t)) ++ lit " = " ++ code.

Lemma field_mapping_line (lines : list str) (m : Mapping) (t code : str)
  (p : plugin) :
  get m "target" = Str t -> t ≠ [] ->
  TRANSFORMATION_PLUGINS (get m "transformation") = Own p ->
  generate p m = Ok code ->
  field_mapping lines m = Ok (lines ++ [assignment_line t code]).
Proof.
  intros Ht Hne HP Hg. unfold field_mapping. rewrite HP, Ht. simpl.
  destruct t as [|a t]; [done|]. simpl truthy. simpl negb.
  cbn [js_split_dot mbind result_bind]. rewrite Hg. cbn [mbind result_bind].
  unfold push, assignment_line. do 2 f_equal. f_equal.
  destruct (split chr_dot (a :: t)) as [|x [|y l]] eqn:E.
  - by apply split_nonempty in E.
  - cbn. unfold bracket. rewrite <- !app_assoc. reflexivity.
  - rewrite join_nil_concat. cbn [length Nat.eqb]. reflexivity.
Qed.

(** C7. For a field mapping (one whose [type] is not [module_call]) with a
    non-empty target, a kind of the registry and right-hand side [code],
    the loop bodies of the main module and of the helper modules push the
    line made of [OUTPUT], one bracketed and quoted key for each of the
    segments between the dots of the target, and [= code]; the number of
    those keys is the number of dots plus one. *)
Theorem C7_bracket_chain (lines : list str) (m : Mapping) (t code : str)
  (p : plugin) :
  get m "type" ≠ Str (lit "module_call") ->
  get m "target" = Str t -> t ≠ [] ->
  TRANSFORMATION_PLUGINS (get m "transformation") = Own p ->
  generate p m = Ok code ->
  main_mapping lines m =
    Ok (lines ++ [lit "    OUTPUT" ++ concat (map bracket (split chr_dot t))
                    ++ lit " = " ++ code])
  /\ helper_mapping lines m =
    Ok (lines ++ [lit "    OUTPUT" ++ concat (map bracket (split chr_dot t))
                    ++ lit " = " ++ code])
  /\ length (map bracket (split chr_dot t))
     = S (length (filter (fun a => a = chr_dot) t)).
Proof.
  intros Hty Ht Hne HP Hg. unfold main_mapping, helper_mapping, is_str, strict_eq.
  rewrite bool_decide_eq_false_2 by done.
  rewrite (field_mapping_line lines m t code p) by done.
  rewrite length_map, split_length. done.
Qed.

Definition nested_abc : Mapping :=
  obj [ ("id", Str (lit "m_1")); ("target", Str (lit "a.b.c"));
        ("source", Str (lit "src")); ("transformation", Str (lit "direct"));
        ("type", Str (lit "field")); ("isNew", Bool false) ].

Lemma C7_bracket_chain_witness :
  main_mapping [] nested_abc =
    Ok [lit "    OUTPUT[" ++ dq ++ lit "a" ++ dq ++ lit "][" ++ dq ++ lit "b" ++ dq
          ++ lit "][" ++ dq ++ lit "c" ++ dq ++ lit "] = INPUT.src"].
Proof.
  destruct (C7_bracket_chain [] nested_abc (lit "a.b.c") (lit "INPUT.src") direct)
    as [H _]; [by vm_compute | by vm_compute | by vm_compute | by vm_compute
              | by vm_compute |].
  rewrite H. vm_compute. reflexivity.
Defined.

Example single_segment_line :
  main_mapping []
    (obj [ ("target", Str (lit "x")); ("source", Str (lit "a"));
           ("transformation", Str (lit "direct")); ("type", Str (lit "field")) ])
  = Ok [lit "    OUTPUT[" ++ dq ++ lit "x" ++ dq ++ lit "] = INPUT.a"].
Proof. vm_compute. reflexivity. Qed.

(** *** The layout of the generated text *)

(** [l.map(f)] where [f] may throw. *)
Fixpoint mapM {A B} (f : A -> result B) (l : list A) : result (list B) :=
  match l with
  | [] => Ok []
  | x :: l' => y ← f x; ys ← mapM f l'; Ok (y :: ys)
  end.

(** The layout the specification describes: the header, an import line if
    a mapping is of kind [regex], one sub-routine for each module that is
    not [main] and has a mapping, and the entry point. *)
Definition spec_preamble (modules : list Module) : list str :=
  [ lit "#!/usr/bin/env python3"; lit "# GRIZZLY_TEMPLATE_V1"; triple_quote;
    lit "Generated by Grizzly"; triple_quote; [] ]
  ++ (if existsb (fun m => existsb uses_regex (mappings m)) modules
      then [lit "import re"; []] else []).

Definition is_helper (md : Module) : bool :=
  negb (is_main md) && negb (length (mappings md) =? 0).

Definition spec_subroutine (md : Module) : result (list str) :=
  body ← forEach helper_mapping (mappings md) [];
  Ok ([ lit "def map_" ++ name md ++ lit "(INPUT, OUTPUT):";
        lit "    " ++ triple_quote ++ name md ++ lit " mappings" ++ triple_quote ]
      ++ body ++ [[]]).

Definition spec_entry_point (mainModule : Module) : result (list str) :=
  body ← forEach main_mapping (mappings mainModule) [];
  Ok ([ lit "def transform(INPUT):";
        lit "    " ++ triple_quote ++ lit "Main transformation" ++ triple_quote;
        lit "    OUTPUT = {}"; lit "    " ]
      ++ body ++ [ lit "    "; lit "    return OUTPUT" ]).

Definition spec_layout (modules : list Module) : result (list str) :=
  subs ← mapM spec_subroutine (filter (fun md => is_helper md = true) modules);
  entry ← match List.find is_main modules with
          | Some mainModule => spec_entry_point mainModule
          | None => Ok []
          end;
  Ok (spec_preamble modules ++ concat subs ++ entry).

Lemma bind_ok {A B} (a : A) (f : A -> result B) : (x ← Ok a; f x) = f a.
Proof. reflexivity. Qed.

Lemma bind_assoc {A B C} (r : result A) (f : A -> result B) (g : B -> result C) :
  (y ← (x ← r; f x); g y) = (x ← r; y ← f x; g y).
Proof. by destruct r. Qed.

(** A loop body that only pushes can be run on the empty array. *)
Definition pushes_only {A} (f : list str -> A -> result (list str)) : Prop :=
  forall acc x, f acc x = (l ← f [] x; Ok (acc ++ l)).

Lemma forEach_pushes {A} (f : list str -> A -> result (list str)) :
  pushes_only f ->
  forall (l : list A) (acc : list str),
    forEach f l acc = (ls ← forEach f l []; Ok (acc ++ ls)).
Proof.
  intros Hf l. induction l as [|x l IH]; intros acc.
  - simpl. by rewrite app_nil_r.
  - simpl. rewrite (Hf acc x). destruct (f [] x) as [lx|e]; [|done].
    cbn [mbind result_bind]. rewrite (IH (acc ++ lx)), (IH lx).
    destruct (forEach f l []) as [ll|e]; [|done].
    cbn [mbind result_bind]. by rewrite app_assoc.
Qed.

Lemma field_mapping_pushes : pushes_only field_mapping.
Proof.
  intros acc m. unfold field_mapping.
  destruct (negb _ || negb _); [cbn; by rewrite app_nil_r|].
  destruct (js_split_dot _) as [tp|e]; [|done]. cbn [mbind result_bind].
  destruct (call_generate _ m) as [c|e]; [|done]. done.
Qed.

Lemma helper_mapping_pushes : pushes_only helper_mapping.
Proof.
  intros acc m. unfold helper_mapping.
  destruct (is_str _ _); [|apply field_mapping_pushes].
  cbn. unfold push. by rewrite <- !app_assoc.
Qed.

Lemma main_mapping_pushes : pushes_only main_mapping.
Proof.
  intros acc m. unfold main_mapping.
  destruct (is_str _ _); [|apply field_mapping_pushes].
  cbn. unfold push. by rewrite <- !app_assoc.
Qed.

Lemma helper_module_spec (acc : list str) (md : Module) :
  helper_module acc md =
  if is_helper md then l ← spec_subroutine md; Ok (acc ++ l) else Ok acc.
Proof.
  unfold helper_module, is_helper, is_main, spec_subroutine.
  destruct (str_eqb _ _); [done|]. destruct (length _ =? 0); [done|].
  cbn [orb negb andb]. unfold push.
  rewrite (forEach_pushes _ helper_mapping_pushes).
  destruct (forEach helper_mapping _ []) as [body|e]; [|done].
  cbn [mbind result_bind]. by rewrite <- !app_assoc.
Qed.

Lemma forEach_helper_module (acc : list str) (ms : list Module) :
  forEach helper_module ms acc =
  (subs ← mapM spec_subroutine (filter (fun md => is_helper md = true) ms);
   Ok (acc ++ concat subs)).
Proof.
  revert acc. induction ms as [|md ms IH]; intros acc.
  - cbn. by rewrite app_nil_r.
  - cbn [forEach]. rewrite helper_module_spec.
    destruct (is_helper md) eqn:E.
    + rewrite filter_cons_True by done. cbn [mapM].
      destruct (spec_subroutine md) as [l|e]; [|done].
      cbn [mbind result_bind]. rewrite IH.
      destruct (mapM _ _) as [subs|e]; [|done].
      cbn [mbind result_bind concat]. by rewrite app_assoc.
    + rewrite filter_cons_False by (by rewrite E). cbn [mbind result_bind].
      apply IH.
Qed.

Lemma generateLines_layout (ms : list Module) : generateLines ms = spec_layout ms.
Proof.
  unfold generateLines, spec_layout. rewrite forEach_helper_module.
  destruct (mapM _ _) as [subs|e]; [|done]. cbn [mbind result_bind].
  destruct (List.find is_main ms) as [mm|].
  - unfold spec_entry_point, push.
    rewrite (forEach_pushes _ main_mapping_pushes).
    destruct (forEach main_mapping _ []) as [body|e]; [|done].
    cbn [mbind result_bind]. f_equal. unfold spec_preamble.
    destruct (existsb _ ms); cbn; rewrite <- ?app_assoc; cbn;
      rewrite <- ?app_assoc; reflexivity.
  - f_equal. unfold spec_preamble, push.
    destruct (existsb _ ms); cbn; rewrite ?app_nil_r; reflexivity.
Qed.

Lemma find_app_none {A} (f : A -> bool) (l1 l2 : list A) :
  List.find f l1 = None -> List.find f (l1 ++ l2) = List.find f l2.
Proof.
  induction l1 as [|x l1 IH]; [done|]. simpl. destruct (f x); [done|]. apply IH.
Qed.

Lemma find_none_forallb {A} (f : A -> bool) (l : list A) :
  forallb (fun x => negb (f x)) l = true -> List.find f l = None.
Proof.
  induction l as [|x l IH]; [done|]. simpl. destruct (f x); [done|]. apply IH.
Qed.

Lemma filter_no_helper (l : list Module) :
  forallb is_main l = true -> filter (fun md => is_helper md = true) l = [].
Proof.
  induction l as [|x l IH]; [done|]. simpl. intros [H1 H2]%andb_true_iff.
  rewrite filter_cons_False; [by apply IH|]. unfold is_helper. by rewrite H1.
Qed.

(** C4. The lines [generateCode] joins are the header (and the import line
    when a mapping is of kind [regex]), then, in the order of the list, one
    sub-routine [def map_<name>(INPUT, OUTPUT):] for each module that is
    not named [main] and has at least one mapping, then the entry point
    [def transform(INPUT):] made of the first module named [main], which
    declares [OUTPUT = {}] and ends with [return OUTPUT]; generation throws
    exactly when one of those parts does. Where the module [main] stands in
    the list makes no difference: with it moved to the end the text is the
    same. *)
Theorem C4_layout :
  (forall ms : list Module, generateLines ms = spec_layout ms)
  /\ (forall ms : list Module,
        generateCode ms = (lines ← spec_layout ms; Ok (join nl lines)))
  /\ (forall (before after : list Module) (mainModule : Module),
        is_main mainModule = true ->
        forallb (fun md => negb (is_main md)) (before ++ after) = true ->
        generateCode (before ++ mainModule :: after)
        = generateCode (before ++ after ++ [mainModule])).
Proof.
  split; [apply generateLines_layout|]. split.
  - intros ms. unfold generateCode. by rewrite generateLines_layout.
  - intros before after mm Hmm Hno. unfold generateCode.
    rewrite !generateLines_layout. unfold spec_layout.
    rewrite forallb_app in Hno. apply andb_true_iff in Hno as [Hb Ha].
    rewrite !filter_app, filter_cons, (filter_cons _ mm [] ).
    assert (is_helper mm = false) as Hh by (unfold is_helper; by rewrite Hmm).
    rewrite !decide_False by (by rewrite Hh). rewrite filter_nil, app_nil_r.
    rewrite !find_app_none by (by apply find_none_forallb).
    cbn [List.find]. rewrite Hmm.
    assert (spec_preamble (before ++ mm :: after)
            = spec_preamble (before ++ after ++ [mm])) as ->; [|done].
    unfold spec_preamble. f_equal.
    rewrite !existsb_app. cbn [existsb].
    by destruct (existsb _ before), (existsb uses_regex (mappings mm)),
      (existsb _ after).
Qed.

Definition layout_sample : list Module :=
  [ main_of [call_of "helper"];
    mkModule (lit "m_3") (lit "empty") [];
    mkModule (lit "m_4") (lit "helper") [nested_abc] ].

Lemma C4_layout_witness :
  generateCode layout_sample
  = generateCode ([] ++ [mkModule (lit "m_3") (lit "empty") [];
                         mkModule (lit "m_4") (lit "helper") [nested_abc]]
                     ++ [main_of [call_of "helper"]])
  /\ generateLines layout_sample =
     Ok [ lit "#!/usr/bin/env python3"; lit "# GRIZZLY_TEMPLATE_V1"; triple_quote;
          lit "Generated by Grizzly"; triple_quote; [];
          lit "def map_helper(INPUT, OUTPUT):";
          lit "    " ++ triple_quote ++ lit "helper mappings" ++ triple_quote;
          assignment_line (lit "a.b.c") (lit "INPUT.src");
          [];
          lit "def transform(INPUT):";
          lit "    " ++ triple_quote ++ lit "Main transformation" ++ triple_quote;
          lit "    OUTPUT = {}"; lit "    ";
          lit "    # Call helper module"; lit "    map_helper(INPUT, OUTPUT)";
          lit "    "; lit "    "; lit "    return OUTPUT" ].
Proof.
  split.
  - apply (proj2 (proj2 C4_layout) [] _ (main_of [call_of "helper"]));
      by vm_compute.
  - rewrite (proj1 C4_layout). vm_compute. reflexivity.
Defined.

(** *** Determinism *)

(** Two mappings that differ at most in the identifier [uid()] gave them,
    and two models that differ at most in identifiers. *)
Definition same_fields (m m' : Mapping) : Prop :=
  forall f : string, f ≠ "id" -> get m f = get m' f.

Definition same_module (md md' : Module) : Prop :=
  name md = name md' /\ Forall2 same_fields (mappings md) (mappings md').

Lemma field_mapping_same (lines : list str) (m m' : Mapping) :
  same_fields m m' -> field_mapping lines m = field_mapping lines m'.
Proof.
  intros H. unfold field_mapping. rewrite !H by done.
  destruct (TRANSFORMATION_PLUGINS _) as [p| |]; [|done..].
  destruct p; unfold call_generate, generate, generate_direct,
    generate_conditional, generate_for_loop, generate_if_block,
    generate_datetime_parse, generate_datetime_format, generate_datetime_add,
    generate_decimal, decimal_binop, generate_regex;
    rewrite ?H by done; reflexivity.
Qed.

Lemma helper_mapping_same (lines : list str) (m m' : Mapping) :
  same_fields m m' -> helper_mapping lines m = helper_mapping lines m'.
Proof.
  intros H. unfold helper_mapping. rewrite !H by done.
  by rewrite (field_mapping_same lines m m').
Qed.

Lemma main_mapping_same (lines : list str) (m m' : Mapping) :
  same_fields m m' -> main_mapping lines m = main_mapping lines m'.
Proof.
  intros H. unfold main_mapping. rewrite !H by done.
  by rewrite (field_mapping_same lines m m').
Qed.

Lemma forEach_same {A} (R : A -> A -> Prop)
  (f : list str -> A -> result (list str)) (l l' : list A) :
  (forall acc x x', R x x' -> f acc x = f acc x') ->
  Forall2 R l l' -> forall acc, forEach f l acc = forEach f l' acc.
Proof.
  intros Hf HR. induction HR as [|x x' l l' Hx _ IH]; intros acc; [done|].
  simpl. rewrite (Hf acc x x' Hx). destruct (f acc x'); [|done]. apply IH.
Qed.

Lemma helper_module_same (lines : list str) (md md' : Module) :
  same_module md md' -> helper_module lines md = helper_module lines md'.
Proof.
  intros [Hn Hm]. unfold helper_module. rewrite Hn, (Forall2_length _ _ _ Hm).
  destruct (_ || _); [done|].
  by rewrite (forEach_same same_fields helper_mapping _ _ helper_mapping_same Hm).
Qed.

Lemma uses_regex_same (l l' : list Mapping) :
  Forall2 same_fields l l' -> existsb uses_regex l = existsb uses_regex l'.
Proof.
  induction 1 as [|m m' l l' H _ IH]; [done|]. simpl. rewrite IH.
  unfold uses_regex. by rewrite H.
Qed.

Lemma has_regex_same (ms ms' : list Module) :
  Forall2 same_module ms ms' ->
  existsb (fun m => existsb uses_regex (mappings m)) ms
  = existsb (fun m => existsb uses_regex (mappings m)) ms'.
Proof.
  induction 1 as [|m m' l l' [_ H] _ IH]; [done|]. simpl.
  by rewrite IH, (uses_regex_same _ _ H).
Qed.

Lemma find_main_same (ms ms' : list Module) :
  Forall2 same_module ms ms' ->
  match List.find is_main ms, List.find is_main ms' with
  | Some md, Some md' => same_module md md'
  | None, None => True
  | _, _ => False
  end.
Proof.
  induction 1 as [|m m' l l' H _ IH]; [done|]. simpl.
  assert (is_main m = is_main m') as -> by (unfold is_main; by rewrite (proj1 H)).
  destruct (is_main m'); [done|apply IH].
Qed.

Lemma generateCode_same (ms ms' : list Module) :
  Forall2 same_module ms ms' -> generateCode ms = generateCode ms'.
Proof.
  intros H. unfold generateCode, generateLines.
  rewrite (has_regex_same _ _ H).
  rewrite (forEach_same same_module helper_module ms ms' helper_module_same H).
  destruct (forEach helper_module ms' _) as [lines|e]; [|done].
  cbn [mbind result_bind]. pose proof (find_main_same _ _ H) as Hf.
  destruct (List.find is_main ms) as [mm|], (List.find is_main ms') as [mm'|];
    try done.
  destruct Hf as [_ Hm].
  by rewrite (forEach_same same_fields main_mapping _ _ main_mapping_same Hm).
Qed.

(** C8. The text [generateCode] returns is a function of the names of the
    modules and of the fields of their mappings other than [id]: on two
    models that differ at most in the identifiers that [uid()] drew from
    the clock and the random number generator, and so on the same model
    twice, it returns the same text (or throws the same error). *)
Theorem C8_deterministic (ms ms' : list Module) :
  Forall2 same_module ms ms' -> generateCode ms = generateCode ms'.
Proof. apply generateCode_same. Qed.

Definition other_ids : list Module :=
  [ mkModule (lit "m_1700000000000_k3x9q") (lit "main")
      [ <["id" := Str (lit "m_1700000000001_zz1ab")]> (call_of "helper") ];
    mkModule (lit "m_1700000000002_0p0p0") (lit "empty") [];
    mkModule (lit "m_1700000000003_abcde") (lit "helper")
      [ <["id" := Str (lit "m_1700000000004_qwert")]> nested_abc ] ].

Lemma C8_deterministic_witness :
  generateCode layout_sample = generateCode other_ids.
Proof.
  apply C8_deterministic. unfold layout_sample, other_ids, main_of.
  repeat apply Forall2_cons_2; try apply Forall2_nil_2;
    (split; [reflexivity|]);
    repeat apply Forall2_cons_2; try apply Forall2_nil_2;
    intros f Hf; symmetry; by apply get_insert_ne.
Defined.

(** ** The template parser and the template load *)

(** A line that opens a module: the entry point or a sub-routine. *)
Definition is_module_def (line : str) : bool :=
  matches re_main (trim line) || matches re_moduleDef (trim line).

Lemma matches_exec (r : regexp) (s : str) :
  matches r s = match exec r s with Some _ => true | None => false end.
Proof. reflexivity. Qed.

Section ParserFacts.

Variable uid : nat -> str.

Lemma parse_line_length (st : pstate) (line : str) :
  length (ps_modules (parse_line uid st line))
  = length (ps_modules st) + (if is_module_def line then 1 else 0).
Proof.
  unfold parse_line, is_module_def. rewrite (matches_exec re_moduleDef).
  destruct (matches re_main (trim line)).
  { simpl. rewrite length_app. simpl. lia. }
  destruct (exec re_moduleDef (trim line)).
  { simpl. rewrite length_app. simpl. lia. }
  simpl. destruct (_ && _); [simpl; lia|].
  destruct (currentModule st); [|lia].
  repeat match goal with
         | |- context [match exec ?r ?s with _ => _ end] =>
             destruct (exec r s)
         end; simpl; rewrite ?length_alter; lia.
Qed.

Lemma fold_parse_line_length (lines : list str) (st : pstate) :
  length (ps_modules (fold_left (parse_line uid) lines st))
  = length (ps_modules st) + length (filter (fun l => is_module_def l = true) lines).
Proof.
  revert st. induction lines as [|l lines IH]; intros st; [simpl; lia|].
  simpl. rewrite IH, parse_line_length. destruct (is_module_def l) eqn:E.
  - rewrite filter_cons_True by done. simpl. lia.
  - rewrite filter_cons_False by (by rewrite E). lia.
Qed.

(** Outside any module a line that opens none changes nothing. *)
Lemma parse_line_outside (st : pstate) (line : str) :
  currentModule st = None -> currentModuleName st = None ->
  is_module_def line = false -> parse_line uid st line = st.
Proof.
  intros H1 H2. unfold parse_line, is_module_def.
  rewrite (matches_exec re_moduleDef).
  destruct (matches re_main (trim line)); [done|].
  destruct (exec re_moduleDef (trim line)); [done|]. intros _.
  destruct (_ && _).
  - destruct st; simpl in *; by subst.
  - by rewrite H1.
Qed.

Lemma fold_parse_line_outside (lines : list str) (st : pstate) :
  currentModule st = None -> currentModuleName st = None ->
  forallb (fun l => negb (is_module_def l)) lines = true ->
  fold_left (parse_line uid) lines st = st.
Proof.
  intros H1 H2. induction lines as [|l lines IH]; [done|]. simpl.
  intros [Hl Hr]%andb_true_iff. apply negb_true_iff in Hl.
  rewrite parse_line_outside by done. by apply IH.
Qed.

Lemma filter_nil_forallb (lines : list str) :
  length (filter (fun l => is_module_def l = true) lines) = 0
  <-> forallb (fun l => negb (is_module_def l)) lines = true.
Proof.
  induction lines as [|l lines IH]; [done|]. simpl.
  destruct (is_module_def l) eqn:E.
  - rewrite filter_cons_True by done. simpl. split; [lia|done].
  - rewrite filter_cons_False by (by rewrite E). simpl. apply IH.
Qed.

Lemma parseTemplate_sentinel (n : nat) (text : str) :
  parsed_modules (parseTemplate uid n text) = None
  <-> forallb (fun l => negb (is_module_def l)) (split chr_nl text) = true.
Proof.
  unfold parseTemplate. cbn [parsed_modules].
  rewrite fold_parse_line_length. cbn [parse_init ps_modules length].
  rewrite <- filter_nil_forallb.
  destruct (filter _ _) as [|x l]; simpl; split; done.
Qed.

Lemma parseTemplate_sentinel_result (n : nat) (text : str) :
  parsed_modules (parseTemplate uid n text) = None ->
  parseTemplate uid n text
  = {| parsed_modules := None; totalMappings := 0; parsed_uids := n |}.
Proof.
  intros H. pose proof H as H'. apply parseTemplate_sentinel in H'.
  unfold parseTemplate in *.
  rewrite fold_parse_line_outside in * by done. done.
Qed.

Lemma parseTemplate_modules_nonempty (n : nat) (text : str) (ms : list Module) :
  parsed_modules (parseTemplate uid n text) = Some ms -> ms ≠ [].
Proof.
  unfold parseTemplate. cbn [parsed_modules].
  destruct (ps_modules _) as [|md l]; simpl; [done|]. by intros [= <-].
Qed.

End ParserFacts.

(** When the parser returns its sentinel: [modules] is [null] exactly when
    no line of the text opens a module, that is, when no trimmed line
    starts with [def transform(INPUT):] or with
    [def map_<name>(INPUT, OUTPUT):]; no mapping is recovered then, and
    the template-load handler leaves every piece of state as it was and
    only logs its message. The test of the parser is on the number of
    modules, where the message of the handler speaks of mappings. *)
Lemma sentinel_iff_no_module (uid : nat -> str) (text : str) (s : State) :
  let p := parseTemplate uid (uids s) text in
  (parsed_modules p = None
   <-> forallb (fun l => negb (is_module_def l)) (split chr_nl text) = true)
  /\ (parsed_modules p = None ->
      totalMappings p = 0
      /\ handleFile_template uid text s =
         {| modules := modules s;
            originalModules := originalModules s;
            activeModule := activeModule s;
            templateLoaded := templateLoaded s;
            templateInfo := templateInfo s;
            expandedRow := expandedRow s;
            console := console s ++ [lit "No mappings found in template file"];
            uids := uids s |}).
Proof.
  split; [apply parseTemplate_sentinel|]. intros H.
  unfold handleFile_template.
  rewrite (parseTemplate_sentinel_result uid _ _ H). done.
Qed.

Definition loaded_state : State :=
  {| modules := [main_of [nested_abc]]; activeModule := 0; expandedRow := None;
     templateLoaded := false; templateInfo := []; originalModules := None;
     console := []; uids := 2 |}.

Lemma sentinel_iff_no_module_witness :
  modules (handleFile_template uid_sample (lit "print(1)") loaded_state)
  = [main_of [nested_abc]].
Proof.
  destruct (sentinel_iff_no_module uid_sample (lit "print(1)") loaded_state)
    as [_ H].
  destruct H as [_ ->]; [by vm_compute|]. reflexivity.
Defined.

(** C2. The code at the text made of the one line [def transform(INPUT):],
    loaded over a model that holds a mapping: no mapping is recovered
    ([totalMappings] is 0), and yet the parser returns a list with the one
    module [main], without mapping, instead of its sentinel, and the
    handler replaces the loaded model with it, keeps a snapshot of it and
    marks the template as loaded, where its other branch would have logged
    that no mappings were found and changed nothing. *)
Theorem C2_module_line_alone_replaces_model :
  let text := lit "def transform(INPUT):" in
  let p := parseTemplate uid_sample (uids loaded_state) text in
  let s' := handleFile_template uid_sample text loaded_state in
  totalMappings p = 0
  /\ parsed_modules p = Some [mkModule (lit "m_2") (lit "main") []]
  /\ modules loaded_state = [main_of [nested_abc]]
  /\ modules s' = [mkModule (lit "m_2") (lit "main") []]
  /\ modules s' ≠ modules loaded_state
  /\ originalModules s' = Some [mkModule (lit "m_2") (lit "main") []]
  /\ templateLoaded s' = true
  /\ templateInfo s' = lit "0 mappings, 1 modules"
  /\ console s' ≠ console loaded_state ++ [lit "No mappings found in template file"].
Proof. vm_compute. repeat split; try reflexivity; discriminate. Qed.

(** ** The handlers and the list of modules *)

Section Invariant.

Variable uid : nat -> str.

(** One user action on the model: each handler, with any arguments; a
    click on a module tab selects one of the tabs shown. *)
Inductive step : State -> State -> Prop :=
  | step_addModule s :
      step s (addModule uid s)
  | step_updateModuleName s idx n s' :
      updateModuleName idx n s = Done s' -> step s s'
  | step_deleteModule s idx :
      step s (deleteModule idx s)
  | step_setActiveModule s idx :
      idx < length (modules s) -> step s (with_activeModule idx s)
  | step_addMapping s s' :
      addMapping uid s = Done s' -> step s s'
  | step_addModuleCall s s' :
      addModuleCall uid s = Done s' -> step s s'
  | step_updateMapping s idx updates s' :
      updateMapping idx updates s = Done s' -> step s s'
  | step_deleteMapping s idx s' :
      deleteMapping idx s = Done s' -> step s s'
  | step_template s content :
      step s (handleFile_template uid content s).

Inductive reachable : State -> Prop :=
  | reachable_initial : reachable (initial_state uid)
  | reachable_step s s' : reachable s -> step s s' -> reachable s'.

(** The list of modules is not empty and the active module is one of it. *)
Definition well_formed (s : State) : Prop :=
  modules s ≠ [] /\ activeModule s < length (modules s).

Lemma filter_out_length {A} (idx : nat) (l : list A) :
  length (filter_out idx l) = if idx <? length l then length l - 1 else length l.
Proof.
  revert idx. induction l as [|x l IH]; intros [|idx]; simpl; try done.
  - lia.
  - rewrite IH. destruct (Nat.ltb_spec idx (length l)).
    + rewrite (proj2 (Nat.ltb_lt (S idx) (S (length l)))) by lia. lia.
    + rewrite (proj2 (Nat.ltb_ge (S idx) (S (length l)))) by lia. lia.
Qed.

Lemma nonempty_length {A} (l : list A) : l ≠ [] <-> 0 < length l.
Proof. destruct l; simpl; split; try done; lia. Qed.

Lemma updateModuleMappings_wf (i : nat) (ms : list Mapping) (s s' : State) :
  well_formed s -> updateModuleMappings i ms s = Done s' ->
  well_formed s' /\ uids s' = uids s.
Proof.
  intros [H1 H2]. unfold updateModuleMappings.
  destruct (modules s !! i); [|done]. intros [= <-].
  unfold well_formed. simpl. rewrite !nonempty_length, length_insert in *. lia.
Qed.

Lemma then_wf (o : outcome) (f : State -> State) (s' : State) :
  (forall s, well_formed s -> well_formed (f s)) ->
  (forall s, o = Done s -> well_formed s) ->
  then_ o f = Done s' -> well_formed s'.
Proof.
  intros Hf Ho. destruct o as [s| |]; simpl; [|done..].
  intros [= <-]. apply Hf, Ho. done.
Qed.

Lemma step_well_formed (s s' : State) :
  well_formed s -> step s s' -> well_formed s'.
Proof.
  intros Hwf Hstep. pose proof Hwf as [Hne Hact].
  rewrite nonempty_length in Hne. unfold well_formed.
  destruct Hstep as [s|s idx n s' H|s idx|s idx H|s s' H|s s' H
                    |s idx updates s' H|s idx s' H|s content].
  - simpl. rewrite nonempty_length, length_app. simpl. lia.
  - unfold updateModuleName in H. destruct (modules s !! idx); [|done].
    destruct (str_eqb _ _); [by injection H as <-|].
    destruct (str_eqb _ _); [by injection H as <-|].
    injection H as <-. simpl. rewrite nonempty_length, length_imap. lia.
  - unfold deleteModule. destruct (Nat.eqb_spec (length (modules s)) 1); [done|].
    pose proof (filter_out_length idx (modules s)) as Hlen.
    destruct (_ <=? _) eqn:E; simpl; rewrite nonempty_length, Hlen;
      destruct (idx <? _); try apply Nat.leb_le in E;
      try apply Nat.leb_gt in E; rewrite ?Hlen in E; lia.
  - simpl. rewrite nonempty_length. lia.
  - unfold addMapping in H. apply then_wf in H; [done| |].
    + by intros ? [? ?].
    + intros s0 H0. by apply updateModuleMappings_wf in H0 as [? _].
  - unfold addModuleCall in H. apply then_wf in H; [done| |].
    + by intros ? [? ?].
    + intros s0 H0. by apply updateModuleMappings_wf in H0 as [? _].
  - unfold updateMapping in H. destruct (_ !! idx).
    + by apply updateModuleMappings_wf in H as [? _].
    + destruct (idx =? _); [|done].
      by apply updateModuleMappings_wf in H as [? _].
  - unfold deleteMapping in H. by apply updateModuleMappings_wf in H as [? _].
  - unfold handleFile_template.
    destruct (parsed_modules _) as [ms|] eqn:E; simpl.
    + apply parseTemplate_modules_nonempty in E.
      rewrite nonempty_length in *. lia.
    + rewrite nonempty_length. lia.
Qed.

Lemma reachable_well_formed (s : State) : reachable s -> well_formed s.
Proof.
  induction 1 as [|s s' _ IH Hstep].
  - split; simpl; [done|lia].
  - by apply (step_well_formed s).
Qed.

(** On a well-formed state the handlers of the active module never write
    past the end of the list of modules. *)
Lemma active_handlers_done (s : State) :
  well_formed s ->
  (exists s', addMapping uid s = Done s')
  /\ (exists s', addModuleCall uid s = Done s')
  /\ (forall idx, exists s', deleteMapping idx s = Done s')
  /\ (forall idx updates, idx <= length (active_mappings s) ->
        exists s', updateMapping idx updates s = Done s').
Proof.
  intros [_ Hact]. apply lookup_lt_is_Some_2 in Hact as [md Hmd].
  unfold addMapping, addModuleCall, deleteMapping, updateMapping,
    updateModuleMappings. rewrite Hmd. simpl.
  repeat split; eauto. intros idx updates Hidx.
  destruct (_ !! idx) eqn:E; [eauto|].
  apply lookup_ge_None_1 in E.
  rewrite (proj2 (Nat.eqb_eq idx _)) by lia. eauto.
Qed.

End Invariant.

(** C9. In every state the component can reach from its initial state by
    adding, renaming or deleting a module, selecting a module, adding,
    updating or deleting a mapping or a module call, or loading a template,
    the list of modules is not empty (and the active module is one of
    them). [deleteModule] changes nothing when one module is left, and a
    template load puts in place of the list either nothing or the
    non-empty list the parser returned. *)
Theorem C9_modules_never_empty (uid : nat -> str) :
  (forall s, reachable uid s ->
     modules s ≠ [] /\ activeModule s < length (modules s))
  /\ (forall s idx, length (modules s) = 1 -> deleteModule idx s = s)
  /\ (forall s content,
        match parsed_modules (parseTemplate uid (uids s) content) with
        | Some ms => ms ≠ [] /\ modules (handleFile_template uid content s) = ms
        | None => modules (handleFile_template uid content s) = modules s
        end).
Proof.
  split; [apply reachable_well_formed|]. split.
  - intros s idx H. unfold deleteModule. by rewrite H.
  - intros s content. unfold handleFile_template.
    destruct (parsed_modules _) as [ms|] eqn:E; simpl; [|done].
    split; [|done]. by apply parseTemplate_modules_nonempty in E.
Qed.

Lemma C9_modules_never_empty_witness :
  modules (deleteModule 0 (deleteModule 1 (addModule uid_sample
             (initial_state uid_sample)))) ≠ [].
Proof.
  apply (proj1 (C9_modules_never_empty uid_sample)).
  apply (reachable_step uid_sample _ _
           (reachable_step uid_sample _ _
              (reachable_step uid_sample _ _
                 (reachable_initial uid_sample)
                 (step_addModule uid_sample _))
              (step_deleteModule uid_sample _ 1))
           (step_deleteModule uid_sample _ 0)).
Defined.

(** ** The matcher on the shapes of line the generator writes *)

Section MatcherFacts.

Implicit Types (k : mstate -> option mstate) (st : mstate) (p : ascii -> bool).

(** Where a run of the class [p] has to stop. *)
Definition stops p (s : str) : bool :=
  match s with
  | [] => true
  | c :: _ => negb (p c)
  end.

Lemma ascii_eqb_refl (a : ascii) : ascii_eqb a a = true.
Proof. apply Ascii.eqb_refl. Qed.

Lemma ascii_eqb_eq (a b : ascii) : ascii_eqb a b = true <-> a = b.
Proof. apply Ascii.eqb_eq. Qed.

Lemma ascii_eqb_neq (a b : ascii) : ascii_eqb a b = false <-> a ≠ b.
Proof. apply Ascii.eqb_neq. Qed.

Lemma startsWith_app (l s : str) : startsWith l (l ++ s) = true.
Proof. induction l as [|a l IH]; [done|]. simpl. by rewrite ascii_eqb_refl. Qed.

Lemma rmatch_lit_app k (l s : str) (i : nat) (c : list (nat * str)) :
  rmatch (Lit l) k (MState i (l ++ s) c) = k (MState (i + length l) s c).
Proof.
  simpl. rewrite startsWith_app. unfold advance. simpl.
  by rewrite drop_app_length.
Qed.

Lemma rmatch_cls k p (a : ascii) (s : str) (i : nat) (c : list (nat * str)) :
  rmatch (Cls p) k (MState i (a :: s) c)
  = if p a then k (MState (i + 1) s c) else None.
Proof. reflexivity. Qed.

Lemma cls_stops k p (s : str) (i : nat) (c : list (nat * str)) :
  stops p s = true -> rmatch (Cls p) k (MState i s c) = None.
Proof.
  destruct s as [|a s]; [done|]. rewrite rmatch_cls. simpl. intros H.
  apply negb_true_iff in H. by rewrite H.
Qed.

Lemma star_loop_greedy body k (fuel : nat) st :
  star_loop body true k (S fuel) st
  = orelse (body (fun st' => if length (rest st') <? length (rest st)
                             then star_loop body true k fuel st' else None) st)
           (fun _ => k st).
Proof. reflexivity. Qed.

Lemma star_loop_lazy body k (fuel : nat) st :
  star_loop body false k (S fuel) st
  = orelse (k st)
      (fun _ => body (fun st' => if length (rest st') <? length (rest st)
                                 then star_loop body false k fuel st' else None) st).
Proof. reflexivity. Qed.

Lemma rmatch_plus k (g : bool) (r : regexp) st :
  rmatch (Plus g r) k st = rmatch r (rmatch (Star g r) k) st.
Proof. reflexivity. Qed.

Lemma rmatch_star k (g : bool) (r : regexp) st :
  rmatch (Star g r) k st = star_loop (rmatch r) g k (S (length (rest st))) st.
Proof. reflexivity. Qed.

(** One more iteration of a run, on a character of the class. *)
Lemma star_step k p (g : bool) (a : ascii) (s : str) (i fuel : nat)
  (c : list (nat * str)) :
  p a = true ->
  rmatch (Cls p)
    (fun st' => if length (rest st') <? length (a :: s)
                then star_loop (rmatch (Cls p)) g k fuel st' else None)
    (MState i (a :: s) c)
  = star_loop (rmatch (Cls p)) g k fuel (MState (i + 1) s c).
Proof.
  intros Ha. rewrite rmatch_cls, Ha. cbn [rest length].
  by rewrite (proj2 (Nat.ltb_lt _ _)) by lia.
Qed.

(** A greedy run takes all it can when the continuation accepts there. *)
Lemma star_greedy_exact k p (w s : str) (c : list (nat * str)) (r : mstate) :
  forallb p w = true -> stops p s = true ->
  forall (i fuel : nat),
    length (w ++ s) < fuel ->
    k (MState (i + length w) s c) = Some r ->
    star_loop (rmatch (Cls p)) true k fuel (MState i (w ++ s) c) = Some r.
Proof.
  intros Hw Hs. induction w as [|a w IH]; intros i fuel Hf Hk.
  - destruct fuel as [|fuel]; [simpl in Hf; lia|].
    rewrite star_loop_greedy. cbn [app]. rewrite cls_stops by done. simpl.
    by rewrite Nat.add_0_r in Hk.
  - destruct fuel as [|fuel]; [simpl in Hf; lia|].
    simpl in Hw. apply andb_true_iff in Hw as [Ha Hw].
    rewrite star_loop_greedy. cbn [app rest]. rewrite star_step by done.
    rewrite (IH Hw (i + 1) fuel); [done|simpl in Hf; lia|].
    by replace (i + 1 + length w) with (i + length (a :: w)) by (simpl; lia).
Qed.

Lemma plus_greedy_exact k p (w s : str) (c : list (nat * str)) (r : mstate)
  (i : nat) :
  w ≠ [] -> forallb p w = true -> stops p s = true ->
  k (MState (i + length w) s c) = Some r ->
  rmatch (Plus true (Cls p)) k (MState i (w ++ s) c) = Some r.
Proof.
  intros Hne Hw Hs Hk. destruct w as [|a w]; [done|].
  simpl in Hw. apply andb_true_iff in Hw as [Ha Hw].
  rewrite rmatch_plus. cbn [app]. rewrite rmatch_cls, Ha, rmatch_star.
  apply star_greedy_exact; [done|done|simpl; lia|].
  by replace (i + 1 + length w) with (i + length (a :: w)) by (simpl; lia).
Qed.

(** A greedy run fails when the continuation refuses every point of it. *)
Lemma star_greedy_fail k p (w s : str) (c : list (nat * str)) :
  forallb p w = true -> stops p s = true ->
  forall (i fuel : nat),
    (forall w1 w2, w = w1 ++ w2 -> k (MState (i + length w1) (w2 ++ s) c) = None) ->
    star_loop (rmatch (Cls p)) true k fuel (MState i (w ++ s) c) = None.
Proof.
  intros Hw Hs. induction w as [|a w IH]; intros i fuel Hk.
  - pose proof (Hk [] [] eq_refl) as H0. simpl in H0. rewrite Nat.add_0_r in H0.
    destruct fuel as [|fuel]; [done|].
    rewrite star_loop_greedy. cbn [app]. rewrite cls_stops by done. done.
  - pose proof (Hk [] (a :: w) eq_refl) as H0. simpl in H0.
    rewrite Nat.add_0_r in H0.
    destruct fuel as [|fuel]; [done|].
    simpl in Hw. apply andb_true_iff in Hw as [Ha Hw].
    rewrite star_loop_greedy. cbn [app rest]. rewrite star_step by done.
    rewrite (IH Hw (i + 1) fuel); [done|].
    intros w1 w2 ->. specialize (Hk (a :: w1) w2 eq_refl).
    by replace (i + 1 + length w1) with (i + length (a :: w1)) by (simpl; lia).
Qed.

Lemma plus_greedy_fail k p (w s : str) (c : list (nat * str)) (i : nat) :
  forallb p w = true -> stops p s = true ->
  (forall w1 w2, w = w1 ++ w2 -> w1 ≠ [] ->
     k (MState (i + length w1) (w2 ++ s) c) = None) ->
  rmatch (Plus true (Cls p)) k (MState i (w ++ s) c) = None.
Proof.
  intros Hw Hs Hk. destruct w as [|a w].
  - rewrite rmatch_plus. by apply cls_stops.
  - simpl in Hw. apply andb_true_iff in Hw as [Ha Hw].
    rewrite rmatch_plus. cbn [app]. rewrite rmatch_cls, Ha, rmatch_star.
    apply star_greedy_fail; [done|done|].
    intros w1 w2 ->. specialize (Hk (a :: w1) w2 eq_refl).
    replace (i + 1 + length w1) with (i + length (a :: w1)) by (simpl; lia).
    by apply Hk.
Qed.

(** A greedy run succeeds as soon as the continuation accepts somewhere. *)
Lemma star_greedy_complete k p (w s : str) (c : list (nat * str)) :
  forallb p w = true ->
  forall (i fuel : nat),
    length (w ++ s) < fuel ->
    is_Some (k (MState (i + length w) s c)) ->
    is_Some (star_loop (rmatch (Cls p)) true k fuel (MState i (w ++ s) c)).
Proof.
  intros Hw. induction w as [|a w IH]; intros i fuel Hf Hk.
  - destruct fuel as [|fuel]; [simpl in Hf; lia|].
    rewrite star_loop_greedy. rewrite Nat.add_0_r in Hk.
    destruct (rmatch (Cls p) _ _); [by eexists|done].
  - destruct fuel as [|fuel]; [simpl in Hf; lia|].
    simpl in Hw. apply andb_true_iff in Hw as [Ha Hw].
    rewrite star_loop_greedy. cbn [app rest]. rewrite star_step by done.
    destruct (IH Hw (i + 1) fuel) as [x ->]; [simpl in Hf; lia| |by eexists].
    by replace (i + 1 + length w) with (i + length (a :: w)) by (simpl; lia).
Qed.

Lemma plus_greedy_complete k p (w s : str) (c : list (nat * str)) (i : nat) :
  w ≠ [] -> forallb p w = true ->
  is_Some (k (MState (i + length w) s c)) ->
  is_Some (rmatch (Plus true (Cls p)) k (MState i (w ++ s) c)).
Proof.
  intros Hne Hw Hk. destruct w as [|a w]; [done|].
  simpl in Hw. apply andb_true_iff in Hw as [Ha Hw].
  rewrite rmatch_plus. cbn [app]. rewrite rmatch_cls, Ha, rmatch_star.
  apply star_greedy_complete; [done|simpl; lia|].
  by replace (i + 1 + length w) with (i + length (a :: w)) by (simpl; lia).
Qed.

(** A lazy run stops at the first point the continuation accepts. *)
Lemma star_lazy_exact k p (w s : str) (c : list (nat * str)) (r : mstate) :
  forallb p w = true ->
  forall (i fuel : nat),
    length (w ++ s) < fuel ->
    (forall w1 w2, w = w1 ++ w2 -> w2 ≠ [] ->
       k (MState (i + length w1) (w2 ++ s) c) = None) ->
    k (MState (i + length w) s c) = Some r ->
    star_loop (rmatch (Cls p)) false k fuel (MState i (w ++ s) c) = Some r.
Proof.
  intros Hw. induction w as [|a w IH]; intros i fuel Hf Hno Hk.
  - destruct fuel as [|fuel]; [simpl in Hf; lia|].
    rewrite star_loop_lazy. rewrite Nat.add_0_r in Hk. cbn [app].
    by rewrite Hk.
  - destruct fuel as [|fuel]; [simpl in Hf; lia|].
    simpl in Hw. apply andb_true_iff in Hw as [Ha Hw].
    pose proof (Hno [] (a :: w) eq_refl) as H0. simpl in H0.
    rewrite Nat.add_0_r in H0.
    rewrite star_loop_lazy. cbn [app]. rewrite H0 by done. cbn [orelse rest].
    rewrite star_step by done.
    apply IH; [done|simpl in Hf; lia| |].
    + intros w1 w2 -> Hw2. specialize (Hno (a :: w1) w2 eq_refl Hw2).
      by replace (i + 1 + length w1) with (i + length (a :: w1)) by (simpl; lia).
    + by replace (i + 1 + length w) with (i + length (a :: w)) by (simpl; lia).
Qed.

Lemma plus_lazy_exact k p (w s : str) (c : list (nat * str)) (r : mstate)
  (i : nat) :
  w ≠ [] -> forallb p w = true ->
  (forall w1 w2, w = w1 ++ w2 -> w1 ≠ [] -> w2 ≠ [] ->
     k (MState (i + length w1) (w2 ++ s) c) = None) ->
  k (MState (i + length w) s c) = Some r ->
  rmatch (Plus false (Cls p)) k (MState i (w ++ s) c) = Some r.
Proof.
  intros Hne Hw Hno Hk. destruct w as [|a w]; [done|].
  simpl in Hw. apply andb_true_iff in Hw as [Ha Hw].
  rewrite rmatch_plus. cbn [app]. rewrite rmatch_cls, Ha, rmatch_star.
  apply star_lazy_exact; [done|simpl; lia| |].
  - intros w1 w2 -> Hw2. specialize (Hno (a :: w1) w2 eq_refl).
    replace (i + 1 + length w1) with (i + length (a :: w1)) by (simpl; lia).
    by apply Hno.
  - by replace (i + 1 + length w) with (i + length (a :: w)) by (simpl; lia).
Qed.

(** *** Expressions that need a character the input does not have *)

(** Every match of [r] consumes the character [c]. *)
Fixpoint requires (c : ascii) (r : regexp) : bool :=
  match r with
  | Lit l => includes c l
  | Seq r1 r2 => requires c r1 || requires c r2
  | Alt r1 r2 => requires c r1 && requires c r2
  | Grp _ r' => requires c r'
  | Eps | Cls _ | Star _ _ | Opt _ | Bol | Eol => false
  end.

Lemma includes_app (c : ascii) (x y : str) :
  includes c (x ++ y) = includes c x || includes c y.
Proof. apply existsb_app. Qed.

Lemma includes_drop (c : ascii) (n : nat) (s : str) :
  includes c s = false -> includes c (drop n s) = false.
Proof.
  revert n. induction s as [|a s IH]; intros [|n]; simpl; try done.
  intros [_ H]%orb_false_iff. by apply IH.
Qed.

Lemma startsWith_includes (c : ascii) (l s : str) :
  startsWith l s = true -> includes c l = true -> includes c s = true.
Proof.
  revert s. induction l as [|a l IH]; intros [|b s]; simpl; try done.
  intros [Hab Hl]%andb_true_iff. apply ascii_eqb_eq in Hab as ->.
  intros [->|H]%orb_true_iff; [done|]. rewrite (IH s) by done.
  by rewrite orb_true_r.
Qed.

Lemma star_loop_none body k (g : bool) :
  (forall k' st, (forall st', k' st' = None) -> body k' st = None) ->
  (forall st, k st = None) ->
  forall fuel st, star_loop body g k fuel st = None.
Proof.
  intros Hb Hk fuel. induction fuel as [|fuel IH]; intros st; [apply Hk|].
  destruct g.
  - rewrite star_loop_greedy, Hb; [apply Hk|].
    intros st'. destruct (_ <? _); [apply IH|done].
  - rewrite star_loop_lazy, Hk. cbn [orelse]. apply Hb.
    intros st'. destruct (_ <? _); [apply IH|done].
Qed.

(** The continuation is never reached on an input without [c], or it
    fails there. *)
Lemma rmatch_requires (c : ascii) (r : regexp) :
  forall k st,
    includes c (rest st) = false ->
    requires c r = true
    \/ (forall st', includes c (rest st') = false -> k st' = None) ->
    rmatch r k st = None.
Proof.
  induction r as [|l|p|r1 IH1 r2 IH2|r1 IH1 r2 IH2|g r IH|r IH|n r IH| |];
    intros k st Hst Hor.
  - destruct Hor as [?|Hk]; [done|]. by apply Hk.
  - cbn [rmatch]. destruct (startsWith l (rest st)) eqn:E; [|done].
    destruct Hor as [Hl|Hk].
    + cbn [requires] in Hl. by rewrite (startsWith_includes c l _ E Hl) in Hst.
    + apply Hk. by apply includes_drop.
  - destruct Hor as [?|Hk]; [done|]. cbn [rmatch].
    destruct (rest st) as [|a s] eqn:E; [done|]. destruct (p a); [|done].
    apply Hk. cbn [advance rest]. rewrite E. by apply (includes_drop c 1).
  - cbn [rmatch]. apply IH1; [done|]. cbn [requires] in Hor.
    destruct (requires c r1); [by left|]. right. intros st' Hst'.
    apply IH2; [done|]. destruct Hor as [?|?]; [by left|by right].
  - cbn [rmatch]. cbn [requires] in Hor.
    rewrite IH1, IH2; [done|done| |done|].
    + destruct Hor as [[_ ?]%andb_true_iff|?]; [by left|by right].
    + destruct Hor as [[? _]%andb_true_iff|?]; [by left|by right].
  - destruct Hor as [?|Hk]; [done|]. rewrite rmatch_star.
    generalize (S (length (rest st))). intros fuel. revert st Hst.
    induction fuel as [|fuel IHf]; intros st Hst; [by apply Hk|].
    assert (rmatch r (fun st' => if length (rest st') <? length (rest st)
                                 then star_loop (rmatch r) g k fuel st'
                                 else None) st = None) as Hagain.
    { apply IH; [done|]. right. intros st' Hst'.
      destruct (_ <? _); [by apply IHf|done]. }
    destruct g.
    + rewrite star_loop_greedy, Hagain. by apply Hk.
    + rewrite star_loop_lazy, Hk by done. apply Hagain.
  - destruct Hor as [?|Hk]; [done|]. cbn [rmatch].
    rewrite IH, Hk; [done|done|done|by right].
  - cbn [rmatch]. apply IH; [done|]. cbn [requires] in Hor.
    destruct Hor as [?|Hk]; [by left|]. right. intros st' Hst'. by apply Hk.
  - destruct Hor as [?|Hk]; [done|]. cbn [rmatch].
    destruct (_ =? _); [by apply Hk|done].
  - destruct Hor as [?|Hk]; [done|]. cbn [rmatch].
    destruct (rest st) eqn:E; [|done]. apply Hk. by rewrite E.
Qed.

Lemma search_from_requires (c : ascii) (r : regexp) (s : str) (i : nat) :
  requires c r = true -> includes c s = false -> search_from r i s = None.
Proof.
  intros Hr. revert i. induction s as [|a s IH]; intros i Hs.
  - cbn [search_from].
    by rewrite (rmatch_requires c r Some (MState i [] []) Hs (or_introl Hr)).
  - cbn [search_from].
    rewrite (rmatch_requires c r Some (MState i (a :: s) []) Hs (or_introl Hr)).
    simpl in Hs. apply orb_false_iff in Hs as [_ Hs]. by apply IH.
Qed.

Lemma exec_requires (c : ascii) (r : regexp) (s : str) :
  requires c r = true -> includes c s = false -> exec r s = None.
Proof. intros. unfold exec. by rewrite (search_from_requires c). Qed.

(** *** Anchored expressions *)

Lemma search_from_bol (r : regexp) (s : str) (i : nat) :
  search_from (Seq Bol r) (S i) s = None.
Proof. revert i. induction s as [|a s IH]; intros i; simpl; [done|apply IH]. Qed.

Lemma exec_bol (r : regexp) (s : str) :
  exec (Seq Bol r) s = rmatch r Some (MState 0 s []).
Proof.
  unfold exec. destruct s as [|a s]; cbn [search_from rmatch pos Nat.eqb].
  - by destruct (rmatch r Some _).
  - destruct (rmatch r Some _); [done|]. by rewrite search_from_bol.
Qed.

(** *** Captures *)

(** The groups of an expression. *)
Fixpoint groups (r : regexp) : list nat :=
  match r with
  | Seq r1 r2 | Alt r1 r2 => groups r1 ++ groups r2
  | Star _ r' | Opt r' => groups r'
  | Grp n r' => n :: groups r'
  | Eps | Lit _ | Cls _ | Bol | Eol => []
  end.

(** The groups outside [G] hold in [st'] what they held in [st]. *)
Definition keeps (G : list nat) st st' : Prop :=
  forall n, n ∉ G -> cap n st' = cap n st.

Lemma keeps_refl G st : keeps G st st.
Proof. by intros n _. Qed.

Lemma keeps_trans G st1 st2 st3 :
  keeps G st1 st2 -> keeps G st2 st3 -> keeps G st1 st3.
Proof. intros H1 H2 n Hn. by rewrite H2, H1. Qed.

Lemma keeps_mono G G' st st' :
  (forall n, n ∈ G -> n ∈ G') -> keeps G st st' -> keeps G' st st'.
Proof. intros HG H n Hn. apply H. intros ?. apply Hn. by apply HG. Qed.

(** A result of the match is a result of the continuation, reached with
    the other groups untouched. *)
Lemma rmatch_result (r : regexp) :
  forall k st res,
    rmatch r k st = Some res ->
    exists st', k st' = Some res /\ keeps (groups r) st st'.
Proof.
  induction r as [|l|p|r1 IH1 r2 IH2|r1 IH1 r2 IH2|g r IH|r IH|n r IH| |];
    intros k st res H.
  - exists st. split; [done|apply keeps_refl].
  - cbn [rmatch] in H. destruct (startsWith _ _); [|done].
    eexists. split; [done|]. by intros n _.
  - cbn [rmatch] in H. destruct (rest st); [done|]. destruct (p _); [|done].
    eexists. split; [done|]. by intros n _.
  - cbn [rmatch] in H. apply IH1 in H as (st1 & H & K1).
    apply IH2 in H as (st2 & H & K2). exists st2. split; [done|].
    cbn [groups]. eapply keeps_trans.
    + eapply keeps_mono; [|apply K1]. set_solver.
    + eapply keeps_mono; [|apply K2]. set_solver.
  - cbn [rmatch] in H. destruct (rmatch r1 k st) eqn:E; cbn [orelse] in H.
    + injection H as ->. apply IH1 in E as (st1 & H & K1). exists st1.
      split; [done|]. eapply keeps_mono; [|apply K1]. cbn [groups]. set_solver.
    + apply IH2 in H as (st1 & H & K1). exists st1.
      split; [done|]. eapply keeps_mono; [|apply K1]. cbn [groups]. set_solver.
  - rewrite rmatch_star in H. revert H. cbn [groups].
    generalize (S (length (rest st))). intros fuel. revert st res.
    induction fuel as [|fuel IHf]; intros st res H.
    { exists st. split; [done|apply keeps_refl]. }
    assert (forall res',
      rmatch r (fun st' => if length (rest st') <? length (rest st)
                           then star_loop (rmatch r) g k fuel st'
                           else None) st = Some res' ->
      exists st', k st' = Some res' /\ keeps (groups r) st st') as Hagain.
    { intros res' E. apply IH in E as (st1 & E & K1).
      destruct (_ <? _); [|done]. apply IHf in E as (st2 & E & K2).
      exists st2. split; [done|]. by eapply keeps_trans. }
    destruct g.
    + rewrite star_loop_greedy in H. destruct (rmatch r _ st) eqn:E.
      * cbn [orelse] in H. injection H as ->. by apply Hagain.
      * exists st. split; [done|apply keeps_refl].
    + rewrite star_loop_lazy in H. destruct (k st) eqn:E.
      * cbn [orelse] in H. injection H as ->. exists st.
        split; [done|apply keeps_refl].
      * by apply Hagain.
  - cbn [rmatch] in H. destruct (rmatch r k st) eqn:E; cbn [orelse] in H.
    + injection H as ->. by apply IH in E.
    + exists st. split; [done|apply keeps_refl].
  - cbn [rmatch] in H. apply IH in H as (st1 & H & K1). eexists.
    split; [exact H|]. intros m Hm. cbn [groups] in Hm.
    unfold cap, set_cap. cbn [caps cap_lookup].
    destruct (Nat.eqb_spec m n) as [->|Hne]; [set_solver|].
    apply K1. set_solver.
  - cbn [rmatch] in H. destruct (_ =? _); [|done].
    exists st. split; [done|apply keeps_refl].
  - cbn [rmatch] in H. destruct (rest st); [|done].
    exists st. split; [done|apply keeps_refl].
Qed.

(** *** Searching *)

Lemma search_from_here (r : regexp) (i : nat) (s : str) (st : mstate) :
  rmatch r Some (MState i s []) = Some st -> search_from r i s = Some (i, st).
Proof. intros H. destruct s; simpl; by rewrite H. Qed.

Lemma search_from_next (r : regexp) (i : nat) (a : ascii) (s : str) :
  rmatch r Some (MState i (a :: s) []) = None ->
  search_from r i (a :: s) = search_from r (S i) s.
Proof. intros H. cbn [search_from]. by rewrite H. Qed.

Lemma exec_here (r : regexp) (s : str) (st : mstate) :
  rmatch r Some (MState 0 s []) = Some st -> exec r s = Some st.
Proof. intros H. unfold exec. by rewrite (search_from_here r 0 s st H). Qed.

Lemma rmatch_lit_head k (x a : ascii) (l s : str) (i : nat)
  (c : list (nat * str)) :
  x ≠ a -> rmatch (Lit (x :: l)) k (MState i (a :: s) c) = None.
Proof.
  intros H. cbn [rmatch rest startsWith].
  by rewrite (proj2 (ascii_eqb_neq x a) H).
Qed.

Lemma rmatch_lit_nil k (x : ascii) (l : str) (i : nat) (c : list (nat * str)) :
  rmatch (Lit (x :: l)) k (MState i [] c) = None.
Proof. reflexivity. Qed.

(** *** Characters and identifiers *)

(** An identifier: [\w+]. *)
Definition word (s : str) : bool :=
  match s with
  | [] => false
  | _ :: _ => forallb is_word s
  end.

Lemma is_word_facts (a : ascii) :
  is_word a = true ->
  not_quote a = true /\ is_space a = false /\ is_dot a = false
  /\ any_char a = true /\ ascii_eqb a chr_nl = false
  /\ ascii_eqb "["%char a = false /\ ascii_eqb "("%char a = false
  /\ ascii_eqb ":"%char a = false.
Proof.
  destruct a as [[] [] [] [] [] [] [] []]; vm_compute; intros H;
    try discriminate H; repeat split.
Qed.

Lemma forallb_mono (p q : ascii -> bool) (s : str) :
  (forall a, p a = true -> q a = true) -> forallb p s = true -> forallb q s = true.
Proof.
  intros H. induction s as [|a s IH]; [done|]. simpl.
  intros [Ha Hs]%andb_true_iff. by rewrite (H a Ha), IH.
Qed.

Lemma word_forallb (s : str) : word s = true -> forallb is_word s = true.
Proof. by destruct s. Qed.

Lemma word_nonempty (s : str) : word s = true -> s ≠ [].
Proof. by destruct s. Qed.

Lemma words_not_quote (s : str) :
  forallb is_word s = true -> forallb not_quote s = true.
Proof. apply forallb_mono. intros a H. by apply is_word_facts in H as (?&_). Qed.

Lemma words_any_char (s : str) :
  forallb is_word s = true -> forallb any_char s = true.
Proof.
  apply forallb_mono. intros a H. by apply is_word_facts in H as (_&_&_&?&_).
Qed.

Lemma words_source (s : str) :
  forallb is_word s = true ->
  forallb (fun c => negb (is_space c || is_dot c)) s = true.
Proof.
  apply forallb_mono. intros a H. apply is_word_facts in H as (_&H1&H2&_).
  by rewrite H1, H2.
Qed.

Lemma excludes_forallb (c : ascii) (p : ascii -> bool) (s : str) :
  p c = false -> forallb p s = true -> includes c s = false.
Proof.
  intros Hc. induction s as [|a s IH]; [done|]. simpl.
  intros [Ha Hs]%andb_true_iff. rewrite (IH Hs), orb_false_r.
  apply ascii_eqb_neq. intros ->. congruence.
Qed.

Lemma stops_word_not (p : ascii -> bool) (s tl : str) :
  (forall a, is_word a = true -> p a = false) ->
  word s = true -> stops p (s ++ tl) = true.
Proof.
  intros Hp. destruct s as [|a s]; [done|]. simpl.
  intros [Ha _]%andb_true_iff. by rewrite (Hp a Ha).
Qed.

(** *** Lines *)

Lemma trimStart_stops (s : str) : stops is_space s = true -> trimStart s = s.
Proof.
  destruct s as [|a s]; [done|]. simpl. intros H.
  apply negb_true_iff in H. by rewrite H.
Qed.

Lemma trim_tight (s : str) :
  stops is_space s = true -> stops is_space (rev s) = true -> trim s = s.
Proof.
  intros H1 H2. unfold trim, trimEnd.
  by rewrite (trimStart_stops s H1), (trimStart_stops _ H2), rev_involutive.
Qed.

Lemma trim_indent (s : str) :
  stops is_space s = true -> stops is_space (rev s) = true ->
  trim (lit "    " ++ s) = s.
Proof.
  intros H1 H2. unfold trim. change (trimStart (lit "    " ++ s)) with (trimStart s).
  rewrite (trimStart_stops s H1). unfold trimEnd.
  by rewrite (trimStart_stops _ H2), rev_involutive.
Qed.

Lemma stops_rev_app (x y : str) :
  y ≠ [] -> stops is_space (rev y) = true -> stops is_space (rev (x ++ y)) = true.
Proof.
  intros Hy H. rewrite rev_app_distr. destruct (rev y) as [|z l] eqn:E; [|done].
  apply (f_equal (@rev ascii)) in E. rewrite rev_involutive in E. done.
Qed.

Lemma stops_rev_word (s : str) :
  forallb is_word s = true -> stops is_space (rev s) = true.
Proof.
  intros H. destruct (rev s) as [|z l] eqn:E; [done|]. simpl.
  assert (In z s) as Hin by (apply in_rev; rewrite E; by left).
  rewrite forallb_forall in H.
  apply H, is_word_facts in Hin as (_&->&_). done.
Qed.

Lemma split_no_sep (c : ascii) (s : str) :
  includes c s = false -> split c s = [s].
Proof.
  induction s as [|a s IH]; [done|]. simpl.
  intros [Ha Hs]%orb_false_iff. unfold ascii_eqb in *.
  rewrite Ascii.eqb_sym, Ha, (IH Hs). done.
Qed.

Lemma split_app_sep (c : ascii) (x y : str) :
  includes c x = false -> split c (x ++ c :: y) = x :: split c y.
Proof.
  induction x as [|a x IH]; simpl.
  - by rewrite ascii_eqb_refl.
  - intros [Ha Hs]%orb_false_iff. unfold ascii_eqb in *.
    rewrite Ascii.eqb_sym, Ha, (IH Hs). done.
Qed.

(** Splitting at the newlines what was joined with newlines gives the
    lines back. *)
Lemma split_join (lines : list str) :
  lines ≠ [] -> Forall (fun l => includes chr_nl l = false) lines ->
  split chr_nl (join nl lines) = lines.
Proof.
  intros Hne H. induction H as [|l lines Hl _ IH]; [done|].
  destruct lines as [|l' lines].
  - simpl. by apply split_no_sep.
  - change (join nl (l :: l' :: lines))
      with (l ++ chr_nl :: join nl (l' :: lines)).
    rewrite split_app_sep by done. by rewrite IH.
Qed.

Lemma join_split (c : ascii) (s : str) : join [c] (split c s) = s.
Proof.
  induction s as [|a s IH]; [done|]. simpl.
  destruct (Ascii.eqb_spec a c) as [->|Hne]; unfold ascii_eqb.
  - rewrite Ascii.eqb_refl. cbn [join]. destruct (split c s) eqn:E.
    + by apply split_nonempty in E.
    + by rewrite IH.
  - rewrite (proj2 (Ascii.eqb_neq a c) Hne).
    destruct (split c s) as [|x [|y l]] eqn:E.
    + by apply split_nonempty in E.
    + simpl in *. by rewrite IH.
    + cbn [join] in *. by rewrite <- IH.
Qed.

(** *** Steps of a match *)

Lemma rmatch_seq k (r1 r2 : regexp) st :
  rmatch (Seq r1 r2) k st = rmatch r1 (rmatch r2 k) st.
Proof. reflexivity. Qed.

Lemma rmatch_grp k (n : nat) (r : regexp) (i : nat) (s : str)
  (c : list (nat * str)) :
  rmatch (Grp n r) k (MState i s c)
  = rmatch r (fun st' => k (MState (pos st') (rest st')
                              ((n, take (length s - length (rest st')) s) :: caps st')))
      (MState i s c).
Proof. reflexivity. Qed.

Lemma rmatch_lit_exact k (l : str) (i : nat) (c : list (nat * str)) :
  rmatch (Lit l) k (MState i l c) = k (MState (i + length l) [] c).
Proof. rewrite <- (app_nil_r l) at 2. apply rmatch_lit_app. Qed.

Lemma rmatch_opt_skip k (r : regexp) st :
  rmatch r k st = None -> rmatch (Opt r) k st = k st.
Proof. intros H. cbn [rmatch]. by rewrite H. Qed.

Lemma rmatch_opt_take k (r : regexp) st (x : mstate) :
  rmatch r k st = Some x -> rmatch (Opt r) k st = Some x.
Proof. intros H. cbn [rmatch]. by rewrite H. Qed.

Lemma take_app_diff (w s : str) : take (length (w ++ s) - length s) (w ++ s) = w.
Proof.
  rewrite length_app.
  replace (length w + length s - length s) with (length w) by lia.
  by rewrite take_app_length.
Qed.

Lemma take_diff_nil (w : str) : take (length w - 0) w = w.
Proof. rewrite Nat.sub_0_r. apply firstn_all. Qed.

(** The blank between the parts of an assignment. *)
Lemma star_one_space k (s : str) (i : nat) (c : list (nat * str)) (r : mstate) :
  stops is_space s = true ->
  k (MState (i + 1) s c) = Some r ->
  rmatch (Star true (Cls is_space)) k (MState i (lit " " ++ s) c) = Some r.
Proof.
  intros Hs Hk. rewrite rmatch_star.
  apply (star_greedy_exact k is_space (lit " "));
    [reflexivity|done|cbn [rest]; lia|exact Hk].
Qed.

End MatcherFacts.

Ltac rm_beta := cbn beta; cbn [pos rest caps]; rewrite ?take_app_diff.

(** ** The lines of a generated text, parsed *)

(** The statements the generator writes, without their indentation. *)
Definition call_line (callee : str) : str :=
  lit "map_" ++ callee ++ lit "(INPUT, OUTPUT)".

Definition comment_line (callee : str) : str :=
  lit "# Call " ++ callee ++ lit " module".

Definition docstring_line (n : str) : str :=
  triple_quote ++ n ++ lit " mappings" ++ triple_quote.

Definition def_line (n : str) : str :=
  lit "def map_" ++ n ++ lit "(INPUT, OUTPUT):".

(** The method call that renders one of the three built-in transforms, and
    the transforms rendered that way or not at all. *)
Definition method_suffix (tr : jsval) : str :=
  if is_str tr "upper" then lit "." ++ lit "upper" ++ lit "()"
  else if is_str tr "lower" then lit "." ++ lit "lower" ++ lit "()"
  else if is_str tr "capitalize" then lit "." ++ lit "capitalize" ++ lit "()"
  else [].

Definition suffix_transform (tr : jsval) : bool :=
  strict_eq tr Null || is_str tr "upper" || is_str tr "lower"
  || is_str tr "capitalize".

Definition simple_line (tg src : str) (tr : jsval) : str :=
  (lit "OUTPUT[" ++ dq) ++ tg ++ (dq ++ lit "]") ++ lit " " ++ lit "="
    ++ lit " " ++ lit "INPUT." ++ src ++ method_suffix tr.

Section LineFacts.

Lemma suffix_transform_cases (tr : jsval) :
  suffix_transform tr = true ->
  tr = Null \/ tr = Str (lit "upper") \/ tr = Str (lit "lower")
  \/ tr = Str (lit "capitalize").
Proof.
  unfold suffix_transform, is_str, strict_eq.
  rewrite !orb_true_iff, !bool_decide_eq_true. tauto.
Qed.

Lemma exec_call_line (callee : str) :
  word callee = true ->
  exists mt, exec re_moduleCall (call_line callee) = Some mt
             /\ group 1 mt = Str callee.
Proof.
  intros HX. eexists. split.
  - unfold re_moduleCall. cbn [seq]. rewrite exec_bol.
    unfold call_line. rewrite rmatch_seq, rmatch_lit_app.
    rewrite rmatch_seq, rmatch_grp.
    apply plus_greedy_exact;
      [by apply word_nonempty|by apply word_forallb|done|].
    rm_beta. rewrite rmatch_lit_exact. reflexivity.
  - reflexivity.
Qed.

Lemma method_match_name k (n : str) (i : nat) (c : list (nat * str))
  (r : mstate) :
  word n = true ->
  k (MState (i + length (lit "." ++ n ++ lit "()")) [] ((3, n) :: c)) = Some r ->
  rmatch re_method k (MState i (lit "." ++ n ++ lit "()") c) = Some r.
Proof.
  intros Hn Hk. unfold re_method. apply rmatch_opt_take. cbn [seq].
  rewrite rmatch_seq, rmatch_lit_app, rmatch_seq, rmatch_grp.
  apply plus_greedy_exact;
    [by apply word_nonempty|by apply word_forallb|done|].
  rm_beta. rewrite rmatch_lit_exact.
  rewrite !length_app, !Nat.add_assoc in Hk. exact Hk.
Qed.

Definition method_caps (tr : jsval) : list (nat * str) :=
  match tr with
  | Str n => [(3, n)]
  | _ => []
  end.

Lemma method_match k (tr : jsval) (i : nat) (c : list (nat * str))
  (r : mstate) :
  suffix_transform tr = true ->
  k (MState (i + length (method_suffix tr)) [] (method_caps tr ++ c)) = Some r ->
  rmatch re_method k (MState i (method_suffix tr) c) = Some r.
Proof.
  intros [->|[->|[->| ->]]]%suffix_transform_cases Hk.
  - unfold re_method. rewrite rmatch_opt_skip; [|reflexivity].
    cbn in Hk. by rewrite Nat.add_0_r in Hk.
  - by apply (method_match_name k (lit "upper")).
  - by apply (method_match_name k (lit "lower")).
  - by apply (method_match_name k (lit "capitalize")).
Qed.

Lemma method_caps_group (tr : jsval) (i : nat) (c : list (nat * str)) :
  suffix_transform tr = true -> cap_lookup 3 c = None ->
  jsor (group 3 (MState i [] (method_caps tr ++ c))) Null = tr.
Proof.
  intros [->|[->|[->| ->]]]%suffix_transform_cases Hc; unfold group, cap;
    cbn [caps method_caps app cap_lookup Nat.eqb]; rewrite ?Hc; reflexivity.
Qed.

Lemma stops_method_suffix (p : ascii -> bool) (tr : jsval) :
  p "."%char = false -> stops p (method_suffix tr) = true.
Proof.
  intros Hp. unfold method_suffix.
  repeat destruct (is_str _ _); unfold lit; cbn; by rewrite ?Hp.
Qed.

Lemma exec_simple_line (tg src : str) (tr : jsval) :
  word tg = true -> word src = true -> suffix_transform tr = true ->
  exists mt, exec re_simple (simple_line tg src tr) = Some mt
    /\ group 1 mt = Str tg /\ group 2 mt = Str src
    /\ jsor (group 3 mt) Null = tr.
Proof.
  intros Ht Hs Htr.
  assert (exists j, rmatch re_simple Some (MState 0 (simple_line tg src tr) [])
            = Some (MState j [] (method_caps tr ++ [(2, src); (1, tg)])))
    as [j Hj].
  { unfold re_simple, simple_line. cbn [seq]. eexists.
    rewrite rmatch_seq, rmatch_lit_app, rmatch_seq, rmatch_grp.
    apply plus_greedy_exact;
      [by apply word_nonempty|by apply words_not_quote, word_forallb|done|].
    rm_beta. rewrite rmatch_seq, rmatch_lit_app, rmatch_seq.
    apply star_one_space; [done|].
    rewrite rmatch_seq, rmatch_lit_app, rmatch_seq.
    apply star_one_space; [done|].
    rewrite rmatch_seq, rmatch_lit_app, rmatch_seq, rmatch_grp.
    apply plus_greedy_exact;
      [by apply word_nonempty|by apply words_source, word_forallb
      |by apply stops_method_suffix|].
    rm_beta. apply method_match; [done|]. reflexivity. }
  eexists. split; [by apply exec_here|].
  split; [|split].
  - destruct tr as [| | |n]; reflexivity.
  - destruct tr as [| | |n]; reflexivity.
  - by apply method_caps_group.
Qed.

(** *** Assignments to a nested target *)

Definition assign_tail (src : str) (tr : jsval) : str :=
  lit " " ++ lit "=" ++ lit " " ++ lit "INPUT." ++ src ++ method_suffix tr.

Definition nested_line (segs : list str) (src : str) (tr : jsval) : str :=
  lit "OUTPUT" ++ concat (map bracket segs) ++ assign_tail src tr.

Definition word_or_dot (c : ascii) : bool := is_word c || is_dot c.

(** [bracket p] as the text the expressions of the parser cut it into. *)
Lemma bracket_parts (p : str) (tl : str) :
  bracket p ++ tl = (lit "[" ++ dq) ++ p ++ (dq ++ lit "]") ++ tl.
Proof. unfold bracket. by rewrite <- !app_assoc. Qed.

Lemma bracket_length (p : str) : length (bracket p) = length p + 4.
Proof. unfold bracket, lit, dq. rewrite !length_app. simpl. lia. Qed.

(** A literal that starts with identifier characters and then a character
    that is not one does not start at a point inside an identifier that is
    followed by another such character. *)
Lemma startsWith_word_run (l1 l2 w y : str) (x q : ascii) :
  forallb is_word l1 = true -> is_word x = false ->
  forallb is_word w = true -> is_word q = false -> x ≠ q ->
  startsWith (l1 ++ x :: l2) (w ++ q :: y) = false.
Proof.
  intros Hl1 Hx Hw Hq Hxq. revert w Hw.
  induction l1 as [|b l1 IH]; intros [|a w] Hw; cbn [app startsWith].
  - by rewrite (proj2 (ascii_eqb_neq x q)).
  - simpl in Hw. apply andb_true_iff in Hw as [Ha _].
    rewrite (proj2 (ascii_eqb_neq x a)); [done|]. intros ->. congruence.
  - simpl in Hl1. apply andb_true_iff in Hl1 as [Hb _].
    rewrite (proj2 (ascii_eqb_neq b q)); [done|]. intros ->. congruence.
  - simpl in Hl1, Hw. apply andb_true_iff in Hl1 as [_ Hl1].
    apply andb_true_iff in Hw as [_ Hw]. rewrite (IH Hl1 w Hw).
    apply andb_false_r.
Qed.

Lemma search_word_run (r : regexp) (l1 l2 w y : str) (x q : ascii) (i : nat) :
  forallb is_word l1 = true -> is_word x = false ->
  forallb is_word w = true -> is_word q = false -> x ≠ q ->
  search_from (Seq (Lit (l1 ++ x :: l2)) r) i (w ++ q :: y)
  = search_from (Seq (Lit (l1 ++ x :: l2)) r) (i + length w) (q :: y).
Proof.
  intros Hl1 Hx Hw Hq Hxq. revert i. induction w as [|a w IH]; intros i.
  - cbn. by rewrite Nat.add_0_r.
  - cbn [app]. rewrite search_from_next.
    + simpl in Hw. apply andb_true_iff in Hw as [_ Hw]. rewrite (IH Hw).
      f_equal. simpl. lia.
    + pose proof (startsWith_word_run l1 l2 (a :: w) y x q Hl1 Hx Hw Hq Hxq) as E.
      cbn [app] in E. rewrite rmatch_seq. cbn [rmatch rest]. by rewrite E.
Qed.

Lemma search_skip (r : regexp) (x : ascii) (l : str) (i : nat) (a : ascii)
  (s : str) :
  x ≠ a ->
  search_from (Seq (Lit (x :: l)) r) i (a :: s)
  = search_from (Seq (Lit (x :: l)) r) (S i) s.
Proof. intros H. apply search_from_next. rewrite rmatch_seq. by apply rmatch_lit_head. Qed.

(** The expression of the single-level assignment finds nothing in a chain
    of bracketed keys, whatever follows. *)
Lemma search_simple_brackets (segs : list str) (tl : str) :
  Forall (fun p => word p = true) segs ->
  (forall j, search_from re_simple j tl = None) ->
  forall i, search_from re_simple i (concat (map bracket segs) ++ tl) = None.
Proof.
  intros Hsegs Htl. induction Hsegs as [|p segs Hp _ IH]; intros i; [apply Htl|].
  cbn [map concat]. rewrite <- app_assoc. unfold bracket at 1.
  rewrite <- !app_assoc. unfold re_simple. cbn [seq].
  change (lit "OUTPUT[" ++ dq) with (lit "OUTPUT" ++ "["%char :: dq).
  change (lit "[" ++ dq ++ p ++ dq ++ lit "]" ++ concat (map bracket segs) ++ tl)
    with ("["%char :: chr_quote :: p ++ chr_quote :: "]"%char
            :: concat (map bracket segs) ++ tl).
  change (lit "OUTPUT") with ("O"%char :: lit "UTPUT"). cbn [app].
  rewrite search_skip by done. rewrite search_skip by done.
  change ("O"%char :: lit "UTPUT" ++ "["%char :: dq)
    with (lit "OUTPUT" ++ "["%char :: dq).
  rewrite search_word_run; [|done|done|by apply word_forallb|done|done].
  change (lit "OUTPUT") with ("O"%char :: lit "UTPUT"). cbn [app].
  rewrite search_skip by done. rewrite search_skip by done.
  apply IH.
Qed.

Lemma includes_method_suffix (c : ascii) (tr : jsval) :
  is_word c = false -> c ≠ "."%char -> c ≠ "("%char -> c ≠ ")"%char ->
  includes c (method_suffix tr) = false.
Proof.
  intros Hw H1 H2 H3. unfold method_suffix.
  repeat destruct (is_str _ _);
    rewrite ?includes_app; unfold lit; cbn;
    rewrite ?(proj2 (ascii_eqb_neq c _) H1), ?(proj2 (ascii_eqb_neq c _) H2),
      ?(proj2 (ascii_eqb_neq c _) H3); cbn; try done;
    repeat match goal with
           | |- context [ascii_eqb c ?a] =>
               rewrite (proj2 (ascii_eqb_neq c a))
                 by (intros ->; vm_compute in Hw; discriminate Hw)
           end; done.
Qed.

Lemma includes_assign_tail (src : str) (tr : jsval) :
  forallb word_or_dot src = true ->
  includes "["%char (assign_tail src tr) = false.
Proof.
  intros Hs. unfold assign_tail. rewrite !includes_app.
  rewrite (excludes_forallb _ word_or_dot src) by done.
  by rewrite includes_method_suffix.
Qed.

Lemma star_none_here k (p : ascii -> bool) (s : str) (i : nat)
  (c : list (nat * str)) :
  stops p s = true -> k (MState i s c) = None ->
  rmatch (Star true (Cls p)) k (MState i s c) = None.
Proof.
  intros Hs Hk. rewrite rmatch_star.
  apply (star_greedy_fail k p [] s c); [done|done|].
  intros [|? ?] [|? ?]; try done. intros _. cbn [length app].
  by rewrite Nat.add_0_r.
Qed.

Lemma bracket_cons (p tl : str) :
  bracket p ++ tl = "["%char :: dq ++ p ++ dq ++ lit "]" ++ tl.
Proof. unfold bracket. by rewrite <- !app_assoc. Qed.

(** What follows the first key of a single-level assignment. *)
Definition re_simple_rest : regexp :=
  seq [Lit (dq ++ lit "]");
       Star true (Cls is_space); Lit (lit "="); Star true (Cls is_space);
       Lit (lit "INPUT.");
       Grp 2 (Plus true (Cls (fun c => negb (is_space c || is_dot c))));
       re_method].

Lemma re_simple_unfold :
  re_simple = Seq (Lit (lit "OUTPUT[" ++ dq))
                (Seq (Grp 1 (Plus true (Cls not_quote))) re_simple_rest).
Proof. reflexivity. Qed.

Lemma simple_rest_inside (a : ascii) (s : str) (i : nat) (c : list (nat * str)) :
  not_quote a = true ->
  rmatch re_simple_rest Some (MState i (a :: s) c) = None.
Proof.
  intros Ha. unfold re_simple_rest. cbn [seq]. rewrite rmatch_seq.
  unfold dq. apply rmatch_lit_head. intros <-. done.
Qed.

Lemma simple_rest_bracket (p tl : str) (i : nat) (c : list (nat * str)) :
  rmatch re_simple_rest Some (MState i ((dq ++ lit "]") ++ bracket p ++ tl) c)
  = None.
Proof.
  unfold re_simple_rest. cbn [seq].
  rewrite rmatch_seq, rmatch_lit_app, rmatch_seq, bracket_cons.
  apply star_none_here; [done|]. rewrite rmatch_seq. by apply rmatch_lit_head.
Qed.

Lemma exec_simple_nested_line (p1 p2 : str) (segs : list str) (src : str)
  (tr : jsval) :
  Forall (fun p => word p = true) (p1 :: p2 :: segs) ->
  forallb word_or_dot src = true ->
  exec re_simple (nested_line (p1 :: p2 :: segs) src tr) = None.
Proof.
  intros Hsegs Hsrc. unfold exec.
  assert (forall j tl, includes "["%char tl = false ->
            search_from re_simple j tl = None) as Hnone.
  { intros j tl H. by apply (search_from_requires "["%char). }
  assert (forall i, search_from re_simple i
            (concat (map bracket (p1 :: p2 :: segs)) ++ assign_tail src tr) = None)
    as Hrest.
  { apply search_simple_brackets; [done|]. intros j. apply Hnone.
    by apply includes_assign_tail. }
  assert (search_from re_simple 0 (nested_line (p1 :: p2 :: segs) src tr) = None)
    as ->; [|done].
  unfold nested_line. change (lit "OUTPUT") with ("O"%char :: lit "UTPUT").
  cbn [app]. rewrite search_from_next.
  - unfold re_simple. cbn [seq].
    change (lit "UTPUT") with
      ["U"%char; "T"%char; "P"%char; "U"%char; "T"%char].
    cbn [app]. change (lit "OUTPUT[" ++ dq) with ("O"%char :: lit "UTPUT[" ++ dq).
    do 5 (rewrite search_skip by done).
    change ("O"%char :: lit "UTPUT[" ++ dq) with (lit "OUTPUT[" ++ dq).
    apply Hrest.
  - inversion Hsegs as [|? ? Hp1 Hsegs']; subst.
    cbn [map concat]. rewrite <- !app_assoc.
    change ("O"%char :: lit "UTPUT" ++ bracket p1 ++ bracket p2
              ++ concat (map bracket segs) ++ assign_tail src tr)
      with (lit "OUTPUT" ++ bracket p1 ++ bracket p2
              ++ concat (map bracket segs) ++ assign_tail src tr).
    rewrite (bracket_parts p1). rewrite (app_assoc (lit "OUTPUT")).
    change (lit "OUTPUT" ++ lit "[" ++ dq) with (lit "OUTPUT[" ++ dq).
    rewrite re_simple_unfold.
    rewrite rmatch_seq, rmatch_lit_app, rmatch_seq, rmatch_grp.
    apply plus_greedy_fail;
      [by apply words_not_quote, word_forallb|done|].
    intros w1 w2 -> Hw1. cbn beta. cbn [pos rest caps].
    destruct w2 as [|a w2].
    + cbn [app]. apply simple_rest_bracket.
    + cbn [app]. apply simple_rest_inside.
      apply word_forallb, words_not_quote in Hp1. rewrite forallb_app in Hp1.
      apply andb_true_iff in Hp1 as [_ Hp1]. simpl in Hp1.
      by apply andb_true_iff in Hp1 as [Ha _].
Qed.

(** *** The expression of the nested assignment *)

(** One bracketed key. *)
Definition re_key : regexp :=
  seq [Lit (lit "[" ++ dq); Plus true (Cls not_quote); Lit (dq ++ lit "]")].

Definition re_nested_rest : regexp :=
  seq [Star true (Cls is_space); Lit (lit "="); Star true (Cls is_space);
       Lit (lit "INPUT.");
       Grp 2 (Plus false (Cls (fun c => is_word c || is_dot c)));
       re_method; Eol].

Lemma re_nested_unfold :
  re_nested = Seq (Lit (lit "OUTPUT"))
                (Seq (Plus true (Grp 1 re_key)) re_nested_rest).
Proof. reflexivity. Qed.

Lemma rmatch_lit_stops k (x : ascii) (l s : str) (i : nat)
  (c : list (nat * str)) :
  stops (ascii_eqb x) s = true -> rmatch (Lit (x :: l)) k (MState i s c) = None.
Proof.
  destruct s as [|a s]; [done|]. cbn [stops]. intros H.
  apply rmatch_lit_head. apply negb_true_iff, ascii_eqb_neq in H. done.
Qed.

Lemma key_match k (p tl : str) (i : nat) (c : list (nat * str)) (r : mstate) :
  word p = true ->
  k (MState (i + length (bracket p)) tl ((1, bracket p) :: c)) = Some r ->
  rmatch (Grp 1 re_key) k (MState i (bracket p ++ tl) c) = Some r.
Proof.
  intros Hp Hk. rewrite rmatch_grp. unfold re_key. cbn [seq].
  rewrite bracket_parts, rmatch_seq, rmatch_lit_app, rmatch_seq.
  apply plus_greedy_exact;
    [by apply word_nonempty|by apply words_not_quote, word_forallb|done|].
  rewrite rmatch_lit_app. rm_beta. rewrite <- bracket_parts, take_app_diff.
  rewrite bracket_length in Hk.
  match goal with
  | |- k (MState ?e _ _) = _ =>
      replace e with (i + (length p + 4)) by (unfold lit, dq; simpl; lia)
  end.
  exact Hk.
Qed.

(** The captures the chain of keys leaves: the latest first. *)
Definition key_caps (segs : list str) : list (nat * str) :=
  rev (map (fun p => (1, bracket p)) segs).

Lemma keys_star k (tl : str) (r : mstate) (segs : list str) :
  Forall (fun p => word p = true) segs ->
  stops (ascii_eqb "["%char) tl = true ->
  forall (i fuel : nat) (c : list (nat * str)),
    length (concat (map bracket segs) ++ tl) < fuel ->
    k (MState (i + length (concat (map bracket segs))) tl (key_caps segs ++ c))
    = Some r ->
    star_loop (rmatch (Grp 1 re_key)) true k fuel
      (MState i (concat (map bracket segs) ++ tl) c) = Some r.
Proof.
  intros Hsegs Htl. induction Hsegs as [|p segs Hp _ IH]; intros i fuel c Hf Hk.
  - destruct fuel as [|fuel]; [simpl in Hf; lia|].
    rewrite star_loop_greedy. cbn [map concat app length] in *.
    rewrite Nat.add_0_r in Hk. rewrite rmatch_grp. unfold re_key. cbn [seq].
    rewrite rmatch_seq.
    change (lit "[" ++ dq) with ("["%char :: dq).
    rewrite rmatch_lit_stops by done. exact Hk.
  - destruct fuel as [|fuel]; [simpl in Hf; lia|].
    rewrite star_loop_greedy. cbn [map concat]. rewrite <- app_assoc.
    rewrite (key_match _ p _ i c r); [done|done|].
    cbn [rest]. rewrite (proj2 (Nat.ltb_lt _ _)).
    2:{ rewrite (length_app (bracket p)), bracket_length. lia. }
    apply IH.
    + cbn [map concat] in Hf. rewrite <- app_assoc, length_app, bracket_length in Hf.
      lia.
    + unfold key_caps in *. cbn [map rev concat] in Hk.
      rewrite <- app_assoc in Hk. cbn [app] in Hk.
      rewrite length_app, Nat.add_assoc in Hk. exact Hk.
Qed.

Lemma word_span (s : str) :
  exists u v, s = u ++ v /\ forallb is_word u = true /\ stops is_word v = true.
Proof.
  induction s as [|a s (u & v & -> & Hu & Hv)].
  - by exists [], [].
  - destruct (is_word a) eqn:E.
    + exists (a :: u), v. simpl. by rewrite E, Hu.
    + exists [], (a :: u ++ v). simpl. by rewrite E.
Qed.

Lemma stops_paren (x : str) (tr : jsval) :
  forallb word_or_dot x = true ->
  stops (ascii_eqb "("%char) (x ++ method_suffix tr) = true.
Proof.
  destruct x as [|a x]; [intros _; by apply stops_method_suffix|].
  cbn [app stops forallb]. intros [Ha _]%andb_true_iff.
  apply negb_true_iff, ascii_eqb_neq. intros <-. done.
Qed.

(** Inside the source the optional method call and the end of the line
    both fail. *)
Lemma method_eol_inside (w2 : str) (tr : jsval) (i : nat) (c : list (nat * str)) :
  w2 ≠ [] -> forallb word_or_dot w2 = true ->
  rmatch re_method (rmatch Eol Some) (MState i (w2 ++ method_suffix tr) c) = None.
Proof.
  intros Hne Hw. destruct w2 as [|a w2]; [done|]. clear Hne.
  unfold re_method. rewrite rmatch_opt_skip; [done|]. cbn [seq].
  rewrite rmatch_seq. change (lit ".") with ["."%char].
  destruct (Ascii.eqb_spec "."%char a) as [<-|Hne]; [|by apply rmatch_lit_head].
  change (("."%char :: w2) ++ method_suffix tr)
    with (["."%char] ++ w2 ++ method_suffix tr).
  rewrite rmatch_lit_app, rmatch_seq, rmatch_grp.
  simpl in Hw. destruct (word_span w2) as (u & v & -> & Hu & Hv).
  rewrite <- app_assoc. apply plus_greedy_fail; [done| |].
  - destruct v as [|b v]; [|done]. by apply stops_method_suffix.
  - intros w1 w2 -> Hw1. cbn beta. cbn [rest pos caps].
    change (lit "()") with ["("%char; ")"%char].
    apply rmatch_lit_stops. rewrite app_assoc. apply stops_paren.
    rewrite <- app_assoc, !forallb_app in Hw. rewrite forallb_app.
    by apply andb_true_iff in Hw as [_ ->].
Qed.

Lemma rmatch_star_one_space k (s : str) (i : nat) (c : list (nat * str))
  (r : mstate) :
  stops is_space s = true ->
  k (MState (i + 1) s c) = Some r ->
  rmatch (Star true (Cls is_space)) k (MState i (lit " " ++ s) c) = Some r.
Proof. apply star_one_space. Qed.

Lemma key_caps_lookup (n : nat) (segs : list str) :
  n ≠ 1 -> cap_lookup n (key_caps segs) = None.
Proof.
  intros Hn. unfold key_caps.
  induction segs as [|p segs IH] using rev_ind; [done|].
  rewrite map_app, rev_app_distr. cbn [map rev app cap_lookup].
  by rewrite (proj2 (Nat.eqb_neq n 1)).
Qed.

Lemma exec_nested_line (segs : list str) (src : str) (tr : jsval) :
  segs ≠ [] -> Forall (fun p => word p = true) segs ->
  src ≠ [] -> forallb word_or_dot src = true -> suffix_transform tr = true ->
  exists mt, exec re_nested (nested_line segs src tr) = Some mt
    /\ group 2 mt = Str src /\ jsor (group 3 mt) Null = tr.
Proof.
  intros Hne Hsegs Hsne Hsrc Htr.
  assert (exists j, rmatch re_nested Some (MState 0 (nested_line segs src tr) [])
            = Some (MState j [] (method_caps tr ++ (2, src) :: key_caps segs)))
    as [j Hj].
  { rewrite re_nested_unfold. unfold nested_line.
    destruct Hsegs as [|p segs Hp Hsegs]; [done|]. eexists.
    rewrite rmatch_seq, rmatch_lit_app, rmatch_seq, rmatch_plus.
    cbn [map concat]. rewrite <- app_assoc.
    apply key_match; [done|]. rewrite rmatch_star.
    apply keys_star; [done|done|cbn [rest]; lia|].
    unfold re_nested_rest, assign_tail. cbn [seq].
    rewrite rmatch_seq. apply star_one_space; [done|].
    rewrite rmatch_seq, rmatch_lit_app, rmatch_seq.
    apply star_one_space; [done|].
    rewrite rmatch_seq, rmatch_lit_app, rmatch_seq, rmatch_grp.
    apply plus_lazy_exact; [done|done| |].
    - intros w1 w2 -> Hw1 Hw2. cbn beta. cbn [rest pos caps].
      rewrite rmatch_seq. apply method_eol_inside; [done|].
      rewrite forallb_app in Hsrc. by apply andb_true_iff in Hsrc as [_ ->].
    - rm_beta. rewrite rmatch_seq. apply method_match; [done|].
      cbn [rmatch rest]. unfold key_caps. cbn [map rev]. reflexivity. }
  eexists. split; [by apply exec_here|]. split.
  - unfold group, cap. cbn [caps].
    destruct tr as [| | |n]; cbn [method_caps app cap_lookup Nat.eqb]; reflexivity.
  - apply method_caps_group; [done|]. cbn [cap_lookup Nat.eqb].
    by apply key_caps_lookup.
Qed.

(** *** The keys of a nested target, collected *)

Lemma pathPart_match (p tl : str) (i : nat) :
  word p = true ->
  rmatch re_pathPart Some (MState i (bracket p ++ tl) [])
  = Some (MState (i + length (bracket p)) tl [(1, p)]).
Proof.
  intros Hp. unfold re_pathPart. cbn [seq].
  rewrite bracket_parts, rmatch_seq, rmatch_lit_app, rmatch_seq, rmatch_grp.
  apply plus_greedy_exact;
    [by apply word_nonempty|by apply words_not_quote, word_forallb|done|].
  rm_beta. rewrite rmatch_lit_app. do 2 f_equal.
  rewrite bracket_length. unfold lit, dq. simpl. lia.
Qed.

Definition found (ms : list (str * mstate) * str) : list (option str) :=
  map (fun m => cap 1 (snd m)) (fst ms).

Lemma scan_keys (segs : list str) (tl : str) :
  Forall (fun p => word p = true) segs -> includes "["%char tl = false ->
  forall (i fuel : nat),
    length segs < fuel ->
    found (scan fuel re_pathPart i (concat (map bracket segs) ++ tl))
    = map Some segs.
Proof.
  intros Hsegs Htl. induction Hsegs as [|p segs Hp _ IH]; intros i fuel Hf.
  - destruct fuel as [|fuel]; [simpl in Hf; lia|]. cbn [map concat app scan].
    by rewrite (search_from_requires "["%char).
  - destruct fuel as [|fuel]; [simpl in Hf; lia|].
    cbn [map concat scan]. rewrite <- app_assoc.
    rewrite (search_from_here _ _ _ _ (pathPart_match p _ i Hp)).
    cbn [pos rest]. rewrite (proj2 (Nat.eqb_neq _ _)).
    2:{ rewrite bracket_length. lia. }
    specialize (IH (i + length (bracket p)) fuel).
    destruct (scan fuel re_pathPart _ _) as [ms tl'].
    rewrite <- IH by (simpl in Hf; lia). reflexivity.
Qed.

Lemma scan_skip (r : regexp) (a : ascii) (s : str) (i fuel : nat) :
  rmatch r Some (MState i (a :: s) []) = None ->
  found (scan fuel r i (a :: s)) = found (scan fuel r (S i) s).
Proof.
  intros H. destruct fuel as [|fuel]; [done|]. cbn [scan].
  rewrite (search_from_next r i a s H).
  destruct (search_from r (S i) s) as [[j st]|]; [|done].
  destruct (pos st =? j).
  - destruct (rest st) as [|c s']; [done|].
    destruct (scan fuel r (S j) s') as [[|[sk st'] ms] tl']; done.
  - by destruct (scan fuel r (pos st) (rest st)).
Qed.

Lemma keys_length (segs : list str) :
  length segs <= length (concat (map bracket segs)).
Proof.
  induction segs as [|p segs IH]; [done|]. cbn [map concat length].
  rewrite length_app, bracket_length. lia.
Qed.

Lemma matchAll_nested_line (segs : list str) (src : str) (tr : jsval) :
  Forall (fun p => word p = true) segs -> forallb word_or_dot src = true ->
  matchAll_group re_pathPart 1 (nested_line segs src tr) = map Some segs.
Proof.
  intros Hsegs Hsrc. unfold matchAll_group.
  change (map _ (fst ?x)) with (found x).
  generalize (eq_refl (S (length (nested_line segs src tr)))).
  generalize (S (length (nested_line segs src tr))) at 1 3. intros fuel Hfuel.
  unfold nested_line in *.
  change (lit "OUTPUT") with
    ["O"%char; "U"%char; "T"%char; "P"%char; "U"%char; "T"%char] in *.
  cbn [app] in *.
  do 6 (rewrite scan_skip;
        [|unfold re_pathPart; cbn [seq]; rewrite rmatch_seq;
          change (lit "[" ++ dq) with ("["%char :: dq);
          by apply rmatch_lit_head]).
  apply scan_keys; [done|by apply includes_assign_tail|].
  pose proof (keys_length segs). subst fuel. cbn [length].
  rewrite length_app. lia.
Qed.

(** *** Conditional assignments *)

(** The right-hand side of a conditional, from the rendered branches. *)
Definition cond_code (thenCode f op v elseCode : str) : str :=
  thenCode ++ lit " if INPUT." ++ f ++ lit " " ++ op ++ (lit " " ++ dq) ++ v
    ++ (dq ++ lit " else ") ++ elseCode.

(** An assignment to a single key of whatever starts with a double quote. *)
Definition quoted_line (tg x : str) : str :=
  (lit "OUTPUT[" ++ dq) ++ tg ++ (dq ++ lit "]") ++ lit " " ++ lit "="
    ++ lit " " ++ dq ++ x.

(** A character of a literal: no line terminator, no opening bracket. *)
Definition lit_char (c : ascii) : bool :=
  any_char c && negb (ascii_eqb "["%char c).

Lemma star_space_fail k (s : str) (i : nat) (c : list (nat * str)) :
  stops is_space s = true ->
  k (MState i (lit " " ++ s) c) = None -> k (MState (i + 1) s c) = None ->
  rmatch (Star true (Cls is_space)) k (MState i (lit " " ++ s) c) = None.
Proof.
  intros Hs H0 H1. rewrite rmatch_star.
  apply (star_greedy_fail k is_space (lit " ")); [done|done|].
  intros w1 w2 Heq. destruct w1 as [|a w1].
  - cbn [app] in Heq. subst w2. cbn [length]. by rewrite Nat.add_0_r.
  - injection Heq as _ Heq. symmetry in Heq.
    apply app_eq_nil in Heq as [-> ->]. exact H1.
Qed.

Lemma input_after_blanks (r : regexp) (x : str) (i : nat) (c : list (nat * str)) :
  rmatch (seq [Star true (Cls is_space); Lit (lit "="); Star true (Cls is_space);
               Lit (lit "INPUT."); r]) Some
    (MState i (lit " " ++ lit "=" ++ lit " " ++ dq ++ x) c) = None.
Proof.
  cbn [seq]. rewrite rmatch_seq. apply star_space_fail; [done| |].
  - rewrite rmatch_seq. by apply rmatch_lit_head.
  - rewrite rmatch_seq, rmatch_lit_app, rmatch_seq.
    apply star_space_fail; [done| |]; rewrite rmatch_seq;
      by apply rmatch_lit_head.
Qed.

Lemma simple_rest_quoted (x : str) (i : nat) (c : list (nat * str)) :
  rmatch re_simple_rest Some
    (MState i ((dq ++ lit "]") ++ lit " " ++ lit "=" ++ lit " " ++ dq ++ x) c)
  = None.
Proof.
  unfold re_simple_rest. cbn [seq]. rewrite rmatch_seq, rmatch_lit_app.
  apply (input_after_blanks
           (seq [Grp 2 (Plus true (Cls (fun c => negb (is_space c || is_dot c))));
                 re_method])).
Qed.

Lemma nested_rest_quoted (x : str) (i : nat) (c : list (nat * str)) :
  rmatch re_nested_rest Some
    (MState i (lit " " ++ lit "=" ++ lit " " ++ dq ++ x) c) = None.
Proof.
  unfold re_nested_rest.
  apply (input_after_blanks
           (seq [Grp 2 (Plus false (Cls (fun c => is_word c || is_dot c)));
                 re_method; Eol])).
Qed.

Lemma includes_quoted_tail (tg x : str) :
  word tg = true -> includes "["%char x = false ->
  includes "["%char
    (dq ++ tg ++ (dq ++ lit "]") ++ lit " " ++ lit "=" ++ lit " " ++ dq ++ x)
  = false.
Proof.
  intros Ht Hx. rewrite !includes_app, Hx.
  rewrite (excludes_forallb "["%char is_word tg eq_refl (word_forallb _ Ht)).
  reflexivity.
Qed.

(** After the first character, the line holds one opening bracket, not
    preceded by the word the two assignment expressions start with. *)
Lemma search_after_head (r : regexp) (l tg x : str) :
  requires "["%char (Seq (Lit ("O"%char :: l)) r) = true ->
  word tg = true -> includes "["%char x = false ->
  search_from (Seq (Lit ("O"%char :: l)) r) 1
    (lit "UTPUT[" ++ dq ++ tg ++ (dq ++ lit "]") ++ lit " " ++ lit "="
       ++ lit " " ++ dq ++ x) = None.
Proof.
  intros Hr Ht Hx.
  change (lit "UTPUT[") with
    ["U"%char; "T"%char; "P"%char; "U"%char; "T"%char; "["%char].
  cbn [app]. do 6 (rewrite search_skip by done).
  apply (search_from_requires "["%char); [done|].
  by apply includes_quoted_tail.
Qed.

Lemma exec_simple_quoted_line (tg x : str) :
  word tg = true -> includes "["%char x = false ->
  exec re_simple (quoted_line tg x) = None.
Proof.
  intros Ht Hx.
  assert (search_from re_simple 0 (quoted_line tg x) = None) as H;
    [|unfold exec; by rewrite H].
  unfold quoted_line.
  change (lit "OUTPUT[" ++ dq) with ("O"%char :: lit "UTPUT[" ++ dq) at 1.
  cbn [app]. rewrite search_from_next.
  - rewrite <- app_assoc. rewrite re_simple_unfold.
    change (lit "OUTPUT[" ++ dq) with ("O"%char :: lit "UTPUT[" ++ dq).
    by apply search_after_head.
  - change ("O"%char :: (lit "UTPUT[" ++ dq) ++ ?y)
      with ((lit "OUTPUT[" ++ dq) ++ y).
    rewrite re_simple_unfold, rmatch_seq, rmatch_lit_app, rmatch_seq, rmatch_grp.
    apply plus_greedy_fail;
      [by apply words_not_quote, word_forallb|done|].
    intros w1 w2 -> Hw1. cbn beta. cbn [pos rest caps].
    destruct w2 as [|a w2].
    + cbn [app]. apply simple_rest_quoted.
    + cbn [app]. apply simple_rest_inside.
      apply word_forallb, words_not_quote in Ht. rewrite forallb_app in Ht.
      apply andb_true_iff in Ht as [_ Ht]. simpl in Ht.
      by apply andb_true_iff in Ht as [Ha _].
Qed.

Lemma key_plus_fail k (p tl : str) (i : nat) (c : list (nat * str)) :
  word p = true -> stops (ascii_eqb "["%char) tl = true ->
  (forall j c', k (MState j tl c') = None) ->
  rmatch (Plus true (Grp 1 re_key)) k (MState i (bracket p ++ tl) c) = None.
Proof.
  intros Hp Htl Hk. rewrite rmatch_plus, rmatch_grp. unfold re_key. cbn [seq].
  rewrite bracket_parts, rmatch_seq, rmatch_lit_app, rmatch_seq.
  apply plus_greedy_fail;
    [by apply words_not_quote, word_forallb|done|].
  intros w1 w2 -> Hw1. destruct w2 as [|a w2].
  - cbn [app]. rewrite rmatch_lit_app. cbn beta. cbn [pos rest caps].
    rewrite rmatch_star. destruct tl as [|b tl].
    + rewrite star_loop_greedy, rmatch_grp. cbn [seq]. rewrite rmatch_seq.
      change (lit "[" ++ dq) with ("["%char :: dq).
      rewrite rmatch_lit_nil. apply Hk.
    + rewrite star_loop_greedy, rmatch_grp. cbn [seq]. rewrite rmatch_seq.
      change (lit "[" ++ dq) with ("["%char :: dq).
      rewrite rmatch_lit_stops by done. apply Hk.
  - cbn [app]. unfold dq at 1. apply rmatch_lit_head.
    apply word_forallb, words_not_quote in Hp. rewrite forallb_app in Hp.
    apply andb_true_iff in Hp as [_ Hp]. simpl in Hp.
    apply andb_true_iff in Hp as [Ha _]. intros <-. done.
Qed.

Lemma exec_nested_quoted_line (tg x : str) :
  word tg = true -> includes "["%char x = false ->
  exec re_nested (quoted_line tg x) = None.
Proof.
  intros Ht Hx.
  assert (search_from re_nested 0 (quoted_line tg x) = None) as H;
    [|unfold exec; by rewrite H].
  unfold quoted_line.
  change (lit "OUTPUT[" ++ dq) with ("O"%char :: lit "UTPUT[" ++ dq) at 1.
  cbn [app]. rewrite search_from_next.
  - rewrite <- app_assoc. rewrite re_nested_unfold.
    change (lit "OUTPUT") with ("O"%char :: lit "UTPUT").
    by apply search_after_head.
  - change ("O"%char :: (lit "UTPUT[" ++ dq) ++ tg ++ (dq ++ lit "]") ++ ?y)
      with (lit "OUTPUT" ++ (lit "[" ++ dq) ++ tg ++ (dq ++ lit "]") ++ y).
    rewrite <- bracket_parts.
    rewrite re_nested_unfold, rmatch_seq, rmatch_lit_app, rmatch_seq.
    apply key_plus_fail; [done|done|]. intros j c'. apply nested_rest_quoted.
Qed.

Definition re_ops : regexp :=
  Alt (Lit (lit "==")) (Alt (Lit (lit "!=")) (Alt (Lit (lit ">")) (Lit (lit "<")))).

Definition re_cond_rest : regexp :=
  seq [Lit (dq ++ lit "]");
       Star true (Cls is_space); Lit (lit "="); Star true (Cls is_space);
       Grp 2 (Plus true (Cls any_char)); Lit (lit " if INPUT.");
       Grp 3 (Plus true (Cls is_word)); Lit (lit " ");
       Grp 4 re_ops;
       Lit (lit " " ++ dq); Grp 5 (Plus true (Cls not_quote));
       Lit (dq ++ lit " else "); Grp 6 (Plus true (Cls any_char))].

Lemma re_cond_unfold :
  re_cond = Seq (Lit (lit "OUTPUT[" ++ dq))
              (Seq (Grp 1 (Plus true (Cls not_quote))) re_cond_rest).
Proof. reflexivity. Qed.

(** The four operators of a conditional. *)
Definition is_op (op : str) : bool :=
  str_eqb op (lit "==") || str_eqb op (lit "!=") || str_eqb op (lit ">")
  || str_eqb op (lit "<").

Lemma is_op_cases (op : str) :
  is_op op = true ->
  op = lit "==" \/ op = lit "!=" \/ op = lit ">" \/ op = lit "<".
Proof.
  unfold is_op, str_eqb. rewrite !orb_true_iff, !bool_decide_eq_true. tauto.
Qed.

Lemma rmatch_alt_take k (r1 r2 : regexp) (st x : mstate) :
  rmatch r1 k st = Some x -> rmatch (Alt r1 r2) k st = Some x.
Proof. intros H. cbn [rmatch]. by rewrite H. Qed.

Lemma rmatch_alt_skip k (r1 r2 : regexp) (st : mstate) :
  rmatch r1 k st = None -> rmatch (Alt r1 r2) k st = rmatch r2 k st.
Proof. intros H. cbn [rmatch]. by rewrite H. Qed.

Lemma ops_complete k (op s : str) (i : nat) (c : list (nat * str)) :
  is_op op = true ->
  is_Some (k (MState (i + length op) s ((4, op) :: c))) ->
  is_Some (rmatch (Grp 4 re_ops) k (MState i (op ++ s) c)).
Proof.
  intros Hop [x Hk]. exists x. rewrite rmatch_grp. unfold re_ops.
  apply is_op_cases in Hop as [->|[->|[->| ->]]].
  - apply rmatch_alt_take. rewrite rmatch_lit_app. rm_beta. exact Hk.
  - rewrite rmatch_alt_skip by (by apply rmatch_lit_head).
    apply rmatch_alt_take. rewrite rmatch_lit_app. rm_beta. exact Hk.
  - rewrite rmatch_alt_skip by (by apply rmatch_lit_head).
    rewrite rmatch_alt_skip by (by apply rmatch_lit_head).
    apply rmatch_alt_take. rewrite rmatch_lit_app. rm_beta. exact Hk.
  - rewrite rmatch_alt_skip by (by apply rmatch_lit_head).
    rewrite rmatch_alt_skip by (by apply rmatch_lit_head).
    rewrite rmatch_alt_skip by (by apply rmatch_lit_head).
    rewrite rmatch_lit_app. rm_beta. exact Hk.
Qed.

Lemma star_one_space_complete k (s : str) (i : nat) (c : list (nat * str)) :
  is_Some (k (MState (i + 1) s c)) ->
  is_Some (rmatch (Star true (Cls is_space)) k (MState i (lit " " ++ s) c)).
Proof.
  intros Hk. rewrite rmatch_star.
  apply (star_greedy_complete k is_space (lit " "));
    [reflexivity|cbn [rest]; lia|exact Hk].
Qed.

(** The line of a conditional, in the parts the expression cuts it into. *)
Definition cond_line (tg thenCode f op v elseCode : str) : str :=
  (lit "OUTPUT[" ++ dq) ++ tg ++ (dq ++ lit "]") ++ lit " " ++ lit "="
    ++ lit " " ++ cond_code thenCode f op v elseCode.

Lemma cond_rest_complete (thenCode f op v elseCode : str) (i : nat)
  (c : list (nat * str)) :
  thenCode ≠ [] -> forallb any_char thenCode = true -> word f = true ->
  is_op op = true -> v ≠ [] -> forallb not_quote v = true ->
  elseCode ≠ [] -> forallb any_char elseCode = true ->
  is_Some (rmatch re_cond_rest Some
             (MState i ((dq ++ lit "]") ++ lit " " ++ lit "=" ++ lit " "
                          ++ cond_code thenCode f op v elseCode) c)).
Proof.
  intros Hth1 Hth2 Hf Hop Hv1 Hv2 Hel1 Hel2. unfold re_cond_rest, cond_code.
  cbn [seq]. rewrite rmatch_seq, rmatch_lit_app, rmatch_seq.
  apply star_one_space_complete.
  rewrite rmatch_seq, rmatch_lit_app, rmatch_seq.
  apply star_one_space_complete.
  rewrite rmatch_seq, rmatch_grp.
  apply plus_greedy_complete; [done|done|]. cbn beta. cbn [pos rest caps].
  rewrite rmatch_seq, rmatch_lit_app, rmatch_seq, rmatch_grp.
  apply plus_greedy_complete;
    [by apply word_nonempty|by apply word_forallb|].
  cbn beta. cbn [pos rest caps].
  rewrite rmatch_seq, rmatch_lit_app, rmatch_seq.
  apply ops_complete; [done|].
  rewrite rmatch_seq, rmatch_lit_app, rmatch_seq, rmatch_grp.
  apply plus_greedy_complete; [done|done|]. cbn beta. cbn [pos rest caps].
  rewrite rmatch_seq, rmatch_lit_app, rmatch_grp.
  rewrite <- (app_nil_r elseCode).
  apply plus_greedy_complete; [done|done|]. by eexists.
Qed.

Lemma exec_cond_line (tg thenCode f op v elseCode : str) :
  word tg = true ->
  thenCode ≠ [] -> forallb any_char thenCode = true -> word f = true ->
  is_op op = true -> v ≠ [] -> forallb not_quote v = true ->
  elseCode ≠ [] -> forallb any_char elseCode = true ->
  exists mt, exec re_cond (cond_line tg thenCode f op v elseCode) = Some mt
             /\ group 1 mt = Str tg.
Proof.
  intros Ht Hth1 Hth2 Hf Hop Hv1 Hv2 Hel1 Hel2.
  destruct (cond_rest_complete thenCode f op v elseCode
              (0 + length (lit "OUTPUT[" ++ dq) + length tg) [(1, tg)])
    as [mt Hmt]; try done.
  exists mt. split.
  - apply exec_here. unfold cond_line.
    rewrite re_cond_unfold, rmatch_seq, rmatch_lit_app, rmatch_seq, rmatch_grp.
    apply plus_greedy_exact;
      [by apply word_nonempty|by apply words_not_quote, word_forallb|done|].
    rm_beta. exact Hmt.
  - apply rmatch_result in Hmt as (st' & [= <-] & Hkeep).
    unfold group. rewrite Hkeep; [done|].
    change (groups re_cond_rest) with [2; 3; 4; 5; 6].
    rewrite !elem_of_cons, elem_of_nil. lia.
Qed.

(** *** Lines that are no definition, lines that are no call *)

Lemma not_def_line (t : str) :
  stops (ascii_eqb "d"%char) t = true ->
  matches re_main t = false /\ exec re_moduleDef t = None
  /\ startsWith (lit "def ") t = false.
Proof.
  intros H. unfold matches, re_main, re_moduleDef. cbn [seq].
  rewrite !exec_bol, rmatch_seq.
  change (lit "def transform(INPUT):") with ("d"%char :: lit "ef transform(INPUT):").
  change (lit "def map_") with ("d"%char :: lit "ef map_").
  rewrite !rmatch_lit_stops by done. split; [done|]. split; [done|].
  destruct t as [|a t]; [done|]. cbn [stops] in H.
  apply negb_true_iff in H. change (lit "def ") with ("d"%char :: lit "ef ").
  cbn [startsWith]. by rewrite H.
Qed.

Lemma not_call_line (t : str) :
  stops (ascii_eqb "m"%char) t = true -> exec re_moduleCall t = None.
Proof.
  intros H. unfold re_moduleCall. cbn [seq]. rewrite exec_bol, rmatch_seq.
  change (lit "map_") with ("m"%char :: lit "ap_").
  by rewrite rmatch_lit_stops.
Qed.

Lemma exec_def_line (n : str) :
  word n = true ->
  matches re_main (def_line n) = false
  /\ exists mt, exec re_moduleDef (def_line n) = Some mt /\ group 1 mt = Str n.
Proof.
  intros Hn. split.
  - unfold matches, re_main. cbn [seq]. rewrite exec_bol.
    cbn [rmatch rest]. unfold def_line.
    change (startsWith _ _) with false. done.
  - eexists. split.
    + unfold re_moduleDef. cbn [seq]. rewrite exec_bol. unfold def_line.
      rewrite rmatch_seq, rmatch_lit_app, rmatch_seq, rmatch_grp.
      apply plus_greedy_exact;
        [by apply word_nonempty|by apply word_forallb|done|].
      rm_beta. rewrite rmatch_lit_exact. reflexivity.
    + reflexivity.
Qed.

End LineFacts.

Section ParseLines.

Variable uid : nat -> str.

(** A line that no expression of the parser matches changes nothing. *)
Lemma parse_line_noise (st : pstate) (line : str) :
  stops (ascii_eqb "d"%char) (trim line) = true ->
  exec re_moduleCall (trim line) = None ->
  exec re_simple (trim line) = None ->
  exec re_nested (trim line) = None ->
  exec re_cond (trim line) = None ->
  parse_line uid st line = st.
Proof.
  intros Hd H1 H2 H3 H4. unfold parse_line.
  destruct (not_def_line _ Hd) as (-> & -> & ->).
  rewrite H1, H2, H3, H4. cbn [andb]. by destruct (currentModule st).
Qed.

Lemma parse_line_call (st : pstate) (line : str) (cur : nat) (mt : mstate) :
  stops (ascii_eqb "d"%char) (trim line) = true ->
  currentModule st = Some cur ->
  exec re_moduleCall (trim line) = Some mt ->
  parse_line uid st line
  = add_mapping uid st cur
      [ ("moduleName", group 1 mt); ("type", Str (lit "module_call"));
        ("isNew", Bool false) ].
Proof.
  intros Hd Hc H1. unfold parse_line.
  destruct (not_def_line _ Hd) as (-> & -> & ->). by rewrite Hc, H1.
Qed.

Lemma parse_line_simple (st : pstate) (line : str) (cur : nat) (mt : mstate) :
  stops (ascii_eqb "d"%char) (trim line) = true ->
  currentModule st = Some cur ->
  exec re_moduleCall (trim line) = None ->
  exec re_simple (trim line) = Some mt ->
  parse_line uid st line
  = add_mapping uid st cur
      [ ("target", group 1 mt); ("source", group 2 mt);
        ("transform", jsor (group 3 mt) Null);
        ("transformation", Str (lit "direct")); ("type", Str (lit "field"));
        ("isNew", Bool false) ].
Proof.
  intros Hd Hc H1 H2. unfold parse_line.
  destruct (not_def_line _ Hd) as (-> & -> & ->). by rewrite Hc, H1, H2.
Qed.

Lemma parse_line_nested (st : pstate) (line : str) (cur : nat) (mt : mstate) :
  stops (ascii_eqb "d"%char) (trim line) = true ->
  currentModule st = Some cur ->
  exec re_moduleCall (trim line) = None ->
  exec re_simple (trim line) = None ->
  exec re_nested (trim line) = Some mt ->
  parse_line uid st line
  = add_mapping uid st cur
      [ ("target",
         Str (join (lit ".")
                (map (default []) (matchAll_group re_pathPart 1 (trim line)))));
        ("source", Str (join (lit ".") (split chr_dot (gtext 2 mt))));
        ("transform", jsor (group 3 mt) Null);
        ("transformation", Str (lit "direct")); ("type", Str (lit "field"));
        ("isNew", Bool false) ].
Proof.
  intros Hd Hc H1 H2 H3. unfold parse_line.
  destruct (not_def_line _ Hd) as (-> & -> & ->). by rewrite Hc, H1, H2, H3.
Qed.

Lemma parse_line_cond (st : pstate) (line : str) (cur : nat) (mt : mstate) :
  stops (ascii_eqb "d"%char) (trim line) = true ->
  currentModule st = Some cur ->
  exec re_moduleCall (trim line) = None ->
  exec re_simple (trim line) = None ->
  exec re_nested (trim line) = None ->
  exec re_cond (trim line) = Some mt ->
  parse_line uid st line
  = add_mapping uid st cur
      [ ("target", group 1 mt); ("condField", group 3 mt);
        ("condOp", group 4 mt); ("condValue", group 5 mt);
        ("thenValue", Str (cleanVal (gtext 2 mt)));
        ("elseValue", Str (cleanVal (gtext 6 mt)));
        ("transformation", Str (lit "conditional")); ("type", Str (lit "field"));
        ("isNew", Bool false) ].
Proof.
  intros Hd Hc H1 H2 H3 H4. unfold parse_line.
  destruct (not_def_line _ Hd) as (-> & -> & ->). by rewrite Hc, H1, H2, H3, H4.
Qed.

Lemma parse_line_def (st : pstate) (n : str) :
  word n = true -> parse_line uid st (def_line n) = open_module uid st n.
Proof.
  intros Hn. unfold parse_line.
  assert (trim (def_line n) = def_line n) as ->.
  { apply trim_tight; [done|]. unfold def_line. rewrite !app_assoc.
    by apply stops_rev_app. }
  destruct (exec_def_line n Hn) as (-> & mt & -> & Hg).
  unfold gtext. by rewrite Hg.
Qed.

Lemma parse_line_main (st : pstate) :
  parse_line uid st (lit "def transform(INPUT):") = open_module uid st (lit "main").
Proof. reflexivity. Qed.

End ParseLines.



(** ** The models that survive a round trip *)

Definition undefined (v : jsval) : bool := strict_eq v Undefined.

(** A dotted path of identifiers. *)
Definition dotted (s : str) : bool := forallb word (split chr_dot s).

(** A module call the parser recovers: the callee is an identifier, and the
    mapping has none of the fields the diff engine compares on field
    mappings. *)
Definition call_ok (m : Mapping) : bool :=
  match get m "moduleName" with
  | Str callee => word callee
  | _ => false
  end
  && undefined (get m "source") && undefined (get m "transformation")
  && undefined (get m "transform").

(** A source the nested expression takes whole: [[\w.]+]. *)
Definition path_source (src : str) : bool :=
  match src with
  | [] => false
  | _ :: _ => forallb word_or_dot src
  end.

(** A direct mapping the parser recovers: the target is a dotted path of
    identifiers, the transform is [null] or one of the three rendered as a
    method call, and the source fits the expression that reads it back:
    an identifier under a single-segment target, made of identifier
    characters and dots under a nested one. *)
Definition direct_ok (m : Mapping) : bool :=
  undefined (get m "moduleName") && suffix_transform (get m "transform")
  && match get m "target", get m "source" with
     | Str tg, Str src =>
         dotted tg
         && (if includes chr_dot tg then path_source src else word src)
     | _, _ => false
     end.

(** The text of a literal: no line terminator, no opening bracket. *)
Definition literal (s : str) : bool := forallb lit_char s.

(** A conditional mapping the parser recovers: a single-segment target,
    an identifier as the condition field, one of the four operators, a
    literal without double quote as the condition value, a literal without
    dot as the then-value, and a literal or a path as the else-value (each
    after the placeholder for a missing one); and none of the fields the
    diff engine compares besides [transformation]. *)
Definition cond_ok (m : Mapping) : bool :=
  undefined (get m "source") && undefined (get m "transform")
  && undefined (get m "moduleName")
  && match get m "target" with
     | Str tg => word tg
     | _ => false
     end
  && word (or_default (get m "condField") "field")
  && is_op (or_default (get m "condOp") "==")
  && literal (or_default (get m "condValue") "value")
  && forallb not_quote (or_default (get m "condValue") "value")
  && match jsor (get m "thenValue") (Str (lit "value1")) with
     | Str th => negb (includes chr_dot th) && literal th
     | _ => false
     end
  && match jsor (get m "elseValue") (Str (lit "value2")) with
     | Str el => if includes chr_dot el then forallb word_or_dot el else literal el
     | _ => false
     end.

Definition round_trippable (m : Mapping) : bool :=
  if is_str (get m "type") "module_call" then call_ok m
  else if is_str (get m "transformation") "direct" then direct_ok m
  else if is_str (get m "transformation") "conditional" then cond_ok m
  else false.

Definition module_ok (md : Module) : bool :=
  word (name md) && forallb round_trippable (mappings md).

(** The statement, without indentation, that the generator writes for a
    field mapping of the two recoverable kinds. *)
Definition direct_statement (m : Mapping) : str :=
  nested_line (split chr_dot (to_string (get m "target")))
    (to_string (get m "source")) (get m "transform").

Definition branch_code (v : jsval) : str :=
  if includes chr_dot (to_string v) then lit "INPUT." ++ to_string v
  else dq ++ to_string v ++ dq.

Definition cond_statement (m : Mapping) : str :=
  cond_line (to_string (get m "target"))
    (branch_code (jsor (get m "thenValue") (Str (lit "value1"))))
    (or_default (get m "condField") "field")
    (or_default (get m "condOp") "==")
    (or_default (get m "condValue") "value")
    (branch_code (jsor (get m "elseValue") (Str (lit "value2")))).

Definition indent (s : str) : str := lit "    " ++ s.

(** The lines the loop over the mappings pushes for a recoverable mapping,
    in the main module or in another. *)
Definition mapping_lines (in_main : bool) (m : Mapping) : list str :=
  if is_str (get m "type") "module_call" then
    [ indent (comment_line (to_string (get m "moduleName")));
      indent (call_line (to_string (get m "moduleName"))) ]
    ++ (if in_main then [lit "    "] else [])
  else if is_str (get m "transformation") "direct" then [indent (direct_statement m)]
  else [indent (cond_statement m)].

Section Generated.

Lemma undefined_eq (v : jsval) : undefined v = true -> v = Undefined.
Proof. unfold undefined, strict_eq. by rewrite bool_decide_eq_true. Qed.

Lemma is_str_eq (v : jsval) (s : string) : is_str v s = true -> v = Str (lit s).
Proof. unfold is_str, strict_eq. by rewrite bool_decide_eq_true. Qed.

Lemma dotted_nonempty (s : str) : dotted s = true -> s ≠ [].
Proof. by intros H ->. Qed.

Lemma generate_direct_ok (m : Mapping) (src : str) :
  get m "source" = Str src -> src ≠ [] ->
  suffix_transform (get m "transform") = true ->
  generate_direct m = Ok (lit "INPUT." ++ src ++ method_suffix (get m "transform")).
Proof.
  intros Hs Hne Htr. unfold generate_direct, or_default. rewrite Hs.
  destruct src as [|a src]; [done|]. cbn [jsor truthy to_string].
  apply suffix_transform_cases in Htr as [->|[->|[->| ->]]];
    vm_compute method_suffix; cbn; rewrite ?app_nil_r, <- ?app_assoc;
    reflexivity.
Qed.

Lemma direct_lines (acc : list str) (m : Mapping) :
  is_str (get m "type") "module_call" = false ->
  is_str (get m "transformation") "direct" = true ->
  direct_ok m = true ->
  field_mapping acc m = Ok (acc ++ [indent (direct_statement m)]).
Proof.
  intros Hty Hk. unfold direct_ok.
  intros [[_ Htr]%andb_true_iff H]%andb_true_iff.
  destruct (get m "target") as [| | |tg] eqn:Etg; try done.
  destruct (get m "source") as [| | |src] eqn:Esrc; try done.
  apply andb_true_iff in H as [Hdot Hsrc].
  assert (src ≠ []) as Hne.
  { destruct (includes chr_dot tg); by destruct src. }
  rewrite (field_mapping_line acc m tg
             (lit "INPUT." ++ src ++ method_suffix (get m "transform")) direct).
  - unfold direct_statement, indent, assignment_line, nested_line, assign_tail.
    rewrite Etg, Esrc. reflexivity.
  - done.
  - by apply dotted_nonempty.
  - by rewrite (is_str_eq _ _ Hk).
  - by apply generate_direct_ok.
Qed.

End Generated.

Section GeneratedMore.

Lemma word_no_dot (s : str) : forallb is_word s = true -> includes chr_dot s = false.
Proof. by apply excludes_forallb. Qed.

Lemma branch_code_facts (v : jsval) (s : str) :
  v = Str s ->
  (if includes chr_dot s then forallb word_or_dot s else literal s) = true ->
  js_includes_dot v = Ok (includes chr_dot s)
  /\ branch_code v ≠ []
  /\ forallb any_char (branch_code v) = true
  /\ includes "["%char (branch_code v) = false
  /\ includes chr_nl (branch_code v) = false
  /\ stops is_space (rev (branch_code v)) = true
  /\ (includes chr_dot s = false -> branch_code v = dq ++ s ++ dq).
Proof.
  intros -> H. unfold branch_code. cbn [to_string js_includes_dot].
  split; [done|]. destruct (includes chr_dot s).
  - assert (forallb any_char s = true) as Hany.
    { revert H. apply forallb_mono. intros a.
      by destruct a as [[] [] [] [] [] [] [] []]. }
    assert (includes "["%char s = false) as Hbr.
    { by apply (excludes_forallb _ word_or_dot). }
    assert (includes chr_nl s = false) as Hnl.
    { by apply (excludes_forallb _ word_or_dot). }
    repeat split; try done.
    destruct s as [|a s _] using rev_ind; [done|].
    { rewrite app_assoc, rev_app_distr. cbn [rev app stops].
      rewrite forallb_app in H. apply andb_true_iff in H as [_ H].
      cbn in H. rewrite andb_true_r in H.
      by destruct a as [[] [] [] [] [] [] [] []]. }
  - unfold literal in H.
    assert (forallb any_char s = true) as Hany.
    { revert H. apply forallb_mono. intros a. unfold lit_char.
      by intros [? _]%andb_true_iff. }
    assert (includes "["%char s = false) as Hbr.
    { apply (excludes_forallb _ lit_char); [|done]. done. }
    assert (includes chr_nl s = false) as Hnl.
    { apply (excludes_forallb _ lit_char); [|done]. done. }
    repeat split; try done.
    + rewrite !forallb_app. by rewrite Hany.
    + rewrite !includes_app. by rewrite Hbr.
    + rewrite !includes_app. by rewrite Hnl.
    + rewrite app_assoc. by apply stops_rev_app.
Qed.

Lemma cond_ok_facts (m : Mapping) :
  cond_ok m = true ->
  exists tg th,
    get m "target" = Str tg /\ word tg = true
    /\ get m "source" = Undefined /\ get m "transform" = Undefined
    /\ get m "moduleName" = Undefined
    /\ word (or_default (get m "condField") "field") = true
    /\ is_op (or_default (get m "condOp") "==") = true
    /\ literal (or_default (get m "condValue") "value") = true
    /\ forallb not_quote (or_default (get m "condValue") "value") = true
    /\ jsor (get m "thenValue") (Str (lit "value1")) = Str th
    /\ includes chr_dot th = false /\ literal th = true
    /\ exists el,
         jsor (get m "elseValue") (Str (lit "value2")) = Str el
         /\ (if includes chr_dot el then forallb word_or_dot el else literal el)
            = true.
Proof.
  unfold cond_ok. rewrite !andb_true_iff.
  intros (((((((((H1 & H2) & H3) & H4) & H5) & H6) & H7) & H8) & H9) & H10).
  destruct (get m "target") as [| | |tg]; try done.
  destruct (jsor (get m "thenValue") _) as [| | |th]; try done.
  destruct (jsor (get m "elseValue") _) as [| | |el]; try done.
  apply andb_true_iff in H9 as [H9 H9']. apply negb_true_iff in H9.
  exists tg, th. repeat split; try done; try (by apply undefined_eq).
  by exists el.
Qed.

Lemma or_default_nonempty (v : jsval) (d : string) :
  lit d ≠ [] -> or_default v d ≠ [].
Proof.
  intros Hd. unfold or_default, jsor.
  destruct v as [| |[]|[|a s]]; cbn; done.
Qed.

Lemma cond_lines (acc : list str) (m : Mapping) :
  is_str (get m "type") "module_call" = false ->
  is_str (get m "transformation") "conditional" = true ->
  cond_ok m = true ->
  field_mapping acc m = Ok (acc ++ [indent (cond_statement m)]).
Proof.
  intros Hty Hk Hok.
  destruct (cond_ok_facts m Hok)
    as (tg & th & Htg & Hw & _ & _ & _ & Hf & Hop & Hv & Hq & Hth & Hthd & Hthl
        & el & Hel & Hell).
  destruct (branch_code_facts _ th Hth) as (Hi1 & _); [by rewrite Hthd|].
  destruct (branch_code_facts _ el Hel) as (Hi2 & _); [done|].
  rewrite (field_mapping_line acc m tg
             (cond_code (branch_code (jsor (get m "thenValue") (Str (lit "value1"))))
                (or_default (get m "condField") "field")
                (or_default (get m "condOp") "==")
                (or_default (get m "condValue") "value")
                (branch_code (jsor (get m "elseValue") (Str (lit "value2")))))
             conditional).
  - unfold cond_statement, indent, assignment_line, cond_line. rewrite Htg.
    cbn [to_string].
    rewrite (split_no_sep chr_dot tg) by (by apply word_no_dot, word_forallb).
    cbn [map concat]. unfold bracket. rewrite app_nil_r, <- !app_assoc.
    reflexivity.
  - done.
  - by apply word_nonempty.
  - by rewrite (is_str_eq _ _ Hk).
  - cbn [generate]. unfold generate_conditional. rewrite Hi1. cbn [mbind result_bind].
    rewrite Hi2. cbn [mbind result_bind]. unfold cond_code, branch_code.
    rewrite Hth, Hel. cbn [to_string].
    destruct (includes chr_dot th), (includes chr_dot el);
      rewrite <- ?app_assoc; reflexivity.
Qed.

Lemma call_lines_helper (acc : list str) (m : Mapping) :
  is_str (get m "type") "module_call" = true ->
  helper_mapping acc m = Ok (acc ++ mapping_lines false m).
Proof.
  intros H. unfold helper_mapping, mapping_lines, push. rewrite H.
  rewrite <- !app_assoc. reflexivity.
Qed.

Lemma call_lines_main (acc : list str) (m : Mapping) :
  is_str (get m "type") "module_call" = true ->
  main_mapping acc m = Ok (acc ++ mapping_lines true m).
Proof.
  intros H. unfold main_mapping, mapping_lines, push. rewrite H.
  rewrite <- !app_assoc. reflexivity.
Qed.

(** What the loop bodies of the generator push for a recoverable mapping. *)
Lemma mapping_lines_ok (in_main : bool) (acc : list str) (m : Mapping) :
  round_trippable m = true ->
  (if in_main then main_mapping else helper_mapping) acc m
  = Ok (acc ++ mapping_lines in_main m).
Proof.
  unfold round_trippable. intros H.
  destruct (is_str (get m "type") "module_call") eqn:Ety.
  { destruct in_main; [by apply call_lines_main|by apply call_lines_helper]. }
  assert (field_mapping acc m = Ok (acc ++ mapping_lines in_main m)) as Hf.
  { unfold mapping_lines. rewrite Ety.
    destruct (is_str (get m "transformation") "direct") eqn:Ed.
    - by apply direct_lines.
    - destruct (is_str (get m "transformation") "conditional") eqn:Ec; [|done].
      by apply cond_lines. }
  destruct in_main; unfold main_mapping, helper_mapping; by rewrite Ety.
Qed.

End GeneratedMore.

(** ** Reading a generated line back *)

(** The part of the diff key that comes from the mapping. *)
Definition key_suffix (m : Mapping) : str :=
  if is_str (get m "type") "module_call"
  then lit ":call_" ++ to_string (get m "moduleName")
  else lit ":" ++ to_string (get m "target").

(** Two mappings the diff engine files under the same key of a module and
    does not tell apart. *)
Definition same_entry (m m' : Mapping) : Prop :=
  key_suffix m' = key_suffix m
  /\ get m' "source" = get m "source"
  /\ get m' "transformation" = get m "transformation"
  /\ get m' "transform" = get m "transform"
  /\ get m' "moduleName" = get m "moduleName".

(** A text that ends with a character that is not blank. *)
Definition ends_tight (s : str) : Prop :=
  s ≠ [] /\ stops is_space (rev s) = true.

(** The lines of a sub-routine and of the entry point, for recoverable
    mappings. *)
Definition subroutine_lines (md : Module) : list str :=
  [def_line (name md); indent (docstring_line (name md))]
  ++ concat (map (mapping_lines false) (mappings md)) ++ [[]].

Definition entry_point_lines (md : Module) : list str :=
  [ lit "def transform(INPUT):";
    lit "    " ++ triple_quote ++ lit "Main transformation" ++ triple_quote;
    lit "    OUTPUT = {}"; lit "    " ]
  ++ concat (map (mapping_lines true) (mappings md))
  ++ [ lit "    "; lit "    return OUTPUT" ].

Definition header_lines : list str :=
  [ lit "#!/usr/bin/env python3"; lit "# GRIZZLY_TEMPLATE_V1"; triple_quote;
    lit "Generated by Grizzly"; triple_quote; [] ].

(** The lines of the text generated from recoverable modules, the first of
    which named [main] is [mainModule]. *)
Definition generated_lines (modules : list Module) (mainModule : Module)
  : list str :=
  header_lines
  ++ concat (map subroutine_lines (filter (fun md => is_helper md = true) modules))
  ++ entry_point_lines mainModule.

(** What the parser makes of a module from what it was generated from. *)
Definition recovered (md md' : Module) : Prop :=
  name md' = name md /\ Forall2 same_entry (mappings md) (mappings md').

Section Recovered.

Variable uid : nat -> str.

Lemma flat_key_suffix (md : Module) (m : Mapping) :
  flat_key md m = name md ++ key_suffix m.
Proof. unfold flat_key, key_suffix. by destruct (is_str _ _). Qed.

Lemma ends_tight_app (x y : str) : ends_tight y -> ends_tight (x ++ y).
Proof.
  intros [Hne Hy]. split; [|by apply stops_rev_app].
  intros [_ ->]%app_eq_nil. done.
Qed.

Lemma ends_tight_word (s : str) : word s = true -> ends_tight s.
Proof.
  intros H. split; [by apply word_nonempty|].
  by apply stops_rev_word, word_forallb.
Qed.

Lemma trim_statement (s : str) :
  stops is_space s = true -> ends_tight s -> trim (indent s) = s.
Proof. intros H [_ H']. by apply trim_indent. Qed.

(** A line that holds no opening bracket and starts neither a definition
    nor a call adds nothing. *)
Lemma parse_line_plain (st : pstate) (line : str) :
  stops (ascii_eqb "d") (trim line) = true ->
  stops (ascii_eqb "m") (trim line) = true ->
  includes "["%char (trim line) = false ->
  parse_line uid st line = st.
Proof.
  intros Hd Hm Hb. apply parse_line_noise; [done|by apply not_call_line|..];
    by apply (exec_requires "["%char).
Qed.

Lemma word_no_bracket (s : str) : word s = true -> includes "["%char s = false.
Proof. intros H. by apply (excludes_forallb _ is_word), word_forallb. Qed.

Lemma word_no_nl (s : str) : word s = true -> includes chr_nl s = false.
Proof. intros H. by apply (excludes_forallb _ is_word), word_forallb. Qed.

Lemma parse_comment_line (st : pstate) (callee : str) :
  word callee = true ->
  parse_line uid st (indent (comment_line callee)) = st.
Proof.
  intros Hw.
  assert (trim (indent (comment_line callee)) = comment_line callee) as E.
  { apply trim_statement; [done|]. unfold comment_line.
    apply ends_tight_app, ends_tight_app. by split. }
  apply parse_line_plain; rewrite E; [done|done|].
  unfold comment_line. rewrite !includes_app, (word_no_bracket callee Hw). done.
Qed.

Lemma parse_call_line (st : pstate) (cur : nat) (callee : str) :
  word callee = true -> currentModule st = Some cur ->
  parse_line uid st (indent (call_line callee))
  = add_mapping uid st cur
      [ ("moduleName", Str callee); ("type", Str (lit "module_call"));
        ("isNew", Bool false) ].
Proof.
  intros Hw Hcur.
  assert (trim (indent (call_line callee)) = call_line callee) as E.
  { apply trim_statement; [done|]. unfold call_line.
    apply ends_tight_app, ends_tight_app. by split. }
  destruct (exec_call_line callee Hw) as (mt & Hmt & Hg).
  rewrite (parse_line_call uid st _ cur mt); rewrite ?E; try done.
  by rewrite Hg.
Qed.

Lemma parse_blank_line (st : pstate) : parse_line uid st (lit "    ") = st.
Proof. by apply parse_line_plain. Qed.

Lemma add_mapping_current (st : pstate) (cur : nat) fields :
  currentModule (add_mapping uid st cur fields) = currentModule st.
Proof. reflexivity. Qed.

Lemma parse_call_mapping (in_main : bool) (st : pstate) (cur : nat) (m : Mapping) :
  is_str (get m "type") "module_call" = true -> call_ok m = true ->
  currentModule st = Some cur ->
  exists fields,
    fold_left (parse_line uid) (mapping_lines in_main m) st
    = add_mapping uid st cur fields
    /\ forall id, same_entry m (obj (("id", id) :: fields)).
Proof.
  intros Hty Hok Hcur. unfold call_ok in Hok.
  apply andb_true_iff in Hok as [[[Hc Hs]%andb_true_iff Hk]%andb_true_iff Ht].
  destruct (get m "moduleName") as [| | |callee] eqn:Ec; try done.
  apply undefined_eq in Hs, Hk, Ht.
  eexists. split.
  - unfold mapping_lines. rewrite Hty, Ec. cbn [to_string].
    rewrite fold_left_app. cbn [fold_left].
    rewrite parse_comment_line, (parse_call_line st cur) by done.
    destruct in_main; cbn [fold_left]; [apply parse_blank_line|reflexivity].
  - intros id. unfold same_entry, key_suffix.
    rewrite Hty, Ec, Hs, Hk, Ht. by vm_compute.
Qed.

Lemma ends_tight_source (src : str) (tr : jsval) :
  src ≠ [] -> forallb word_or_dot src = true -> suffix_transform tr = true ->
  ends_tight (src ++ method_suffix tr).
Proof.
  intros Hne Hsrc Htr.
  apply suffix_transform_cases in Htr as [->|[->|[->| ->]]];
    try (apply ends_tight_app; by split).
  change (method_suffix Null) with (@nil ascii). rewrite app_nil_r.
  split; [done|]. destruct src as [|a src _] using rev_ind; [done|].
  rewrite rev_app_distr. cbn [rev app stops].
  rewrite forallb_app in Hsrc. apply andb_true_iff in Hsrc as [_ H].
  cbn in H. rewrite andb_true_r in H.
  by destruct a as [[] [] [] [] [] [] [] []].
Qed.

Lemma ends_tight_nested (segs : list str) (src : str) (tr : jsval) :
  src ≠ [] -> forallb word_or_dot src = true -> suffix_transform tr = true ->
  ends_tight (nested_line segs src tr).
Proof.
  intros Hne Hsrc Htr. unfold nested_line, assign_tail.
  do 6 apply ends_tight_app. by apply ends_tight_source.
Qed.

Lemma word_path (s : str) : word s = true -> forallb word_or_dot s = true.
Proof.
  intros H. apply word_forallb in H. revert H. apply forallb_mono.
  intros a Ha. unfold word_or_dot. by rewrite Ha.
Qed.

Lemma nested_single (tg src : str) (tr : jsval) :
  nested_line [tg] src tr = simple_line tg src tr.
Proof.
  unfold nested_line, simple_line, assign_tail. cbn [map concat].
  rewrite app_nil_r, bracket_parts. by rewrite <- !app_assoc.
Qed.

Lemma split_two (c : ascii) (s : str) :
  includes c s = true -> exists p1 p2 segs, split c s = p1 :: p2 :: segs.
Proof.
  induction s as [|a s IH]; [done|]. cbn [includes existsb split].
  unfold ascii_eqb. rewrite (Ascii.eqb_sym c a).
  destruct (Ascii.eqb a c).
  - intros _. pose proof (split_nonempty c s) as Hne.
    destruct (split c s) as [|p2 segs]; [done|]. by eauto.
  - intros (p1 & p2 & segs & ->)%IH. by eauto.
Qed.

Lemma map_default_some (segs : list str) : map (default []) (map Some segs) = segs.
Proof. induction segs as [|p segs IH]; [done|]. cbn. by rewrite IH. Qed.

Lemma parse_direct_mapping (in_main : bool) (st : pstate) (cur : nat) (m : Mapping) :
  is_str (get m "type") "module_call" = false ->
  is_str (get m "transformation") "direct" = true ->
  direct_ok m = true ->
  currentModule st = Some cur ->
  exists fields,
    fold_left (parse_line uid) (mapping_lines in_main m) st
    = add_mapping uid st cur fields
    /\ forall id, same_entry m (obj (("id", id) :: fields)).
Proof.
  intros Hty Hk Hok Hcur. unfold direct_ok in Hok.
  apply andb_true_iff in Hok as [[Hmn Htr]%andb_true_iff H].
  apply undefined_eq in Hmn. apply is_str_eq in Hk.
  destruct (get m "target") as [| | |tg] eqn:Etg; try done.
  destruct (get m "source") as [| | |src] eqn:Esrc; try done.
  apply andb_true_iff in H as [Hdot Hsrc].
  unfold mapping_lines. rewrite Hty, Hk. cbn [fold_left].
  change (is_str (Str (lit "direct")) "direct") with true. cbn iota.
  unfold direct_statement. rewrite Etg, Esrc. cbn [to_string].
  assert (stops (ascii_eqb "d") (nested_line (split chr_dot tg) src (get m "transform")) = true)
    as Hd by done.
  assert (exec re_moduleCall (nested_line (split chr_dot tg) src (get m "transform")) = None)
    as Hcall by (by apply not_call_line).
  unfold dotted in Hdot. rewrite forallb_forall in Hdot.
  assert (Forall (fun p => word p = true) (split chr_dot tg)) as Hsegs.
  { apply List.Forall_forall. intros p Hp. by apply Hdot. }
  clear Hdot.
  destruct (includes chr_dot tg) eqn:Edot.
  - (* a bracket chain *)
    assert (src ≠ []) as Hne by (by destruct src).
    assert (forallb word_or_dot src = true) as Hpath by (by destruct src).
    assert (trim (indent (nested_line (split chr_dot tg) src (get m "transform")))
            = nested_line (split chr_dot tg) src (get m "transform")) as E.
    { apply trim_statement; [done|]. by apply ends_tight_nested. }
    destruct (split_two _ _ Edot) as (p1 & p2 & segs & Esp).
    destruct (exec_nested_line (split chr_dot tg) src (get m "transform"))
      as (mt & Hmt & Hg2 & Hg3); try done.
    { by rewrite Esp. }
    eexists. split.
    + apply (parse_line_nested uid st _ cur mt); rewrite ?E; try done.
      rewrite Esp in *. by apply exec_simple_nested_line.
    + intros id. rewrite E, matchAll_nested_line, map_default_some by done.
      unfold gtext. rewrite Hg2, Hg3. cbn [to_string].
      change (lit ".") with [chr_dot]. rewrite !join_split.
      unfold same_entry, key_suffix. rewrite Hty, Etg, Esrc, Hk, Hmn.
      by vm_compute.
  - (* a single key *)
    rewrite (split_no_sep _ _ Edot) in *. apply Forall_inv in Hsegs.
    assert (trim (indent (nested_line [tg] src (get m "transform")))
            = nested_line [tg] src (get m "transform")) as E.
    { apply trim_statement; [done|]. apply ends_tight_nested; try done.
      - by apply word_nonempty.
      - by apply word_path. }
    destruct (exec_simple_line tg src (get m "transform"))
      as (mt & Hmt & Hg1 & Hg2 & Hg3); try done.
    eexists. split.
    + apply (parse_line_simple uid st _ cur mt); rewrite ?E; try done.
      by rewrite nested_single.
    + intros id. rewrite Hg1, Hg2, Hg3.
      unfold same_entry, key_suffix. rewrite Hty, Etg, Esrc, Hk, Hmn.
      by vm_compute.
Qed.

Lemma is_op_no_bracket (op : str) : is_op op = true -> includes "["%char op = false.
Proof. by intros [->|[->|[->| ->]]]%is_op_cases. Qed.

Lemma is_op_no_nl (op : str) : is_op op = true -> includes chr_nl op = false.
Proof. by intros [->|[->|[->| ->]]]%is_op_cases. Qed.

Lemma literal_no_bracket (s : str) : literal s = true -> includes "["%char s = false.
Proof. by apply excludes_forallb. Qed.

Lemma literal_no_nl (s : str) : literal s = true -> includes chr_nl s = false.
Proof. by apply excludes_forallb. Qed.

Lemma parse_cond_mapping (in_main : bool) (st : pstate) (cur : nat) (m : Mapping) :
  is_str (get m "type") "module_call" = false ->
  is_str (get m "transformation") "direct" = false ->
  is_str (get m "transformation") "conditional" = true ->
  cond_ok m = true ->
  currentModule st = Some cur ->
  exists fields,
    fold_left (parse_line uid) (mapping_lines in_main m) st
    = add_mapping uid st cur fields
    /\ forall id, same_entry m (obj (("id", id) :: fields)).
Proof.
  intros Hty Hnd Hk Hok Hcur.
  destruct (cond_ok_facts m Hok)
    as (tg & th & Htg & Hw & Hs & Ht & Hmn & Hf & Hop & Hv & Hq & Hth & Hthd & Hthl
        & el & Hel & Hell).
  apply is_str_eq in Hk.
  destruct (branch_code_facts _ th Hth) as (_ & Hn1 & Ha1 & _ & _ & _ & Hb1);
    [by rewrite Hthd|]. specialize (Hb1 Hthd).
  destruct (branch_code_facts _ el Hel) as (_ & Hn2 & Ha2 & Hbr2 & _ & He2 & _);
    [done|].
  unfold mapping_lines. rewrite Hty, Hnd. cbn [fold_left].
  unfold cond_statement. rewrite Htg. cbn [to_string].
  set (thenCode := branch_code (jsor (get m "thenValue") (Str (lit "value1")))) in *.
  set (elseCode := branch_code (jsor (get m "elseValue") (Str (lit "value2")))) in *.
  set (f := or_default (get m "condField") "field") in *.
  set (op := or_default (get m "condOp") "==") in *.
  set (v := or_default (get m "condValue") "value") in *.
  assert (trim (indent (cond_line tg thenCode f op v elseCode))
          = cond_line tg thenCode f op v elseCode) as E.
  { apply trim_statement; [done|]. unfold cond_line, cond_code.
    do 14 apply ends_tight_app. by split. }
  assert (cond_line tg thenCode f op v elseCode
          = quoted_line tg
              (th ++ dq ++ lit " if INPUT." ++ f ++ lit " " ++ op
                 ++ (lit " " ++ dq) ++ v ++ (dq ++ lit " else ") ++ elseCode))
    as Equoted.
  { unfold cond_line, quoted_line, cond_code. rewrite Hb1.
    by rewrite <- !app_assoc. }
  assert (includes "["%char
            (th ++ dq ++ lit " if INPUT." ++ f ++ lit " " ++ op
               ++ (lit " " ++ dq) ++ v ++ (dq ++ lit " else ") ++ elseCode)
          = false) as Hbr.
  { rewrite !includes_app, (literal_no_bracket th), (word_no_bracket f),
      (is_op_no_bracket op), (literal_no_bracket v), Hbr2 by done. done. }
  destruct (exec_cond_line tg thenCode f op v elseCode) as (mt & Hmt & Hg1);
    try done.
  { by apply or_default_nonempty. }
  eexists. split.
  - apply (parse_line_cond uid st _ cur mt); rewrite ?E; try done.
    + by apply not_call_line.
    + rewrite Equoted. by apply exec_simple_quoted_line.
    + rewrite Equoted. by apply exec_nested_quoted_line.
  - intros id. rewrite Hg1.
    generalize (group 3 mt), (group 4 mt), (group 5 mt),
      (cleanVal (gtext 2 mt)), (cleanVal (gtext 6 mt)).
    intros g3 g4 g5 c2 c6.
    unfold same_entry, key_suffix. rewrite Hty, Htg, Hs, Ht, Hmn, Hk.
    by vm_compute.
Qed.

(** Each recoverable mapping is read back, from the lines written for it,
    as one mapping that the diff engine files under the same key and does
    not tell apart from it. *)
Lemma parse_mapping_lines (in_main : bool) (st : pstate) (cur : nat) (m : Mapping) :
  round_trippable m = true ->
  currentModule st = Some cur ->
  exists fields,
    fold_left (parse_line uid) (mapping_lines in_main m) st
    = add_mapping uid st cur fields
    /\ forall id, same_entry m (obj (("id", id) :: fields)).
Proof.
  unfold round_trippable. intros H Hcur.
  destruct (is_str (get m "type") "module_call") eqn:Ety.
  { by apply parse_call_mapping. }
  destruct (is_str (get m "transformation") "direct") eqn:Ed.
  { by apply parse_direct_mapping. }
  destruct (is_str (get m "transformation") "conditional") eqn:Ec; [|done].
  by apply parse_cond_mapping.
Qed.

Lemma alter_last {A} (f : A -> A) (pre : list A) (x : A) :
  alter f (length pre) (pre ++ [x]) = pre ++ [f x].
Proof. induction pre as [|y pre IH]; [done|]. cbn. by rewrite IH. Qed.

Lemma body_lines (in_main : bool) (ms : list Mapping) (acc : list str) :
  forallb round_trippable ms = true ->
  forEach (if in_main then main_mapping else helper_mapping) ms acc
  = Ok (acc ++ concat (map (mapping_lines in_main) ms)).
Proof.
  revert acc. induction ms as [|m ms IH]; intros acc.
  - intros _. cbn. by rewrite app_nil_r.
  - cbn [forallb forEach map concat]. intros [Hm Hms]%andb_true_iff.
    rewrite mapping_lines_ok by done. cbn [mbind result_bind].
    rewrite IH by done. by rewrite app_assoc.
Qed.

Lemma parse_body (in_main : bool) (ms : list Mapping) :
  forallb round_trippable ms = true ->
  forall (st : pstate) (pre : list Module) (md0 : Module),
    ps_modules st = pre ++ [md0] ->
    currentModule st = Some (length pre) ->
    exists (new : list Mapping) (st' : pstate),
      fold_left (parse_line uid) (concat (map (mapping_lines in_main) ms)) st = st'
      /\ Forall2 same_entry ms new
      /\ ps_modules st' = pre ++ [set_mappings (mappings md0 ++ new) md0]
      /\ currentModule st' = Some (length pre).
Proof.
  induction ms as [|m ms IH]; intros Hok st pre md0 Hmods Hcur.
  - exists [], st. cbn. rewrite app_nil_r. destruct md0. by rewrite Hmods.
  - cbn [forallb] in Hok. apply andb_true_iff in Hok as [Hm Hms].
    destruct (parse_mapping_lines in_main st (length pre) m Hm Hcur)
      as (fields & Hfold & Hsame).
    cbn [map concat]. rewrite fold_left_app, Hfold.
    set (m' := obj (("id", Str (uid (uid_calls st))) :: fields)).
    destruct (IH Hms (add_mapping uid st (length pre) fields) pre
                (set_mappings (mappings md0 ++ [m']) md0))
      as (new & st' & Hst' & Hnew & Hmods' & Hcur').
    { cbn [add_mapping ps_modules]. rewrite Hmods. by rewrite alter_last. }
    { done. }
    exists (m' :: new), st'. split; [done|].
    split; [constructor; [apply Hsame|done]|].
    split; [|done]. rewrite Hmods'. cbn. by rewrite <- app_assoc.
Qed.

Lemma parse_docstring_line (st : pstate) (n : str) :
  word n = true -> parse_line uid st (indent (docstring_line n)) = st.
Proof.
  intros Hw.
  assert (trim (indent (docstring_line n)) = docstring_line n) as E.
  { apply trim_statement; [done|]. unfold docstring_line.
    do 3 apply ends_tight_app. by split. }
  apply parse_line_plain; rewrite E; [done|done|].
  unfold docstring_line. rewrite !includes_app, (word_no_bracket n Hw). done.
Qed.

(** A sub-routine is read back as one more module of the same name. *)
Lemma parse_subroutine (md : Module) (st : pstate) :
  module_ok md = true ->
  exists (md' : Module) (st' : pstate),
    fold_left (parse_line uid) (subroutine_lines md) st = st'
    /\ recovered md md'
    /\ ps_modules st' = ps_modules st ++ [md']
    /\ currentModule st' = Some (length (ps_modules st)).
Proof.
  intros [Hw Hms]%andb_true_iff.
  destruct (parse_body false (mappings md) Hms
              (open_module uid st (name md)) (ps_modules st)
              (mkModule (uid (uid_calls st)) (name md) []))
    as (new & st' & Hst' & Hnew & Hmods & Hcur); [done|done|].
  exists (mkModule (uid (uid_calls st)) (name md) new), st'.
  split; [|split; [|split]].
  - unfold subroutine_lines. cbn [fold_left app]. rewrite fold_left_app.
    rewrite parse_line_def, parse_docstring_line, Hst' by done.
    cbn [fold_left]. apply parse_line_plain; done.
  - split; [reflexivity|]. exact Hnew.
  - exact Hmods.
  - exact Hcur.
Qed.

(** *** The generated lines hold no newline *)

Lemma method_suffix_no_nl (tr : jsval) : includes chr_nl (method_suffix tr) = false.
Proof. by apply includes_method_suffix. Qed.

Lemma brackets_no_nl (segs : list str) :
  Forall (fun p => word p = true) segs ->
  includes chr_nl (concat (map bracket segs)) = false.
Proof.
  induction 1 as [|p segs Hp _ IH]; [done|]. cbn [map concat].
  rewrite includes_app, IH. unfold bracket.
  rewrite !includes_app, (word_no_nl p Hp). done.
Qed.

Lemma path_no_nl (s : str) : forallb word_or_dot s = true -> includes chr_nl s = false.
Proof. by apply excludes_forallb. Qed.

Lemma mapping_lines_no_nl (in_main : bool) (m : Mapping) :
  round_trippable m = true ->
  Forall (fun l => includes chr_nl l = false) (mapping_lines in_main m).
Proof.
  unfold round_trippable, mapping_lines. intros H.
  destruct (is_str (get m "type") "module_call").
  { unfold call_ok in H.
    destruct (get m "moduleName") as [| | |callee] eqn:Ec; try done.
    apply andb_true_iff in H as [[[Hw _]%andb_true_iff _]%andb_true_iff _].
    cbn [to_string]. unfold indent, comment_line, call_line.
    apply Forall_app. split.
    - repeat constructor; rewrite !includes_app, (word_no_nl callee Hw); done.
    - destruct in_main; by repeat constructor. }
  destruct (is_str (get m "transformation") "direct").
  { unfold direct_ok in H. apply andb_true_iff in H as [_ H].
    destruct (get m "target") as [| | |tg] eqn:Etg; try done.
    destruct (get m "source") as [| | |src] eqn:Esrc; try done.
    apply andb_true_iff in H as [Hdot Hsrc].
    unfold dotted in Hdot. rewrite forallb_forall in Hdot.
    assert (Forall (fun p => word p = true) (split chr_dot tg)) as Hsegs.
    { apply List.Forall_forall. intros p Hp. by apply Hdot. }
    assert (forallb word_or_dot src = true) as Hpath.
    { destruct (includes chr_dot tg); [by destruct src|by apply word_path]. }
    repeat constructor.
    unfold indent, direct_statement, nested_line, assign_tail.
    rewrite Etg, Esrc. cbn [to_string].
    rewrite !includes_app, brackets_no_nl, (path_no_nl src),
      method_suffix_no_nl by done. done. }
  destruct (is_str (get m "transformation") "conditional"); [|done].
  destruct (cond_ok_facts m H)
    as (tg & th & Htg & Hw & _ & _ & _ & Hf & Hop & Hv & _ & Hth & Hthd & Hthl
        & el & Hel & Hell).
  destruct (branch_code_facts _ th Hth) as (_ & _ & _ & _ & Hnl1 & _);
    [by rewrite Hthd|].
  destruct (branch_code_facts _ el Hel) as (_ & _ & _ & _ & Hnl2 & _); [done|].
  repeat constructor.
  unfold indent, cond_statement, cond_line, cond_code. rewrite Htg.
  cbn [to_string].
  rewrite !includes_app, Hnl1, Hnl2, (word_no_nl tg), (word_no_nl _ Hf),
    (is_op_no_nl _ Hop), (literal_no_nl _ Hv) by done.
  done.
Qed.

Lemma body_no_nl (in_main : bool) (ms : list Mapping) :
  forallb round_trippable ms = true ->
  Forall (fun l => includes chr_nl l = false)
         (concat (map (mapping_lines in_main) ms)).
Proof.
  induction ms as [|m ms IH]; [by constructor|].
  cbn [forallb map concat]. intros [Hm Hms]%andb_true_iff.
  apply Forall_app. split; [by apply mapping_lines_no_nl|by apply IH].
Qed.

Lemma spec_subroutine_lines (md : Module) :
  module_ok md = true -> spec_subroutine md = Ok (subroutine_lines md).
Proof.
  intros [Hw Hms]%andb_true_iff. unfold spec_subroutine.
  by rewrite (body_lines false).
Qed.

Lemma spec_entry_point_lines (md : Module) :
  module_ok md = true -> spec_entry_point md = Ok (entry_point_lines md).
Proof.
  intros [Hw Hms]%andb_true_iff. unfold spec_entry_point.
  by rewrite (body_lines true).
Qed.

Lemma subroutine_no_nl (md : Module) :
  module_ok md = true ->
  Forall (fun l => includes chr_nl l = false) (subroutine_lines md).
Proof.
  intros [Hw Hms]%andb_true_iff. unfold subroutine_lines.
  rewrite !Forall_app. split; [|split].
  - unfold def_line, indent, docstring_line.
    repeat constructor; rewrite !includes_app, (word_no_nl _ Hw); done.
  - by apply body_no_nl.
  - by repeat constructor.
Qed.

Lemma entry_point_no_nl (md : Module) :
  module_ok md = true ->
  Forall (fun l => includes chr_nl l = false) (entry_point_lines md).
Proof.
  intros [Hw Hms]%andb_true_iff. unfold entry_point_lines.
  rewrite !Forall_app. split; [|split].
  - by repeat constructor.
  - by apply body_no_nl.
  - by repeat constructor.
Qed.

(** The entry point is read back as one more module, named [main]. *)
Lemma parse_entry_point (md : Module) (st : pstate) :
  module_ok md = true -> is_main md = true ->
  exists (md' : Module),
    recovered md md'
    /\ ps_modules (fold_left (parse_line uid) (entry_point_lines md) st)
       = ps_modules st ++ [md'].
Proof.
  intros [Hw Hms]%andb_true_iff Hmain.
  assert (name md = lit "main") as Hname.
  { unfold is_main, str_eqb in Hmain. by apply bool_decide_eq_true in Hmain. }
  destruct (parse_body true (mappings md) Hms
              (open_module uid st (lit "main")) (ps_modules st)
              (mkModule (uid (uid_calls st)) (lit "main") []))
    as (new & st' & Hst' & Hnew & Hmods & Hcur); [done|done|].
  exists (mkModule (uid (uid_calls st)) (lit "main") new). split.
  { split; [by rewrite Hname|exact Hnew]. }
  unfold entry_point_lines. rewrite !fold_left_app. cbn [fold_left].
  rewrite parse_line_main.
  rewrite !(parse_line_plain (open_module uid st (lit "main")))
    by (by vm_compute).
  rewrite Hst'. rewrite !parse_line_plain by (by vm_compute). exact Hmods.
Qed.

Lemma round_trippable_no_regex (m : Mapping) :
  round_trippable m = true -> uses_regex m = false.
Proof.
  unfold round_trippable, uses_regex.
  destruct (is_str (get m "type") "module_call").
  { unfold call_ok. intros [[_ H]%andb_true_iff _]%andb_true_iff.
    apply undefined_eq in H. by rewrite H. }
  destruct (is_str (get m "transformation") "direct") eqn:E.
  { apply is_str_eq in E. by rewrite E. }
  destruct (is_str (get m "transformation") "conditional") eqn:E'; [|done].
  apply is_str_eq in E'. by rewrite E'.
Qed.

Lemma modules_no_regex (ms : list Module) :
  forallb module_ok ms = true ->
  existsb (fun m => existsb uses_regex (mappings m)) ms = false.
Proof.
  induction ms as [|md ms IH]; [done|]. cbn [forallb existsb].
  intros [[_ Hmd]%andb_true_iff Hms]%andb_true_iff. rewrite (IH Hms), orb_false_r.
  induction (mappings md) as [|m l IHl]; [done|]. cbn [forallb existsb] in *.
  apply andb_true_iff in Hmd as [Hm Hl].
  by rewrite (round_trippable_no_regex m Hm), (IHl Hl).
Qed.

Lemma subroutines_lines (hs : list Module) :
  forallb module_ok hs = true ->
  mapM spec_subroutine hs = Ok (map subroutine_lines hs).
Proof.
  induction hs as [|md hs IH]; [done|]. cbn [forallb mapM map].
  intros [Hmd Hhs]%andb_true_iff.
  by rewrite spec_subroutine_lines, (IH Hhs).
Qed.

Lemma forallb_filter {A} (p : A -> bool) (P : A -> Prop)
  `{!forall x, Decision (P x)} (l : list A) :
  forallb p l = true -> forallb p (filter P l) = true.
Proof.
  induction l as [|x l IH]; [done|]. cbn [forallb].
  intros [Hx Hl]%andb_true_iff. rewrite filter_cons.
  destruct (decide (P x)); [cbn [forallb]; rewrite Hx|]; by apply IH.
Qed.

(** The text generated from recoverable modules. *)
Lemma generateCode_lines (ms : list Module) (mainModule : Module) :
  forallb module_ok ms = true ->
  List.find is_main ms = Some mainModule ->
  generateCode ms = Ok (join nl (generated_lines ms mainModule)).
Proof.
  intros Hok Hfind. unfold generateCode.
  rewrite generateLines_layout. unfold spec_layout.
  rewrite subroutines_lines by (by apply forallb_filter).
  cbn [mbind result_bind]. rewrite Hfind.
  rewrite spec_entry_point_lines.
  - cbn [mbind result_bind]. unfold spec_preamble.
    rewrite modules_no_regex by done. unfold generated_lines, header_lines.
    by rewrite app_nil_r.
  - apply find_some in Hfind as [Hin _].
    rewrite forallb_forall in Hok. by apply Hok.
Qed.

Lemma parse_subroutines (hs : list Module) :
  forallb module_ok hs = true ->
  forall st : pstate,
    exists mds' : list Module,
      Forall2 recovered hs mds'
      /\ ps_modules (fold_left (parse_line uid)
                       (concat (map subroutine_lines hs)) st)
         = ps_modules st ++ mds'.
Proof.
  induction hs as [|md hs IH]; intros Hok st.
  - exists []. split; [constructor|]. cbn. by rewrite app_nil_r.
  - cbn [forallb] in Hok. apply andb_true_iff in Hok as [Hmd Hhs].
    destruct (parse_subroutine md st Hmd) as (md' & st' & Hst' & Hrec & Hmods & _).
    destruct (IH Hhs st') as (mds' & Hrecs & Hmods').
    exists (md' :: mds'). split; [by constructor|].
    cbn [map concat]. rewrite fold_left_app, Hst', Hmods', Hmods.
    by rewrite <- app_assoc.
Qed.

Lemma generated_lines_no_nl (ms : list Module) (mainModule : Module) :
  forallb module_ok ms = true -> module_ok mainModule = true ->
  Forall (fun l => includes chr_nl l = false) (generated_lines ms mainModule).
Proof.
  intros Hok Hmain. unfold generated_lines. rewrite !Forall_app.
  split; [by repeat constructor|]. split; [|by apply entry_point_no_nl].
  apply (forallb_filter _ (fun md => is_helper md = true)) in Hok.
  induction (filter _ ms) as [|md hs IH]; [constructor|].
  cbn [forallb map concat] in *. apply andb_true_iff in Hok as [Hmd Hhs].
  apply Forall_app. split; [by apply subroutine_no_nl|by apply IH].
Qed.

(** The parser reads the generated text back as the modules that are not
    named [main] and hold a mapping, in their order, followed by the
    module [main]. *)
Lemma parseTemplate_generated (uids : nat) (ms : list Module) (mainModule : Module) :
  forallb module_ok ms = true ->
  List.find is_main ms = Some mainModule ->
  exists (mds' : list Module) (main' : Module),
    parsed_modules (parseTemplate uid uids (join nl (generated_lines ms mainModule)))
    = Some (mds' ++ [main'])
    /\ Forall2 recovered (filter (fun md => is_helper md = true) ms) mds'
    /\ recovered mainModule main'.
Proof.
  intros Hok Hfind.
  assert (module_ok mainModule = true /\ is_main mainModule = true) as [Hmok Hmain].
  { apply find_some in Hfind as [Hin Hm]. split; [|done].
    rewrite forallb_forall in Hok. by apply Hok. }
  unfold parseTemplate. cbn [parsed_modules].
  rewrite split_join by
    (by apply generated_lines_no_nl || by unfold generated_lines, header_lines).
  unfold generated_lines. rewrite !fold_left_app.
  rewrite (fold_parse_line_outside uid header_lines) by (by vm_compute).
  destruct (parse_subroutines
              (filter (fun md => is_helper md = true) ms)
              (forallb_filter _ _ _ Hok) (parse_init uids))
    as (mds' & Hrecs & Hmods).
  destruct (parse_entry_point mainModule
              (fold_left (parse_line uid)
                 (concat (map subroutine_lines
                            (filter (fun md => is_helper md = true) ms)))
                 (parse_init uids)) Hmok Hmain)
    as (main' & Hrec & Hmods').
  exists mds', main'. rewrite Hmods', Hmods. cbn [parse_init ps_modules app].
  rewrite length_app. cbn [length].
  replace (0 <? length mds' + 1) with true by (symmetry; apply Nat.ltb_lt; lia).
  done.
Qed.

End Recovered.

(** ** Comparing a model with what is read back *)

(** The assignments that [calculateChanges] makes to a flat dictionary, in
    order. *)
Definition entries (ms : list Module) : dict :=
  concat (map (fun md => map (fun m => (flat_key md m, flat_entry md m))
                             (mappings md)) ms).

(** The value last assigned to key [k]. *)
Fixpoint last_with (k : str) (es : dict) : option Mapping :=
  match es with
  | [] => None
  | (k', v) :: es' =>
      match last_with k es' with
      | Some w => Some w
      | None => if str_eqb k k' then Some v else None
      end
  end.

(** Two lists of assignments that end, for each key, with values that the
    diff engine does not tell apart. *)
Definition agree (original current : dict) : Prop :=
  forall k,
    match last_with k original, last_with k current with
    | Some o, Some c => differs c o = false
    | None, None => True
    | _, _ => False
    end.

Section Diff.

Lemma flatten_entries (ms : list Module) :
  flatten ms = fold_left (fun flat kv => dict_set kv.1 kv.2 flat) (entries ms) [].
Proof.
  unfold flatten, entries. generalize (@nil (str * Mapping)).
  induction ms as [|md ms IH]; intros d; [done|].
  cbn [fold_left map concat]. rewrite fold_left_app, IH. f_equal.
  generalize d. clear. induction (mappings md) as [|m l IHl]; intros d; [done|].
  cbn [fold_left map]. by rewrite IHl.
Qed.

Lemma dict_get_set (k k' : str) (v : Mapping) (d : dict) :
  dict_get k (dict_set k' v d) = if str_eqb k k' then Some v else dict_get k d.
Proof.
  induction d as [|[k0 v0] d IH]; [done|]. cbn [dict_set dict_get].
  unfold str_eqb in *.
  destruct (bool_decide_reflect (k' = k0)) as [->|Hne]; cbn [dict_get].
  - unfold str_eqb. by destruct (bool_decide (k = k0)).
  - unfold str_eqb. rewrite IH.
    destruct (bool_decide_reflect (k = k0)) as [->|Hne']; [|done].
    by rewrite bool_decide_eq_false_2.
Qed.

Lemma dict_get_fold (k : str) (es d : dict) :
  dict_get k (fold_left (fun flat kv => dict_set kv.1 kv.2 flat) es d)
  = match last_with k es with
    | Some w => Some w
    | None => dict_get k d
    end.
Proof.
  revert d. induction es as [|[k' v] es IH]; intros d; [done|].
  cbn [fold_left last_with]. rewrite IH, dict_get_set. cbn [fst snd].
  destruct (last_with k es); [done|]. by destruct (str_eqb k k').
Qed.

Lemma dict_get_flatten (k : str) (ms : list Module) :
  dict_get k (flatten ms) = last_with k (entries ms).
Proof.
  rewrite flatten_entries, dict_get_fold. by destruct (last_with _ _).
Qed.

Lemma dict_set_keys (k : str) (v : Mapping) (d : dict) :
  NoDup d.*1 -> NoDup (dict_set k v d).*1
  /\ forall k0, k0 ∈ (dict_set k v d).*1 -> k0 = k \/ k0 ∈ d.*1.
Proof.
  induction d as [|[k0 v0] d IH]; intros Hd.
  - split; [apply NoDup_singleton|]. cbn. intros k0 ->%list_elem_of_singleton.
    by left.
  - cbn [dict_set]. unfold str_eqb.
    destruct (bool_decide_reflect (k = k0)) as [->|Hne].
    + split; [done|]. intros k1 Hk1. by right.
    + apply NoDup_cons in Hd as [Hk0 Hd]. destruct (IH Hd) as [IH1 IH2].
      split.
      * cbn. apply NoDup_cons. split; [|done].
        intros [->|Hin]%IH2; done.
      * cbn. intros k1 [->|Hin]%elem_of_cons.
        -- right. by left.
        -- destruct (IH2 _ Hin) as [->|H]; [by left|]. right. by right.
Qed.

Lemma fold_set_keys (es d : dict) :
  NoDup d.*1 ->
  NoDup (fold_left (fun flat kv => dict_set kv.1 kv.2 flat) es d).*1.
Proof.
  revert d. induction es as [|[k v] es IH]; intros d Hd; [done|].
  cbn [fold_left]. apply IH. by apply dict_set_keys.
Qed.

Lemma dict_get_elem (k : str) (v : Mapping) (d : dict) :
  NoDup d.*1 -> (k, v) ∈ d -> dict_get k d = Some v.
Proof.
  induction d as [|[k0 v0] d IH]; intros Hd Hin.
  - by apply elem_of_nil in Hin.
  - apply NoDup_cons in Hd as [Hk0 Hd]. cbn [dict_get]. unfold str_eqb.
    apply elem_of_cons in Hin as [[= -> ->]|Hin].
    + by rewrite bool_decide_eq_true_2.
    + rewrite bool_decide_eq_false_2; [by apply IH|].
      intros ->. apply Hk0. apply list_elem_of_fmap. by exists (k0, v).
Qed.

Lemma flatten_elem (k : str) (v : Mapping) (ms : list Module) :
  (k, v) ∈ flatten ms -> last_with k (entries ms) = Some v.
Proof.
  intros Hin. rewrite <- dict_get_flatten. apply dict_get_elem; [|done].
  rewrite flatten_entries. apply fold_set_keys. constructor.
Qed.

Lemma omap_none {A B} (f : A -> option B) (l : list A) :
  (forall x, x ∈ l -> f x = None) -> omap f l = [].
Proof.
  induction l as [|x l IH]; intros H; [done|]. cbn.
  rewrite (H x) by (by left). apply IH. intros y Hy. apply H. by right.
Qed.

Lemma omap_all {A B} (f : A -> option B) (g : A -> B) (l : list A) :
  (forall x, x ∈ l -> f x = Some (g x)) -> omap f l = map g l.
Proof.
  induction l as [|x l IH]; intros H; [done|]. cbn.
  rewrite (H x) by (by left). f_equal. apply IH. intros y Hy. apply H. by right.
Qed.

(** When the assignments agree, every key of the current dictionary is
    filed under [unchanged] and nothing else is reported. *)
Lemma agree_unchanged (original current : list Module) :
  agree (entries original) (entries current) ->
  calculateChanges (Some original) current
  = {| added := []; removed := []; modified := [];
       unchanged := (flatten current).*2 |}.
Proof.
  intros Hag. unfold calculateChanges.
  rewrite classify_current_fold, classify_original_fold. cbn.
  f_equal.
  - apply omap_none. intros [k c] Hin. cbn [fst snd].
    apply flatten_elem in Hin. rewrite dict_get_flatten.
    specialize (Hag k). rewrite Hin in Hag.
    by destruct (last_with k (entries original)).
  - apply omap_none. intros [k o] Hin. cbn [fst snd].
    apply flatten_elem in Hin. rewrite dict_get_flatten.
    specialize (Hag k). rewrite Hin in Hag.
    by destruct (last_with k (entries current)).
  - apply omap_none. intros [k c] Hin. cbn [fst snd].
    apply flatten_elem in Hin. rewrite dict_get_flatten.
    specialize (Hag k). rewrite Hin in Hag.
    destruct (last_with k (entries original)); [|done]. by rewrite Hag.
  - apply omap_all. intros [k c] Hin. cbn [fst snd].
    apply flatten_elem in Hin. rewrite dict_get_flatten.
    specialize (Hag k). rewrite Hin in Hag.
    destruct (last_with k (entries original)); [|done]. by rewrite Hag.
Qed.

Lemma last_with_app (k : str) (a b : dict) :
  last_with k (a ++ b)
  = match last_with k b with
    | Some w => Some w
    | None => last_with k a
    end.
Proof.
  induction a as [|[k' v] a IH]; cbn [app last_with].
  - by destruct (last_with k b).
  - rewrite IH. by destruct (last_with k b).
Qed.

Lemma last_with_key (k : str) (es : dict) (v : Mapping) :
  last_with k es = Some v -> k ∈ es.*1.
Proof.
  induction es as [|[k' v'] es IH]; [done|]. cbn [last_with].
  destruct (last_with k es) as [w|].
  - intros H. right. by apply IH.
  - unfold str_eqb. destruct (bool_decide_reflect (k = k')) as [->|]; [|done].
    intros _. by left.
Qed.

(** Assignments to distinct sets of keys can be exchanged. *)
Lemma last_with_exchange (k : str) (a b : dict) :
  (forall k, k ∈ a.*1 -> k ∈ b.*1 -> False) ->
  last_with k (a ++ b) = last_with k (b ++ a).
Proof.
  intros Hdis. rewrite !last_with_app.
  destruct (last_with k a) as [v|] eqn:Ea, (last_with k b) as [w|] eqn:Eb;
    try done.
  destruct (Hdis k); by eapply last_with_key.
Qed.

Lemma entries_app (a b : list Module) : entries (a ++ b) = entries a ++ entries b.
Proof. unfold entries. by rewrite map_app, concat_app. Qed.

Lemma entries_helpers (ms : list Module) :
  forallb (fun md => negb (is_main md)) ms = true ->
  entries (filter (fun md => is_helper md = true) ms) = entries ms.
Proof.
  induction ms as [|md ms IH]; [done|]. cbn [forallb].
  intros [Hmd Hms]%andb_true_iff.
  change (md :: ms) with ([md] ++ ms). rewrite filter_app, !entries_app, (IH Hms).
  f_equal. rewrite filter_cons, filter_nil.
  destruct (decide (is_helper md = true)) as [|Hno]; [done|].
  unfold is_helper in Hno. rewrite Hmd in Hno. cbn [andb] in Hno.
  unfold entries. cbn. destruct (mappings md); [done|]. by destruct Hno.
Qed.

(** The key says which module it belongs to. *)
Lemma key_module (n n' r r' : str) :
  forallb is_word n = true -> forallb is_word n' = true ->
  n ++ ":"%char :: r = n' ++ ":"%char :: r' -> n = n'.
Proof.
  revert n'. induction n as [|a n IH]; intros [|a' n']; cbn [forallb app]; try done.
  - intros _ [Ha _]%andb_true_iff [= <- _]. done.
  - intros [Ha _]%andb_true_iff _ [= -> _]. done.
  - intros [_ Hn]%andb_true_iff [_ Hn']%andb_true_iff [= -> H].
    f_equal. by apply IH.
Qed.

Lemma key_suffix_colon (m : Mapping) : exists r, key_suffix m = ":"%char :: r.
Proof. unfold key_suffix. destruct (is_str _ _); by eexists. Qed.

Lemma entries_key (k : str) (ms : list Module) :
  k ∈ (entries ms).*1 ->
  exists md r, md ∈ ms /\ k = name md ++ ":"%char :: r.
Proof.
  induction ms as [|md ms IH].
  - by intros ?%elem_of_nil.
  - change (md :: ms) with ([md] ++ ms). rewrite entries_app, fmap_app.
    intros [Hin|Hin]%elem_of_app.
    + unfold entries in Hin. cbn in Hin. rewrite app_nil_r in Hin.
      apply list_elem_of_fmap in Hin as ([k' e] & -> & Hin).
      apply list_elem_of_fmap in Hin as (m & [= -> _] & _).
      destruct (key_suffix_colon m) as [r Hr].
      exists md, r. split; [by left|]. by rewrite flat_key_suffix, Hr.
    + destruct (IH Hin) as (md' & r & Hmd' & ->).
      exists md', r. split; [by right|done].
Qed.

Lemma get_flat_entry (md : Module) (m : Mapping) (f : string) :
  f ≠ "module" -> get (flat_entry md m) f = get m f.
Proof.
  intros Hf. unfold get, flat_entry.
  by rewrite lookup_union_l by (by apply lookup_singleton_ne).
Qed.

Lemma strict_ne_refl (v : jsval) : strict_ne v v = false.
Proof. unfold strict_ne, strict_eq. by rewrite bool_decide_eq_true_2. Qed.

Lemma same_entry_differs (md md' : Module) (m m' : Mapping) :
  same_entry m m' -> differs (flat_entry md' m') (flat_entry md m) = false.
Proof.
  intros (_ & H1 & H2 & H3 & H4). unfold differs.
  rewrite !get_flat_entry by done. rewrite H1, H2, H3, H4.
  by rewrite !strict_ne_refl.
Qed.

(** Assignment by assignment: the same key, and values that the diff
    engine does not tell apart. *)
Definition matched (e e' : str * Mapping) : Prop :=
  e'.1 = e.1 /\ differs e'.2 e.2 = false.

Lemma entries_recovered (ms ms' : list Module) :
  Forall2 recovered ms ms' -> Forall2 matched (entries ms) (entries ms').
Proof.
  induction 1 as [|md md' ms ms' [Hname Hmaps] _ IH]; [constructor|].
  change (md :: ms) with ([md] ++ ms). change (md' :: ms') with ([md'] ++ ms').
  rewrite !entries_app. apply Forall2_app; [|done].
  unfold entries. cbn [map concat]. rewrite !app_nil_r.
  induction Hmaps as [|m m' l l' Hm _ IHl]; [constructor|].
  cbn [map]. constructor; [|done]. split; cbn [fst snd].
  - rewrite !flat_key_suffix, Hname. f_equal. apply Hm.
  - by apply same_entry_differs.
Qed.

Lemma agree_matched (es es' : dict) : Forall2 matched es es' -> agree es es'.
Proof.
  intros H k. induction H as [|[k0 v] [k0' v'] es es' [Hk Hd] _ IH]; [done|].
  cbn [fst snd] in *. subst k0'. cbn [last_with].
  destruct (last_with k es), (last_with k es'); try done.
  by destruct (str_eqb k k0).
Qed.

Lemma differs_sym (a b : Mapping) : differs a b = differs b a.
Proof.
  assert (forall x y, strict_ne x y = strict_ne y x) as Hsym.
  { intros x y. unfold strict_ne, strict_eq. f_equal. by apply bool_decide_ext. }
  unfold differs.
  by rewrite (Hsym (get a "source")), (Hsym (get a "transformation")),
    (Hsym (get a "transform")), (Hsym (get a "moduleName")).
Qed.

Lemma agree_sym (a b : dict) : agree a b -> agree b a.
Proof.
  intros H k. specialize (H k).
  destruct (last_with k a), (last_with k b); try done. by rewrite differs_sym.
Qed.

(** Reading the text back amounts to moving the module [main] to the end
    and leaving out the modules without mapping: the assignments to the
    flat dictionary still agree. *)
Lemma agree_generated (before after : list Module) (mainModule : Module)
  (mds' : list Module) (main' : Module) :
  is_main mainModule = true ->
  forallb (fun md => negb (is_main md)) (before ++ after) = true ->
  forallb module_ok (before ++ mainModule :: after) = true ->
  Forall2 recovered
    (filter (fun md => is_helper md = true) (before ++ mainModule :: after)) mds' ->
  recovered mainModule main' ->
  agree (entries (before ++ mainModule :: after)) (entries (mds' ++ [main'])).
Proof.
  intros Hmain Hno Hok Hrecs Hrec.
  rewrite forallb_app in Hno. apply andb_true_iff in Hno as [Hb Ha].
  assert (Forall2 matched
            (entries (before ++ after) ++ entries [mainModule])
            (entries (mds' ++ [main']))) as Hm.
  { rewrite (entries_app mds'). apply Forall2_app.
    - rewrite <- entries_helpers by (by rewrite forallb_app, Hb, Ha).
      apply entries_recovered.
      revert Hrecs. rewrite !filter_app, filter_cons.
      rewrite decide_False; [done|]. unfold is_helper. by rewrite Hmain.
    - apply entries_recovered. constructor; [done|constructor]. }
  apply agree_matched in Hm. intros k. specialize (Hm k).
  replace (last_with k (entries (before ++ mainModule :: after)))
    with (last_with k (entries (before ++ after) ++ entries [mainModule]));
    [done|].
  change (mainModule :: after) with ([mainModule] ++ after).
  rewrite !entries_app, <- app_assoc, !(last_with_app k (entries before)).
  rewrite (last_with_exchange k (entries after)); [done|].
  intros k' (md & r & Hmd & ->)%entries_key (mn & r' & Hmn & E)%entries_key.
  apply list_elem_of_singleton in Hmn as ->.
  rewrite forallb_forall in Hok, Ha.
  assert (module_ok md = true) as [Hw _]%andb_true_iff.
  { apply Hok. apply list_elem_of_In. rewrite !elem_of_app. right. by right. }
  assert (module_ok mainModule = true) as [Hw' _]%andb_true_iff.
  { apply Hok. apply list_elem_of_In. rewrite !elem_of_app. right. by left. }
  apply key_module in E; [|by apply word_forallb..].
  assert (negb (is_main md) = true) as Hnm.
  { apply Ha. by apply list_elem_of_In. }
  unfold is_main in *. by rewrite E, Hmain in Hnm.
Qed.

End Diff.

(** ** The round trip *)

Definition field_of (target source : string) (transform : jsval) : Mapping :=
  obj [ ("id", Str (lit "m_9")); ("type", Str (lit "field"));
        ("target", Str (lit target)); ("source", Str (lit source));
        ("transformation", Str (lit "direct")); ("transform", transform);
        ("isNew", Bool true) ].

Definition conditional_of (target field op value thenValue elseValue : string)
  : Mapping :=
  obj [ ("id", Str (lit "m_9")); ("type", Str (lit "field"));
        ("target", Str (lit target)); ("condField", Str (lit field));
        ("condOp", Str (lit op)); ("condValue", Str (lit value));
        ("thenValue", Str (lit thenValue)); ("elseValue", Str (lit elseValue));
        ("transformation", Str (lit "conditional")); ("isNew", Bool true) ].

(** A model of the recoverable class: a module without mapping, a helper
    and the module [main] between them. *)
Definition round_trip_before : list Module :=
  [ mkModule (lit "m_1") (lit "empty") [];
    mkModule (lit "m_2") (lit "helper")
      [ field_of "y" "b" (Str (lit "upper"));
        call_of "helper";
        field_of "q.r.s" "b.c" (Str (lit "capitalize"));
        field_of "y" "c" (Str (lit "lower")) ] ].

Definition round_trip_main : Module :=
  mkModule (lit "m_3") (lit "main")
    [ field_of "x" "a" Null;
      field_of "a.b" "c.d" Null;
      call_of "helper";
      conditional_of "w" "f" "!=" "v" "yes" "a.b";
      conditional_of "w2" "f" "<" "v w" "yes sir" "no" ].

Definition round_trip_after : list Module :=
  [ mkModule (lit "m_4") (lit "other") [ field_of "x" "a" Null ] ].

(** Models of the class the specification names that do not survive. *)
Definition dotted_source_model : list Module :=
  [ mkModule (lit "m_1") (lit "main") [ field_of "x" "a.b" Null ] ].

Definition format_ssn_model : list Module :=
  [ mkModule (lit "m_1") (lit "main")
      [ field_of "x" "a" (Str (lit "format_ssn")) ] ].

Definition unset_transform_model : list Module :=
  [ mkModule (lit "m_1") (lit "main")
      [ obj [ ("id", Str (lit "m_9")); ("target", Str (lit "x"));
              ("source", Str (lit "a")); ("transformation", Str (lit "direct"));
              ("type", Str (lit "field")); ("isNew", Bool false) ] ] ].

Definition dotted_then_model : list Module :=
  [ mkModule (lit "m_1") (lit "main")
      [ conditional_of "x" "f" "==" "v" "a.b" "no" ] ].

(** [parseTemplate(generateCode(modules))] and the report of the diff
    engine on it, with [modules] as the original. *)
Definition round_trip (uid : nat -> str) (uids : nat) (modules : list Module)
  : option (list Module * Changes) :=
  match generateCode modules with
  | Ok code =>
      match parsed_modules (parseTemplate uid uids code) with
      | Some parsedModules =>
          Some (parsedModules, calculateChanges (Some modules) parsedModules)
      | None => None
      end
  | Throw _ => None
  end.

(** C1 (as stated) fails. Each of these models holds one mapping of the
    main module, of the direct or of the conditional kind and with a target:
    a direct mapping with the dotted source [a.b] is read back with the
    source [a] and reported as modified; a direct mapping with the
    transform [format_ssn] is not read back at all and reported as removed;
    a direct mapping without the property [transform], as the editor
    creates it, is read back with the transform [null] and reported as
    modified; a conditional mapping whose then-value is the path [a.b] is
    read back as a direct mapping and reported as modified. *)
Lemma C1_counterexample :
  (exists parsedModules ch,
     round_trip uid_sample 0 dotted_source_model = Some (parsedModules, ch)
     /\ length (modified ch) = 1)
  /\ (exists parsedModules ch,
        round_trip uid_sample 0 format_ssn_model = Some (parsedModules, ch)
        /\ length (removed ch) = 1)
  /\ (exists parsedModules ch,
        round_trip uid_sample 0 unset_transform_model = Some (parsedModules, ch)
        /\ length (modified ch) = 1)
  /\ (exists parsedModules ch,
        round_trip uid_sample 0 dotted_then_model = Some (parsedModules, ch)
        /\ length (modified ch) = 1).
Proof.
  split; [|split; [|split]]; eexists _, _; split; try (vm_compute; reflexivity);
    vm_compute; reflexivity.
Qed.

(** C1 (amended). Let a model hold exactly one module named [main], let
    every module name be an identifier, and let every mapping be a module
    call whose callee is an identifier, a direct mapping, or a conditional
    mapping, where: a direct mapping has a target that is a dotted path of
    identifiers, a transform that is [null], [upper], [lower] or
    [capitalize], and a source that is an identifier under a single-segment
    target and a non-empty text of identifier characters and dots under a
    nested one; a conditional mapping has a single-segment identifier as
    target, an identifier as condition field, one of the four operators, a
    condition value without double quote, a then-value without dot, these
    two values without line terminator or opening bracket, and an
    else-value that is either such a text without dot or made of identifier
    characters and dots (each after the placeholder that stands in for an
    empty one); and the fields among
    [source], [transform], [transformation] and [moduleName] that a kind
    does not use are absent. Then [generateCode] returns a text,
    [parseTemplate] reads modules back from it whatever identifiers [uid()]
    draws, and the diff engine reports nothing added, removed or modified
    between the model and these modules, in either direction. *)
Theorem C1_round_trip_recoverable (uid : nat -> str) (uids : nat)
  (before after : list Module) (mainModule : Module) :
  is_main mainModule = true ->
  forallb (fun md => negb (is_main md)) (before ++ after) = true ->
  forallb module_ok (before ++ mainModule :: after) = true ->
  exists (code : str) (parsedModules : list Module),
    generateCode (before ++ mainModule :: after) = Ok code
    /\ parsed_modules (parseTemplate uid uids code) = Some parsedModules
    /\ calculateChanges (Some (before ++ mainModule :: after)) parsedModules
       = {| added := []; removed := []; modified := [];
            unchanged := (flatten parsedModules).*2 |}
    /\ calculateChanges (Some parsedModules) (before ++ mainModule :: after)
       = {| added := []; removed := []; modified := [];
            unchanged := (flatten (before ++ mainModule :: after)).*2 |}.
Proof.
  intros Hmain Hno Hok.
  assert (List.find is_main (before ++ mainModule :: after) = Some mainModule)
    as Hfind.
  { rewrite forallb_app in Hno. apply andb_true_iff in Hno as [Hb _].
    rewrite find_app_none by (by apply find_none_forallb).
    cbn [List.find]. by rewrite Hmain. }
  destruct (parseTemplate_generated uid uids _ _ Hok Hfind)
    as (mds' & main' & Hparsed & Hrecs & Hrec).
  pose proof (agree_generated before after mainModule mds' main'
                Hmain Hno Hok Hrecs Hrec) as Hag.
  eexists _, (mds' ++ [main']).
  split; [by apply generateCode_lines|]. split; [done|]. split.
  - by apply agree_unchanged.
  - by apply agree_unchanged, agree_sym.
Qed.

Lemma C1_round_trip_recoverable_witness :
  exists (code : str) (parsedModules : list Module),
    generateCode (round_trip_before ++ round_trip_main :: round_trip_after)
    = Ok code
    /\ parsed_modules (parseTemplate uid_sample 0 code) = Some parsedModules
    /\ calculateChanges
         (Some (round_trip_before ++ round_trip_main :: round_trip_after))
         parsedModules
       = {| added := []; removed := []; modified := [];
            unchanged := (flatten parsedModules).*2 |}
    /\ calculateChanges (Some parsedModules)
         (round_trip_before ++ round_trip_main :: round_trip_after)
       = {| added := []; removed := []; modified := [];
            unchanged :=
              (flatten (round_trip_before ++ round_trip_main
                          :: round_trip_after)).*2 |}.
Proof.
  apply (C1_round_trip_recoverable uid_sample 0 round_trip_before
           round_trip_after round_trip_main); by vm_compute.
Defined.

(** * Further properties of the code *)

(** ** The diff engine on any two models *)

Section DiffFacts.

Lemma dict_get_keys (k : str) (d : dict) :
  dict_get k d ≠ None <-> k ∈ d.*1.
Proof.
  induction d as [|[k0 v0] d IH]; cbn [dict_get fmap list_fmap fst].
  - split; [done|]. by intros ?%elem_of_nil.
  - unfold str_eqb. rewrite elem_of_cons.
    destruct (bool_decide_reflect (k = k0)) as [->|Hne].
    + split; [by left|done].
    + rewrite IH. split; [by right|]. by intros [?|?].
Qed.

Lemma last_with_keys (k : str) (es : dict) :
  last_with k es ≠ None <-> k ∈ es.*1.
Proof.
  induction es as [|[k0 v0] es IH]; cbn [last_with fmap list_fmap fst].
  - split; [done|]. by intros ?%elem_of_nil.
  - rewrite elem_of_cons, <- IH. unfold str_eqb.
    destruct (last_with k es) as [w|].
    + split; [by right|done].
    + destruct (bool_decide_reflect (k = k0)) as [->|Hne].
      * split; [by left|done].
      * split; [done|]. by intros [?|?].
Qed.

Lemma flatten_NoDup (ms : list Module) : NoDup (flatten ms).*1.
Proof. rewrite flatten_entries. apply fold_set_keys. constructor. Qed.

Lemma elem_dict_get (k : str) (v : Mapping) (d : dict) :
  dict_get k d = Some v -> (k, v) ∈ d.
Proof.
  induction d as [|[k0 v0] d IH]; [done|]. cbn [dict_get]. unfold str_eqb.
  destruct (bool_decide_reflect (k = k0)) as [->|Hne].
  - intros [= ->]. by left.
  - intros H. right. by apply IH.
Qed.

End DiffFacts.

(** X1. In the flat dictionary that [calculateChanges] builds from a model,
    no key occurs twice, the keys are those of the mappings of the model,
    and the entry under a key is the one of the last mapping with that key,
    modules and mappings taken in order: of two mappings of a module that
    share a target, only the second is compared. *)
Theorem flatten_last_wins (ms : list Module) :
  NoDup (flatten ms).*1
  /\ (forall k, k ∈ (flatten ms).*1 <-> k ∈ (entries ms).*1)
  /\ (forall k v, (k, v) ∈ flatten ms <-> last_with k (entries ms) = Some v)
  /\ (forall md l m,
        dict_get (flat_key md m)
          (flatten (ms ++ [set_mappings (l ++ [m]) md]))
        = Some (flat_entry md m)).
Proof.
  split; [apply flatten_NoDup|]. split; [|split].
  - intros k. by rewrite <- dict_get_keys, dict_get_flatten, last_with_keys.
  - intros k v. split; [apply flatten_elem|].
    rewrite <- dict_get_flatten. apply elem_dict_get.
  - intros md l m. rewrite dict_get_flatten, entries_app, last_with_app.
    assert (entries [set_mappings (l ++ [m]) md]
            = map (fun m => (flat_key md m, flat_entry md m)) l
              ++ [(flat_key md m, flat_entry md m)]) as ->.
    { unfold entries. cbn. by rewrite app_nil_r, map_app. }
    rewrite last_with_app. cbn [last_with]. unfold str_eqb.
    by rewrite bool_decide_eq_true_2.
Qed.

Section DiffCounts.

Lemma omap_cons {A B} (f : A -> option B) (x : A) (l : list A) :
  omap f (x :: l)
  = match f x with
    | Some y => y :: omap f l
    | None => omap f l
    end.
Proof. reflexivity. Qed.

Lemma current_partition (fc fo : dict) :
  length (spec_added fc fo) + length (spec_modified fc fo)
    + length (spec_unchanged fc fo)
  = length fc.
Proof.
  unfold spec_added, spec_modified, spec_unchanged.
  induction fc as [|[k c] fc IH]; [done|]. rewrite !omap_cons. cbn [fst snd].
  destruct (dict_get k fo) as [o|]; [destruct (differs c o)|];
    cbn [length]; lia.
Qed.

Lemma found_count (fc fo : dict) :
  length (spec_modified fc fo) + length (spec_unchanged fc fo)
  = length (filter (fun k => k ∈ fo.*1) fc.*1).
Proof.
  unfold spec_modified, spec_unchanged.
  induction fc as [|[k c] fc IH]; [done|].
  rewrite !omap_cons, fmap_cons, filter_cons. cbn [fst snd].
  destruct (dict_get k fo) as [o|] eqn:E.
  - rewrite decide_True by (apply dict_get_keys; by rewrite E).
    destruct (differs c o); cbn [length]; lia.
  - rewrite decide_False; [exact IH|].
    intros H. apply dict_get_keys in H. by rewrite E in H.
Qed.

Lemma removed_count (fc fo : dict) :
  length (spec_removed fc fo) = length (filter (fun k => k ∉ fc.*1) fo.*1).
Proof.
  unfold spec_removed.
  induction fo as [|[k o] fo IH]; [done|].
  rewrite !omap_cons, fmap_cons, filter_cons. cbn [fst snd].
  destruct (dict_get k fc) as [c|] eqn:E.
  - rewrite decide_False; [exact IH|].
    intros H. apply H, dict_get_keys. by rewrite E.
  - rewrite decide_True; [cbn [length]; by rewrite IH|].
    intros H. apply dict_get_keys in H. by rewrite E in H.
Qed.

Lemma common_count (a b : list str) :
  NoDup a -> NoDup b ->
  length (filter (fun k => k ∈ b) a) = length (filter (fun k => k ∈ a) b).
Proof.
  intros Ha Hb. apply Permutation_length, NoDup_Permutation.
  - by apply NoDup_filter.
  - by apply NoDup_filter.
  - intros k. rewrite !list_elem_of_filter. tauto.
Qed.

Lemma split_count (a b : list str) :
  length (filter (fun k => k ∈ a) b) + length (filter (fun k => k ∉ a) b)
  = length b.
Proof.
  induction b as [|k b IH]; [done|]. rewrite !filter_cons.
  destruct (decide (k ∈ a)) as [Hk|Hk].
  - rewrite decide_False by tauto. cbn [length]. lia.
  - rewrite decide_True by done. cbn [length]. lia.
Qed.

End DiffCounts.

(** X2. [calculateChanges] files every key of the current dictionary under
    exactly one of [added], [modified] and [unchanged], and every key of
    the original dictionary under exactly one of [removed], [modified] and
    [unchanged]: the lengths of the lists add up to the numbers of distinct
    keys of the two models. *)
Theorem calculateChanges_partition (original current : list Module) :
  length (added (calculateChanges (Some original) current))
    + length (modified (calculateChanges (Some original) current))
    + length (unchanged (calculateChanges (Some original) current))
  = length (flatten current)
  /\ length (removed (calculateChanges (Some original) current))
       + length (modified (calculateChanges (Some original) current))
       + length (unchanged (calculateChanges (Some original) current))
     = length (flatten original).
Proof.
  unfold calculateChanges.
  rewrite classify_current_fold, classify_original_fold. cbn.
  split; [apply current_partition|].
  pose proof (found_count (flatten current) (flatten original)) as Hf.
  pose proof (removed_count (flatten current) (flatten original)) as Hr.
  pose proof (common_count _ _ (flatten_NoDup current) (flatten_NoDup original))
    as Hc.
  pose proof (split_count (flatten current).*1 (flatten original).*1) as Hs.
  rewrite length_fmap in Hs. lia.
Qed.

(** X3. Exchanging the snapshot and the current model exchanges what
    [calculateChanges] reports as added and as removed. *)
Theorem calculateChanges_exchange (a b : list Module) :
  added (calculateChanges (Some a) b) = removed (calculateChanges (Some b) a)
  /\ removed (calculateChanges (Some a) b) = added (calculateChanges (Some b) a).
Proof.
  unfold calculateChanges.
  rewrite !classify_current_fold, !classify_original_fold. by cbn.
Qed.

Section Snapshot.

Lemma get_json_copy (m : Mapping) (f : string) :
  get (json_copy_mapping m) f = get m f.
Proof.
  unfold get, json_copy_mapping.
  destruct (m !! f) as [v|] eqn:E.
  - destruct (decide (v = Undefined)) as [->|Hv].
    + rewrite map_lookup_filter_None_2; [done|]. right. intros v E'.
      rewrite E in E'. injection E' as <-. cbn. tauto.
    + by rewrite (map_lookup_filter_Some_2 _ _ _ v).
  - rewrite map_lookup_filter_None_2; [done|]. by left.
Qed.

Lemma flat_key_json_copy (md : Module) (l : list Mapping) (m : Mapping) :
  flat_key (set_mappings l md) (json_copy_mapping m) = flat_key md m.
Proof. unfold flat_key. by rewrite !get_json_copy. Qed.

Lemma differs_json_copy (md md' : Module) (m : Mapping) :
  differs (flat_entry md m) (flat_entry md' (json_copy_mapping m)) = false.
Proof.
  unfold differs. rewrite !get_flat_entry, !get_json_copy by done.
  by rewrite !strict_ne_refl.
Qed.

Lemma entries_json_copy (ms : list Module) :
  Forall2 matched (entries (json_copy ms)) (entries ms).
Proof.
  induction ms as [|md ms IH]; [constructor|].
  change (md :: ms) with ([md] ++ ms). unfold json_copy in *.
  rewrite map_app, !entries_app. apply Forall2_app; [|exact IH].
  unfold entries. cbn [map concat mappings set_mappings]. rewrite !app_nil_r.
  induction (mappings md) as [|m l IHl]; [constructor|].
  cbn [map]. constructor; [|exact IHl]. split; cbn [fst snd].
  - symmetry. apply (flat_key_json_copy md).
  - apply differs_json_copy.
Qed.

(** A model compared with its own JSON snapshot. *)
Lemma snapshot_unchanged (ms : list Module) :
  calculateChanges (Some (json_copy ms)) ms
  = {| added := []; removed := []; modified := [];
       unchanged := (flatten ms).*2 |}.
Proof. apply agree_unchanged, agree_matched, entries_json_copy. Qed.

End Snapshot.

(** X4. Whatever the text of the template, right after [handleFile] has
    loaded it the diff engine reports nothing added, removed or modified:
    every key of the loaded model is filed under [unchanged]. When the
    parser returned no modules, the report is the one from before. *)
Theorem template_load_reports_no_change (uid : nat -> str) (content : str)
  (s : State) :
  match parsed_modules (parseTemplate uid (uids s) content) with
  | Some ms =>
      changes_of (handleFile_template uid content s)
      = {| added := []; removed := []; modified := [];
           unchanged := (flatten ms).*2 |}
  | None =>
      changes_of (handleFile_template uid content s) = changes_of s
  end.
Proof.
  unfold changes_of, handleFile_template.
  destruct (parsed_modules _) as [ms|]; cbn [originalModules modules]; [|done].
  apply snapshot_unchanged.
Qed.

(** ** What a match captures *)

(** For the groups that are a run of one class of characters, the class. *)
Definition run_spec : Type := nat -> option (ascii -> bool).

(** Each group for which [spec] gives a class is [p+] or [p+?] for that
    class [p]. *)
Fixpoint runs_ok (spec : run_spec) (r : regexp) : Prop :=
  match r with
  | Seq r1 r2 | Alt r1 r2 => runs_ok spec r1 /\ runs_ok spec r2
  | Star _ r' | Opt r' => runs_ok spec r'
  | Grp n r' =>
      match spec n with
      | Some p => exists g, r' = Plus g (Cls p)
      | None => runs_ok spec r'
      end
  | Eps | Lit _ | Cls _ | Bol | Eol => True
  end.

(** Groups that take part in every match. *)
Fixpoint sure (r : regexp) : list nat :=
  match r with
  | Seq r1 r2 => sure r1 ++ sure r2
  | Grp n r' => n :: sure r'
  | _ => []
  end.

(** The text of each group that has one is a non-empty run of its class. *)
Definition caps_ok (spec : run_spec) (st : mstate) : Prop :=
  forall i p w, spec i = Some p -> cap i st = Some w ->
    w ≠ [] /\ forallb p w = true.

Definition defined (D : list nat) (st : mstate) : Prop :=
  forall i, i ∈ D -> cap i st ≠ None.

Section Captures.

Implicit Types (k : mstate -> option mstate) (st : mstate) (p : ascii -> bool).

Lemma advance_0 st : advance 0 st = st.
Proof. destruct st. unfold advance. cbn. f_equal. lia. Qed.

Lemma advance_advance (n m : nat) st :
  advance n (advance m st) = advance (m + n) st.
Proof.
  unfold advance. cbn. f_equal; [lia|]. rewrite drop_drop. done.
Qed.

(** A run of a class consumes characters of the class. *)
Lemma run_sound p (g : bool) k (fuel : nat) st res :
  star_loop (rmatch (Cls p)) g k fuel st = Some res ->
  exists n, n <= length (rest st)
            /\ forallb p (take n (rest st)) = true
            /\ k (advance n st) = Some res.
Proof.
  revert st. induction fuel as [|fuel IH]; intros st H.
  { exists 0. rewrite advance_0. repeat split; [apply Nat.le_0_l|done]. }
  assert (rmatch (Cls p)
            (fun st' => if length (rest st') <? length (rest st)
                        then star_loop (rmatch (Cls p)) g k fuel st' else None)
            st = Some res ->
          exists n, n <= length (rest st)
                    /\ forallb p (take n (rest st)) = true
                    /\ k (advance n st) = Some res) as Hagain.
  { destruct st as [i [|c tl] cs]; [done|]. rewrite rmatch_cls.
    destruct (p c) eqn:Ec; [|done]. cbn [rest length].
    rewrite (proj2 (Nat.ltb_lt _ _)) by lia.
    intros (n & Hn & Hp & Hk)%IH. cbn [rest] in Hn, Hp.
    exists (S n). cbn [take forallb]. rewrite Ec, Hp.
    repeat split; [lia|].
    rewrite <- Hk. unfold advance. cbn. do 2 f_equal. lia. }
  assert (k st = Some res ->
          exists n, n <= length (rest st)
                    /\ forallb p (take n (rest st)) = true
                    /\ k (advance n st) = Some res) as Hstop.
  { intros Hk. exists 0. rewrite advance_0.
    repeat split; [apply Nat.le_0_l|done]. }
  destruct g.
  - rewrite star_loop_greedy in H. destruct (rmatch (Cls p) _ st) eqn:E.
    + cbn [orelse] in H. injection H as ->. by apply Hagain.
    + by apply Hstop.
  - rewrite star_loop_lazy in H. destruct (k st) eqn:E.
    + cbn [orelse] in H. injection H as ->. by apply Hstop.
    + by apply Hagain.
Qed.

Lemma plus_run_sound p (g : bool) k st res :
  rmatch (Plus g (Cls p)) k st = Some res ->
  exists n, 0 < n /\ n <= length (rest st)
            /\ forallb p (take n (rest st)) = true
            /\ k (advance n st) = Some res.
Proof.
  rewrite rmatch_plus. destruct st as [i [|c tl] cs]; [done|].
  rewrite rmatch_cls. destruct (p c) eqn:Ec; [|done]. rewrite rmatch_star.
  intros (n & Hn & Hp & Hk)%run_sound. cbn [rest] in Hn, Hp.
  exists (S n). cbn [rest take forallb length]. rewrite Ec, Hp.
  repeat split; [lia|lia|].
  rewrite <- Hk. unfold advance. cbn. do 2 f_equal. lia.
Qed.

Lemma defined_mono (D D' : list nat) st :
  (forall i, i ∈ D' -> i ∈ D) -> defined D st -> defined D' st.
Proof. intros H Hd i Hi. by apply Hd, H. Qed.

Lemma cap_set_cap (i n : nat) (w : str) st :
  cap i (set_cap n w st) = if i =? n then Some w else cap i st.
Proof. reflexivity. Qed.

(** What a match leaves in the groups. *)
Lemma rmatch_caps (spec : run_spec) (r : regexp) :
  runs_ok spec r ->
  forall k st res D,
    caps_ok spec st -> defined D st -> rmatch r k st = Some res ->
    exists st', k st' = Some res /\ caps_ok spec st'
                /\ defined (sure r ++ D) st'.
Proof.
  induction r as [|l|p|r1 IH1 r2 IH2|r1 IH1 r2 IH2|g r IH|r IH|n r IH| |];
    intros Hr k st res D Hok Hdef H.
  - by exists st.
  - cbn [rmatch] in H. destruct (startsWith _ _); [|done]. by eexists.
  - cbn [rmatch] in H. destruct (rest st); [done|]. destruct (p _); [|done].
    by eexists.
  - destruct Hr as [Hr1 Hr2]. cbn [rmatch] in H.
    destruct (IH1 Hr1 _ _ _ D Hok Hdef H) as (st1 & H1 & Hok1 & Hdef1).
    destruct (IH2 Hr2 _ _ _ _ Hok1 Hdef1 H1) as (st2 & H2 & Hok2 & Hdef2).
    exists st2. split; [done|]. split; [done|].
    eapply defined_mono; [|exact Hdef2]. cbn [sure]. intros i.
    rewrite !elem_of_app. tauto.
  - destruct Hr as [Hr1 Hr2]. cbn [rmatch] in H.
    destruct (rmatch r1 k st) eqn:E; cbn [orelse] in H.
    + injection H as ->.
      destruct (IH1 Hr1 _ _ _ D Hok Hdef E) as (st1 & H1 & Hok1 & Hdef1).
      exists st1. split; [done|]. split; [done|].
      eapply defined_mono; [|exact Hdef1]. intros i Hi. apply elem_of_app.
      by right.
    + destruct (IH2 Hr2 _ _ _ D Hok Hdef H) as (st1 & H1 & Hok1 & Hdef1).
      exists st1. split; [done|]. split; [done|].
      eapply defined_mono; [|exact Hdef1]. intros i Hi. apply elem_of_app.
      by right.
  - cbn [runs_ok] in Hr. rewrite rmatch_star in H. revert H. cbn [sure app].
    generalize (S (length (rest st))). intros fuel. revert st res Hok Hdef.
    induction fuel as [|fuel IHf]; intros st res Hok Hdef H; [by exists st|].
    assert (forall res',
      rmatch r (fun st' => if length (rest st') <? length (rest st)
                           then star_loop (rmatch r) g k fuel st'
                           else None) st = Some res' ->
      exists st', k st' = Some res' /\ caps_ok spec st' /\ defined D st')
      as Hagain.
    { intros res' E.
      destruct (IH Hr _ _ _ D Hok Hdef E) as (st1 & E1 & Hok1 & Hdef1).
      destruct (_ <? _); [|done]. apply IHf in E1; [done|done|].
      eapply defined_mono; [|exact Hdef1]. intros i Hi. apply elem_of_app.
      by right. }
    destruct g.
    + rewrite star_loop_greedy in H. destruct (rmatch r _ st) eqn:E.
      * cbn [orelse] in H. injection H as ->. by apply Hagain.
      * by exists st.
    + rewrite star_loop_lazy in H. destruct (k st) eqn:E.
      * cbn [orelse] in H. injection H as ->. by exists st.
      * by apply Hagain.
  - cbn [runs_ok] in Hr. cbn [rmatch] in H.
    destruct (rmatch r k st) eqn:E; cbn [orelse] in H.
    + injection H as ->.
      destruct (IH Hr _ _ _ D Hok Hdef E) as (st1 & H1 & Hok1 & Hdef1).
      exists st1. split; [done|]. split; [done|].
      eapply defined_mono; [|exact Hdef1]. intros i Hi. apply elem_of_app.
      by right.
    + by exists st.
  - cbn [runs_ok] in Hr. destruct (spec n) as [p|] eqn:Espec.
    + destruct Hr as [g ->]. cbn [rmatch] in H. fold (Plus g (Cls p)) in H.
      apply plus_run_sound in H as (m & Hm0 & Hm & Hp & Hk).
      cbn [advance rest] in Hk. rewrite length_drop in Hk.
      replace (length (rest st) - (length (rest st) - m)) with m in Hk by lia.
      eexists. split; [exact Hk|]. split.
      * intros i q w Hq. rewrite cap_set_cap.
        destruct (Nat.eqb_spec i n) as [->|Hne]; [|by apply Hok].
        rewrite Espec in Hq. injection Hq as <-. intros [= <-].
        split; [|done]. intros Hw. apply (f_equal length) in Hw.
        rewrite length_take in Hw. cbn in Hw. lia.
      * intros i Hi. rewrite cap_set_cap.
        destruct (Nat.eqb_spec i n) as [->|Hne]; [done|].
        apply Hdef. cbn [sure app] in Hi.
        apply elem_of_cons in Hi as [?|Hi]; [done|]. exact Hi.
    + cbn [rmatch] in H.
      destruct (IH Hr _ _ _ D Hok Hdef H) as (st1 & H1 & Hok1 & Hdef1).
      eexists. split; [exact H1|]. split.
      * intros i q w Hq. rewrite cap_set_cap.
        destruct (Nat.eqb_spec i n) as [->|Hne]; [congruence|by apply Hok1].
      * intros i Hi. rewrite cap_set_cap.
        destruct (Nat.eqb_spec i n) as [->|Hne]; [done|].
        apply Hdef1. cbn [sure app] in Hi.
        apply elem_of_cons in Hi as [?|Hi]; [done|]. exact Hi.
  - cbn [rmatch] in H. destruct (_ =? _); [|done]. by exists st.
  - cbn [rmatch] in H. destruct (rest st); [|done]. by exists st.
Qed.

Lemma search_from_match (r : regexp) (s : str) (i j : nat) st :
  search_from r i s = Some (j, st) ->
  exists s', rmatch r Some (MState j s' []) = Some st.
Proof.
  revert i. induction s as [|a s IH]; intros i; cbn [search_from].
  - destruct (rmatch r Some _) eqn:E; [|done]. intros [= <- <-]. eauto.
  - destruct (rmatch r Some _) eqn:E; [intros [= <- <-]; eauto|]. apply IH.
Qed.

(** The groups of a match of [exec]. *)
Lemma exec_caps (spec : run_spec) (r : regexp) (s : str) (mt : mstate) :
  runs_ok spec r -> exec r s = Some mt ->
  caps_ok spec mt /\ defined (sure r) mt.
Proof.
  intros Hr. unfold exec.
  destruct (search_from r 0 s) as [[j st]|] eqn:E; [|done].
  intros [= ->]. apply search_from_match in E as [s' E].
  destruct (rmatch_caps spec r Hr Some (MState j s' []) mt [])
    as (st' & [= ->] & Hok & Hdef); try done.
  - by intros i Hi%elem_of_nil.
  - split; [done|]. by rewrite app_nil_r in Hdef.
Qed.

(** A group that takes part in every match and is a run of class [p]. *)
Lemma exec_group (spec : run_spec) (r : regexp) (s : str) (mt : mstate)
  (i : nat) p :
  runs_ok spec r -> spec i = Some p -> i ∈ sure r ->
  exec r s = Some mt ->
  exists w, group i mt = Str w /\ w ≠ [] /\ forallb p w = true.
Proof.
  intros Hr Hp Hi H. destruct (exec_caps spec r s mt Hr H) as [Hok Hdef].
  unfold group. destruct (cap i mt) as [w|] eqn:E.
  - exists w. split; [done|]. by apply (Hok i p).
  - by destruct (Hdef i Hi).
Qed.

End Captures.

(** The groups of the expressions of the parser that are runs of a class. *)
Definition spec_name : run_spec :=
  fun i => if i =? 1 then Some is_word else None.

Definition spec_simple : run_spec :=
  fun i =>
    match i with
    | 1 => Some not_quote
    | 2 => Some (fun c => negb (is_space c || is_dot c))
    | 3 => Some is_word
    | _ => None
    end.

Definition spec_nested : run_spec :=
  fun i =>
    match i with
    | 2 => Some (fun c => is_word c || is_dot c)
    | 3 => Some is_word
    | _ => None
    end.

Definition spec_cond : run_spec :=
  fun i =>
    match i with
    | 1 | 5 => Some not_quote
    | 2 | 6 => Some any_char
    | 3 => Some is_word
    | _ => None
    end.

Section ParserCaptures.

Lemma runs_moduleDef : runs_ok spec_name re_moduleDef.
Proof. cbn. eauto 10. Qed.

Lemma runs_moduleCall : runs_ok spec_name re_moduleCall.
Proof. cbn. eauto 10. Qed.

Lemma runs_simple : runs_ok spec_simple re_simple.
Proof. cbn. repeat split; eauto. Qed.

Lemma runs_nested : runs_ok spec_nested re_nested.
Proof. cbn. repeat split; eauto. Qed.

Lemma runs_cond : runs_ok spec_cond re_cond.
Proof. cbn. repeat split; eauto. Qed.

Lemma word_run (w : str) : w ≠ [] -> forallb is_word w = true -> word w = true.
Proof. by destruct w. Qed.

(** The name read from a definition line is an identifier. *)
Lemma moduleDef_name (s : str) (mt : mstate) :
  exec re_moduleDef s = Some mt -> word (gtext 1 mt) = true.
Proof.
  intros H.
  destruct (exec_group spec_name re_moduleDef s mt 1 is_word)
    as (w & Hw & Hne & Hrun); try done.
  { apply runs_moduleDef. }
  { by left. }
  unfold gtext. rewrite Hw. by apply word_run.
Qed.

Lemma moduleCall_name (s : str) (mt : mstate) :
  exec re_moduleCall s = Some mt ->
  exists callee, group 1 mt = Str callee /\ word callee = true.
Proof.
  intros H.
  destruct (exec_group spec_name re_moduleCall s mt 1 is_word)
    as (w & Hw & Hne & Hrun); try done.
  { apply runs_moduleCall. }
  { by left. }
  exists w. split; [done|]. by apply word_run.
Qed.

(** The method of an assignment is [null] or an identifier. *)
Lemma method_cases (spec : run_spec) (r : regexp) (s : str) (mt : mstate) :
  runs_ok spec r -> spec 3 = Some is_word -> exec r s = Some mt ->
  jsor (group 3 mt) Null = Null
  \/ exists w, jsor (group 3 mt) Null = Str w /\ word w = true.
Proof.
  intros Hr H3 H. destruct (exec_caps spec r s mt Hr H) as [Hok _].
  unfold group. destruct (cap 3 mt) as [w|] eqn:E; [|by left].
  destruct (Hok 3 is_word w H3 E) as [Hne Hrun]. right. exists w.
  split; [|by apply word_run]. by destruct w.
Qed.

Lemma no_blank_source (w : str) :
  forallb (fun c => negb (is_space c || is_dot c)) w = true ->
  forallb (fun c => negb (is_space c)) w = true.
Proof.
  apply forallb_mono. intros a. rewrite !negb_true_iff.
  by intros [? _]%orb_false_iff.
Qed.

Lemma no_blank_path (w : str) :
  forallb (fun c => is_word c || is_dot c) w = true ->
  forallb (fun c => negb (is_space c)) w = true.
Proof.
  apply forallb_mono. intros a. by destruct a as [[] [] [] [] [] [] [] []].
Qed.

End ParserCaptures.

(** ** The parser on any text *)

(** The number of mappings of a model. *)
Definition count_mappings (ms : list Module) : nat :=
  sum_list (map (fun md => length (mappings md)) ms).

(** The identifiers of a model: of each module, then of its mappings. *)
Definition module_ids (md : Module) : list jsval :=
  Str (mod_id md) :: map (fun m => get m "id") (mappings md).

Definition model_ids (ms : list Module) : list jsval :=
  concat (map module_ids ms).

Section ParserInvariants.

Variable uid : nat -> str.

(** The properties, besides [id], of the mappings the parser creates: a
    module call, a direct mapping (from the single-level or from the
    bracket-chain expression), a conditional mapping; with what the
    expressions guarantee of the texts they capture. *)
Inductive parsed_fields : list (string * jsval) -> Prop :=
  | fields_call callee :
      word callee = true ->
      parsed_fields
        [ ("moduleName", Str callee); ("type", Str (lit "module_call"));
          ("isNew", Bool false) ]
  | fields_direct target source transform :
      source ≠ [] ->
      forallb (fun c => negb (is_space c)) source = true ->
      transform = Null \/ (exists w, transform = Str w /\ word w = true) ->
      parsed_fields
        [ ("target", Str target); ("source", Str source);
          ("transform", transform);
          ("transformation", Str (lit "direct")); ("type", Str (lit "field"));
          ("isNew", Bool false) ]
  | fields_conditional target condField condOp condValue thenValue elseValue :
      target ≠ [] -> word condField = true -> condValue ≠ [] ->
      parsed_fields
        [ ("target", Str target); ("condField", Str condField);
          ("condOp", condOp); ("condValue", Str condValue);
          ("thenValue", Str thenValue); ("elseValue", Str elseValue);
          ("transformation", Str (lit "conditional"));
          ("type", Str (lit "field")); ("isNew", Bool false) ].

(** What a line does to the state of the parser. *)
Inductive line_effect (st : pstate) : pstate -> Prop :=
  | effect_open n :
      word n = true -> line_effect st (open_module uid st n)
  | effect_close : line_effect st (close_module st)
  | effect_none : line_effect st st
  | effect_add cur fields :
      currentModule st = Some cur -> parsed_fields fields ->
      line_effect st (add_mapping uid st cur fields).

Lemma parse_line_effect (st : pstate) (line : str) :
  line_effect st (parse_line uid st line).
Proof.
  unfold parse_line.
  destruct (matches re_main (trim line)); [by constructor|].
  destruct (exec re_moduleDef (trim line)) as [mt|] eqn:Edef.
  { constructor. by apply (moduleDef_name (trim line)). }
  destruct (_ && _); [constructor|].
  destruct (currentModule st) as [cur|] eqn:Ecur; [|constructor].
  destruct (exec re_moduleCall (trim line)) as [mt|] eqn:Ecall.
  { apply effect_add; [done|].
    destruct (moduleCall_name _ _ Ecall) as (callee & -> & Hw).
    by constructor. }
  destruct (exec re_simple (trim line)) as [mt|] eqn:Esimple.
  { apply effect_add; [done|].
    destruct (exec_group spec_simple re_simple (trim line) mt 1 not_quote)
      as (t & -> & _ & _); try done; [apply runs_simple|by left|].
    destruct (exec_group spec_simple re_simple (trim line) mt 2
                (fun c => negb (is_space c || is_dot c)))
      as (w & -> & Hne & Hrun); try done;
      [apply runs_simple|right; by left|].
    constructor; [done|by apply no_blank_source|].
    apply (method_cases spec_simple re_simple (trim line));
      [apply runs_simple|done|done]. }
  destruct (exec re_nested (trim line)) as [mt|] eqn:Enested.
  { apply effect_add; [done|].
    destruct (exec_group spec_nested re_nested (trim line) mt 2
                (fun c => is_word c || is_dot c))
      as (w & Hw & Hne & Hrun); try done;
      [apply runs_nested|right; by left|].
    unfold gtext. rewrite Hw. cbn [to_string].
    change (lit ".") with [chr_dot]. rewrite join_split.
    constructor; [done|by apply no_blank_path|].
    apply (method_cases spec_nested re_nested (trim line));
      [apply runs_nested|done|done]. }
  destruct (exec re_cond (trim line)) as [mt|] eqn:Econd; [|constructor].
  apply effect_add; [done|].
  destruct (exec_group spec_cond re_cond (trim line) mt 1 not_quote)
    as (t & -> & Ht & _); try done; [apply runs_cond|by left|].
  destruct (exec_group spec_cond re_cond (trim line) mt 3 is_word)
    as (f & -> & Hf & Hfw); try done;
    [apply runs_cond|right; right; by left|].
  destruct (exec_group spec_cond re_cond (trim line) mt 5 not_quote)
    as (v & -> & Hv & _); try done;
    [apply runs_cond|do 4 right; by left|].
  constructor; [done|by apply word_run|done].
Qed.

Lemma parsed_fields_no_id (fields : list (string * jsval)) :
  parsed_fields fields -> "id" ∉ fields.*1.
Proof.
  intros []; cbn; rewrite !not_elem_of_cons;
    repeat split; (done || apply not_elem_of_nil).
Qed.

Lemma get_fold_insert (fs : list (string * jsval)) (m : Mapping) (f : string) :
  f ∉ fs.*1 ->
  get (fold_left (fun m kv => <[kv.1 := kv.2]> m) fs m) f = get m f.
Proof.
  revert m. induction fs as [|[k v] fs IH]; intros m Hf; [done|].
  cbn [fold_left fst snd]. cbn in Hf. apply not_elem_of_cons in Hf as [Hk Hf].
  rewrite IH by done. by apply get_insert_ne.
Qed.

Lemma get_obj_id (v : jsval) (fields : list (string * jsval)) :
  "id" ∉ fields.*1 -> get (obj (("id", v) :: fields)) "id" = v.
Proof.
  intros H. unfold obj. cbn [fold_left fst snd].
  rewrite get_fold_insert by done. apply get_insert_eq.
Qed.

(** What holds of the state of the parser after any lines, when [n]
    identifiers had been drawn before: the current module is the last one,
    the counter is the number of mappings, and the identifiers are the
    values [uid()] returned since, in order. *)
Definition parser_invariant (n : nat) (st : pstate) : Prop :=
  n <= uid_calls st
  /\ (forall cur, currentModule st = Some cur -> S cur = length (ps_modules st))
  /\ ps_totalMappings st = count_mappings (ps_modules st)
  /\ model_ids (ps_modules st)
     = map (fun i => Str (uid i)) (List.seq n (uid_calls st - n))
  /\ uid_calls st = n + length (ps_modules st) + ps_totalMappings st.

Lemma last_module {A} (l : list A) (cur : nat) :
  S cur = length l -> exists pre x, l = pre ++ [x] /\ length pre = cur.
Proof.
  destruct l as [|x l _] using rev_ind; [done|].
  rewrite length_app. cbn. intros H. exists l, x. split; [done|lia].
Qed.

Lemma count_mappings_app (a b : list Module) :
  count_mappings (a ++ b) = count_mappings a + count_mappings b.
Proof.
  unfold count_mappings. induction a as [|md a IH]; [done|]. cbn in *. lia.
Qed.

Lemma model_ids_app (a b : list Module) :
  model_ids (a ++ b) = model_ids a ++ model_ids b.
Proof. unfold model_ids. by rewrite map_app, concat_app. Qed.

Lemma seq_next (n k : nat) : List.seq n (S k) = List.seq n k ++ [n + k].
Proof. by rewrite List.seq_S. Qed.

Lemma line_effect_invariant (n : nat) (st st' : pstate) :
  parser_invariant n st -> line_effect st st' -> parser_invariant n st'.
Proof.
  intros (Hn & Hcur & Htot & Hids & Hcalls) [nm _| | |cur fields Hc Hid].
  - unfold parser_invariant, open_module.
    cbn [uid_calls currentModule ps_modules ps_totalMappings].
    rewrite length_app, count_mappings_app, model_ids_app, Hids.
    cbn [length]. split; [lia|]. split; [intros ? [= <-]; lia|].
    split; [unfold count_mappings at 2; cbn; lia|].
    split; [|lia].
    replace (S (uid_calls st) - n) with (S (uid_calls st - n)) by lia.
    rewrite seq_next, map_app. cbn. do 4 f_equal. lia.
  - unfold parser_invariant, close_module. cbn. done.
  - done.
  - destruct (last_module _ _ (Hcur _ Hc)) as (pre & md & Hpre & Hlen).
    unfold parser_invariant, add_mapping.
    cbn [uid_calls currentModule ps_modules ps_totalMappings].
    rewrite Hpre in *. subst cur. rewrite alter_last.
    rewrite length_app, count_mappings_app, model_ids_app in *.
    cbn [length] in *.
    assert (count_mappings [set_mappings
              (mappings md ++ [obj (("id", Str (uid (uid_calls st))) :: fields)])
              md] = S (count_mappings [md])) as Hcount.
    { unfold count_mappings. cbn. rewrite length_app. cbn. lia. }
    assert (model_ids [set_mappings
              (mappings md ++ [obj (("id", Str (uid (uid_calls st))) :: fields)])
              md] = model_ids [md] ++ [Str (uid (uid_calls st))]) as Hnew.
    { unfold model_ids, module_ids. cbn [map concat mappings mod_id set_mappings].
      rewrite !app_nil_r, map_app. cbn [map].
      by rewrite get_obj_id by (by apply parsed_fields_no_id). }
    rewrite Hcount, Hnew.
    split; [lia|]. split; [intros ? ?; by apply Hcur|].
    split; [lia|]. split; [|lia].
    replace (S (uid_calls st) - n) with (S (uid_calls st - n)) by lia.
    rewrite seq_next, map_app, app_assoc, Hids. cbn [map].
    do 4 f_equal. lia.
Qed.

Lemma parse_lines_invariant (n : nat) (lines : list str) (st : pstate) :
  parser_invariant n st ->
  parser_invariant n (fold_left (parse_line uid) lines st).
Proof.
  revert st. induction lines as [|l lines IH]; intros st H; [done|].
  cbn [fold_left]. apply IH. eapply line_effect_invariant; [done|].
  apply parse_line_effect.
Qed.

Lemma parseTemplate_invariant (n : nat) (text : str) :
  parser_invariant n
    (fold_left (parse_line uid) (split chr_nl text) (parse_init n)).
Proof.
  apply parse_lines_invariant. unfold parser_invariant, parse_init. cbn.
  rewrite Nat.sub_diag. repeat split; try done; lia.
Qed.

Lemma parsed_modules_default (n : nat) (text : str) :
  default [] (parsed_modules (parseTemplate uid n text))
  = ps_modules (fold_left (parse_line uid) (split chr_nl text) (parse_init n)).
Proof.
  unfold parseTemplate. cbn [parsed_modules].
  by destruct (ps_modules _).
Qed.

(** A mapping as the parser creates them. *)
Definition parsed_mapping (m : Mapping) : Prop :=
  exists id fields, parsed_fields fields /\ m = obj (("id", id) :: fields).

Definition parsed_model (ms : list Module) : Prop :=
  Forall (fun md => Forall parsed_mapping (mappings md)) ms.

Lemma line_effect_parsed (st st' : pstate) :
  parsed_model (ps_modules st) -> line_effect st st' ->
  parsed_model (ps_modules st').
Proof.
  unfold parsed_model. intros H [nm _| | |cur fields Hc Hf]; try done.
  - cbn. apply Forall_app. split; [done|]. by repeat constructor.
  - cbn [add_mapping ps_modules]. apply Forall_alter; [done|].
    intros md _ Hmd. cbn. apply Forall_app. split; [done|].
    repeat constructor. by eexists _, _.
Qed.

Lemma parseTemplate_parsed (n : nat) (text : str) :
  parsed_model (default [] (parsed_modules (parseTemplate uid n text))).
Proof.
  rewrite parsed_modules_default.
  assert (parsed_model (ps_modules (parse_init n))) as H by constructor.
  revert H. generalize (parse_init n).
  induction (split chr_nl text) as [|l lines IH]; intros st H; [done|].
  cbn [fold_left]. apply IH. eapply line_effect_parsed; [done|].
  apply parse_line_effect.
Qed.

Lemma line_effect_names (st st' : pstate) :
  Forall (fun md => word (name md) = true) (ps_modules st) ->
  line_effect st st' ->
  Forall (fun md => word (name md) = true) (ps_modules st').
Proof.
  intros H [nm Hnm| | |cur fields Hc Hf]; try done.
  - cbn. apply Forall_app. split; [done|]. by repeat constructor.
  - cbn [add_mapping ps_modules]. apply Forall_alter; [done|].
    by intros md _ Hmd.
Qed.

Lemma parseTemplate_names_words (n : nat) (text : str) :
  Forall (fun md => word (name md) = true)
         (default [] (parsed_modules (parseTemplate uid n text))).
Proof.
  rewrite parsed_modules_default.
  assert (Forall (fun md => word (name md) = true) (ps_modules (parse_init n)))
    as H by constructor.
  revert H. generalize (parse_init n).
  induction (split chr_nl text) as [|l lines IH]; intros st H; [done|].
  cbn [fold_left]. apply IH. eapply line_effect_names; [done|].
  apply parse_line_effect.
Qed.

End ParserInvariants.

(** X5. For every text, the number of mappings [parseTemplate] reports
    ([totalMappings], shown after a load) is the number of mappings in the
    modules it returns, and zero when it returns none. *)
Theorem parseTemplate_totalMappings (uid : nat -> str) (n : nat) (text : str) :
  totalMappings (parseTemplate uid n text)
  = count_mappings (default [] (parsed_modules (parseTemplate uid n text))).
Proof.
  rewrite parsed_modules_default.
  by destruct (parseTemplate_invariant uid n text) as (_ & _ & H & _).
Qed.

(** X6. For every text, [parseTemplate] calls [uid()] once for each module
    and each mapping it creates and for nothing else, and the identifiers
    of the model it returns, read module by module, are the values these
    calls returned, in order: no identifier is used twice unless [uid()]
    returns one twice. *)
Theorem parseTemplate_fresh_ids (uid : nat -> str) (n : nat) (text : str) :
  parsed_uids (parseTemplate uid n text)
  = n + length (default [] (parsed_modules (parseTemplate uid n text)))
      + totalMappings (parseTemplate uid n text)
  /\ model_ids (default [] (parsed_modules (parseTemplate uid n text)))
     = map (fun i => Str (uid i))
           (List.seq n (parsed_uids (parseTemplate uid n text) - n)).
Proof.
  rewrite parsed_modules_default.
  by destruct (parseTemplate_invariant uid n text) as (_ & _ & _ & H1 & H2).
Qed.

(** X7. The parser creates module calls, direct mappings and conditional
    mappings and nothing else: for every text, each mapping of the modules
    it returns has [isNew] set to [false], and is either a module call
    without [transformation] or a field whose [transformation] is [direct]
    or [conditional]. The other kinds of the registry are never read
    back. *)
Theorem parseTemplate_kinds (uid : nat -> str) (n : nat) (text : str) :
  Forall (fun md =>
    Forall (fun m =>
      get m "isNew" = Bool false
      /\ (get m "type" = Str (lit "module_call")
           /\ get m "transformation" = Undefined
         \/ get m "type" = Str (lit "field")
            /\ (get m "transformation" = Str (lit "direct")
                \/ get m "transformation" = Str (lit "conditional"))))
      (mappings md))
    (default [] (parsed_modules (parseTemplate uid n text))).
Proof.
  eapply Forall_impl; [apply parseTemplate_parsed|]. intros md Hmd.
  eapply Forall_impl; [exact Hmd|]. intros m (id & fields & Hf & ->).
  destruct Hf; (split; [by vm_compute|]); [left|right|right];
    (split; [by vm_compute|]); try (by vm_compute);
    [left|right]; by vm_compute.
Qed.

(** What the expressions of the parser guarantee of a mapping. *)
Definition read_shape (m : Mapping) : Prop :=
  (get m "type" = Str (lit "module_call") ->
     exists callee, get m "moduleName" = Str callee /\ word callee = true)
  /\ (get m "transformation" = Str (lit "direct") ->
       exists source,
         get m "source" = Str source /\ source ≠ []
         /\ forallb (fun c => negb (is_space c)) source = true
         /\ (get m "transform" = Null
             \/ exists w, get m "transform" = Str w /\ word w = true))
  /\ (get m "transformation" = Str (lit "conditional") ->
       exists target condField condValue,
         get m "target" = Str target /\ target ≠ []
         /\ get m "condField" = Str condField /\ word condField = true
         /\ get m "condValue" = Str condValue /\ condValue ≠ []).

(** X16. For every text, the modules [parseTemplate] returns are named by
    identifiers ([main] or what [\w+] took), every module call names an
    identifier, every direct mapping has a non-empty source without blank
    and a transform that is [null] or an identifier, and every conditional
    mapping has a non-empty target and condition value and an identifier as
    condition field. *)
Theorem parseTemplate_shapes (uid : nat -> str) (n : nat) (text : str) :
  Forall (fun md => word (name md) = true /\ Forall read_shape (mappings md))
         (default [] (parsed_modules (parseTemplate uid n text))).
Proof.
  pose proof (parseTemplate_names_words uid n text) as Hnames.
  pose proof (parseTemplate_parsed uid n text) as Hmaps.
  unfold parsed_model in Hmaps.
  induction Hnames as [|md ms Hmd _ IH]; [constructor|].
  apply Forall_cons in Hmaps as [Hm Hms].
  constructor; [|by apply IH]. split; [done|].
  eapply Forall_impl; [exact Hm|]. intros m (id & fields & Hf & ->).
  destruct Hf as [callee Hc|target source transform Hs Hb Ht
                 |target condField condOp condValue thenValue elseValue
                    Ht Hf Hv];
    (split; [|split]); try (by vm_compute).
  - intros _. exists callee. split; [by vm_compute|done].
  - intros _. exists source. split; [by vm_compute|].
    split; [done|]. split; [done|].
    assert (get (obj (("id", id) ::
                      [ ("target", Str target); ("source", Str source);
                        ("transform", transform);
                        ("transformation", Str (lit "direct"));
                        ("type", Str (lit "field")); ("isNew", Bool false) ]))
                "transform" = transform) as -> by (by vm_compute).
    exact Ht.
  - intros _. exists target, condField, condValue.
    repeat split; try done; by vm_compute.
Qed.

(** ** The handlers of the component *)

Section HandlerFacts.

Variable uid : nat -> str.

Lemma filter_out_last {A} (l : list A) (x : A) :
  filter_out (length l) (l ++ [x]) = l.
Proof. induction l as [|y l IH]; [done|]. cbn. by rewrite IH. Qed.

Lemma filter_out_lookup {A} (idx j : nat) (l : list A) :
  filter_out idx l !! j = if j <? idx then l !! j else l !! S j.
Proof.
  revert idx j. induction l as [|x l IH]; intros idx j.
  - assert (filter_out idx (@nil A) = []) as -> by (by destruct idx).
    rewrite !lookup_nil. by destruct (j <? idx).
  - destruct idx as [|idx]; [done|]. destruct j as [|j]; [done|].
    cbn [filter_out]. rewrite !lookup_cons. cbn. rewrite IH. done.
Qed.

Lemma set_mappings_same (md : Module) (l : list Mapping) :
  set_mappings (mappings md) (set_mappings l md) = md.
Proof. by destruct md. Qed.

(** Deleting the row that was appended to the active module. *)
Lemma push_then_delete (s s1 : State) (md : Module) (m : Mapping) :
  modules s !! activeModule s = Some md ->
  modules s1
  = <[activeModule s := set_mappings (mappings md ++ [m]) md]> (modules s) ->
  activeModule s1 = activeModule s ->
  exists s2,
    deleteMapping (length (mappings md)) s1 = Done s2
    /\ modules s2 = modules s.
Proof.
  intros Hmd Hmods Hact. pose proof (lookup_lt_Some _ _ _ Hmd) as Hlt.
  unfold deleteMapping, updateModuleMappings, active_mappings.
  rewrite Hmods, Hact, list_lookup_insert_eq by done.
  cbn [mappings set_mappings]. rewrite filter_out_last.
  eexists. split; [reflexivity|]. cbn [modules with_modules].
  rewrite list_insert_insert_eq.
  change (set_mappings (mappings md) _) with (set_mappings (mappings md) md).
  replace (set_mappings (mappings md) md) with md by (by destruct md).
  by apply list_insert_id.
Qed.

End HandlerFacts.

(** X8. In a state whose active module exists, adding a row with
    [addMapping] or [addModuleCall] and then deleting the row at the index
    where it was appended gives back the list of modules from before;
    and [addModule] followed by [deleteModule] of the new module gives back
    the list of modules, with the last of them selected. *)
Theorem added_then_deleted (uid : nat -> str) (s : State) :
  activeModule s < length (modules s) ->
  (exists s1 s2,
     addMapping uid s = Done s1
     /\ deleteMapping (length (active_mappings s)) s1 = Done s2
     /\ modules s2 = modules s)
  /\ (exists s1 s2,
        addModuleCall uid s = Done s1
        /\ deleteMapping (length (active_mappings s)) s1 = Done s2
        /\ modules s2 = modules s)
  /\ modules (deleteModule (length (modules s)) (addModule uid s)) = modules s
  /\ activeModule (deleteModule (length (modules s)) (addModule uid s))
     = length (modules s) - 1.
Proof.
  intros Hact.
  destruct (lookup_lt_is_Some_2 _ _ Hact) as [md Hmd].
  assert (active_mappings s = mappings md) as El.
  { unfold active_mappings. by rewrite Hmd. }
  split; [|split].
  - assert (exists s1 m, addMapping uid s = Done s1
              /\ modules s1
                 = <[activeModule s := set_mappings (mappings md ++ [m]) md]>
                     (modules s)
              /\ activeModule s1 = activeModule s) as (s1 & m & H1 & Hm & Ha).
    { unfold addMapping, updateModuleMappings. rewrite Hmd, El. cbn [then_].
      eexists _, _. split; [reflexivity|]. split; reflexivity. }
    destruct (push_then_delete s s1 md m Hmd Hm Ha) as (s2 & Hdel & Hmods).
    exists s1, s2. by rewrite El.
  - assert (exists s1 m, addModuleCall uid s = Done s1
              /\ modules s1
                 = <[activeModule s := set_mappings (mappings md ++ [m]) md]>
                     (modules s)
              /\ activeModule s1 = activeModule s) as (s1 & m & H1 & Hm & Ha).
    { unfold addModuleCall, updateModuleMappings. rewrite Hmd, El. cbn [then_].
      eexists _, _. split; [reflexivity|]. split; reflexivity. }
    destruct (push_then_delete s s1 md m Hmd Hm Ha) as (s2 & Hdel & Hmods).
    exists s1, s2. by rewrite El.
  - unfold deleteModule, addModule.
    cbn [modules activeModule with_modules with_activeModule with_uids].
    rewrite length_app. cbn [length].
    replace (length (modules s) + 1 =? 1) with false
      by (symmetry; apply Nat.eqb_neq; lia).
    rewrite filter_out_last.
    rewrite (proj2 (Nat.leb_le _ _)) by lia. done.
Qed.

Lemma added_then_deleted_witness :
  (exists s1 s2,
     addMapping uid_sample (initial_state uid_sample) = Done s1
     /\ deleteMapping (length (active_mappings (initial_state uid_sample))) s1
        = Done s2
     /\ modules s2 = modules (initial_state uid_sample))
  /\ (exists s1 s2,
        addModuleCall uid_sample (initial_state uid_sample) = Done s1
        /\ deleteMapping (length (active_mappings (initial_state uid_sample))) s1
           = Done s2
        /\ modules s2 = modules (initial_state uid_sample))
  /\ modules (deleteModule (length (modules (initial_state uid_sample)))
                (addModule uid_sample (initial_state uid_sample)))
     = modules (initial_state uid_sample)
  /\ activeModule (deleteModule (length (modules (initial_state uid_sample)))
                     (addModule uid_sample (initial_state uid_sample)))
     = length (modules (initial_state uid_sample)) - 1.
Proof.
  apply (added_then_deleted uid_sample (initial_state uid_sample)).
  cbn. lia.
Defined.

(** X9. [deleteModule] does not follow the selected module. When a module
    is deleted from a list of at least two, the module selected afterwards
    is the one selected before only if the deleted module came after it, or
    if the selected module was the last one and another was deleted; when
    the deleted module is the selected one or comes before it, and the
    selected one is not the last, the module that followed the selected one
    is selected instead; when the last module is selected and deleted, the
    one before it is. *)
Theorem deleteModule_selection (idx : nat) (s : State) :
  idx < length (modules s) ->
  1 < length (modules s) ->
  activeModule s < length (modules s) ->
  modules (deleteModule idx s) !! activeModule (deleteModule idx s)
  = if activeModule s <? idx then modules s !! activeModule s
    else if S (activeModule s) <? length (modules s)
         then modules s !! S (activeModule s)
    else if idx =? activeModule s then modules s !! (activeModule s - 1)
    else modules s !! activeModule s.
Proof.
  intros Hidx Hlen Hact. unfold deleteModule.
  rewrite (proj2 (Nat.eqb_neq _ 1)) by lia.
  pose proof (filter_out_length idx (modules s)) as Hl.
  rewrite (proj2 (Nat.ltb_lt _ _) Hidx) in Hl.
  rewrite Hl.
  destruct (Nat.leb_spec (length (modules s) - 1) (activeModule s)) as [H|H];
    cbn [modules activeModule with_modules with_activeModule];
    rewrite filter_out_lookup.
  - rewrite (proj2 (Nat.ltb_ge (activeModule s) idx)) by lia.
    rewrite (proj2 (Nat.ltb_ge (S (activeModule s)) _)) by lia.
    destruct (Nat.eqb_spec idx (activeModule s)) as [->|Hne].
    + rewrite (proj2 (Nat.ltb_lt _ _)) by lia. f_equal. lia.
    + rewrite (proj2 (Nat.ltb_ge _ _)) by lia. f_equal. lia.
  - destruct (Nat.ltb_spec (activeModule s) idx); [done|].
    by rewrite (proj2 (Nat.ltb_lt (S (activeModule s)) _)) by lia.
Qed.

(** Three modules, the second of them selected. *)
Definition three_tabs : State :=
  with_activeModule 1
    (addModule uid_sample (addModule uid_sample (initial_state uid_sample))).

Lemma deleteModule_selection_witness :
  modules (deleteModule 0 three_tabs) !! activeModule (deleteModule 0 three_tabs)
  = if activeModule three_tabs <? 0 then modules three_tabs !! activeModule three_tabs
    else if S (activeModule three_tabs) <? length (modules three_tabs)
         then modules three_tabs !! S (activeModule three_tabs)
    else if 0 =? activeModule three_tabs
         then modules three_tabs !! (activeModule three_tabs - 1)
    else modules three_tabs !! activeModule three_tabs.
Proof.
  apply (deleteModule_selection 0 three_tabs); cbn; lia.
Defined.

(** X10. [updateMapping] on a row of the active module gives a row in which
    [isNew] is [false], every property of [updates] has the value given
    there, and every other property has the value it had; the other rows
    of the module, the other modules and the selection are as before. *)
Theorem updateMapping_lookup (idx : nat) (updates : Mapping) (s : State)
  (old : Mapping) :
  active_mappings s !! idx = Some old ->
  exists s' new,
    updateMapping idx updates s = Done s'
    /\ active_mappings s' !! idx = Some new
    /\ get new "isNew" = Bool false
    /\ (forall f, f ≠ "isNew" ->
          get new f = match updates !! f with
                      | Some v => v
                      | None => get old f
                      end)
    /\ (forall j, j ≠ idx -> active_mappings s' !! j = active_mappings s !! j)
    /\ length (active_mappings s') = length (active_mappings s)
    /\ (forall i, i ≠ activeModule s -> modules s' !! i = modules s !! i)
    /\ activeModule s' = activeModule s.
Proof.
  intros Hold. unfold updateMapping. rewrite Hold.
  unfold active_mappings in Hold |- *.
  destruct (modules s !! activeModule s) as [md|] eqn:Emd; [|done].
  pose proof (lookup_lt_Some _ _ _ Emd) as Hact.
  pose proof (lookup_lt_Some _ _ _ Hold) as Hidx.
  unfold updateModuleMappings. rewrite Emd.
  eexists _, (merge_updates old updates). split; [reflexivity|].
  cbn [modules activeModule with_modules].
  rewrite list_lookup_insert_eq by done. cbn [mappings set_mappings].
  split; [by rewrite list_lookup_insert_eq|].
  split; [apply get_insert_eq|]. split; [|split; [|split; [|split]]].
  - intros f Hf. unfold merge_updates. rewrite get_insert_ne by done.
    unfold get. rewrite lookup_union.
    destruct (updates !! f) as [v|]; [by destruct (old !! f)|].
    by destruct (old !! f).
  - intros j Hj. by rewrite list_lookup_insert_ne.
  - by rewrite length_insert.
  - intros i Hi. by rewrite list_lookup_insert_ne.
  - done.
Qed.

Lemma updateMapping_lookup_witness :
  exists s' new,
    updateMapping 0 {[ "target" := Str (lit "x") ]}
      (with_modules [round_trip_main] (initial_state uid_sample)) = Done s'
    /\ active_mappings s' !! 0 = Some new
    /\ get new "isNew" = Bool false
    /\ (forall f, f ≠ "isNew" ->
          get new f
          = match ({[ "target" := Str (lit "x") ]} : Mapping) !! f with
            | Some v => v
            | None => get (field_of "x" "a" Null) f
            end)
    /\ (forall j, j ≠ 0 ->
          active_mappings s' !! j
          = active_mappings
              (with_modules [round_trip_main] (initial_state uid_sample)) !! j)
    /\ length (active_mappings s')
       = length (active_mappings
                   (with_modules [round_trip_main] (initial_state uid_sample)))
    /\ (forall i,
          i ≠ activeModule
                (with_modules [round_trip_main] (initial_state uid_sample)) ->
          modules s' !! i
          = modules (with_modules [round_trip_main] (initial_state uid_sample))
              !! i)
    /\ activeModule s'
       = activeModule (with_modules [round_trip_main] (initial_state uid_sample)).
Proof.
  apply (updateMapping_lookup 0 {[ "target" := Str (lit "x") ]}
           (with_modules [round_trip_main] (initial_state uid_sample))
           (field_of "x" "a" Null)).
  reflexivity.
Defined.

(** ** The generator on what the parser and the handlers produce *)

Section Regeneration.

Lemma forEach_ok {A} (f : list str -> A -> result (list str)) (l : list A) :
  Forall (fun x => forall acc, exists acc', f acc x = Ok acc') l ->
  forall acc, exists acc', forEach f l acc = Ok acc'.
Proof.
  induction 1 as [|x l Hx _ IH]; intros acc; [by eexists|].
  cbn [forEach]. destruct (Hx acc) as [acc' ->]. cbn [mbind result_bind].
  apply IH.
Qed.

Lemma parsed_field_mapping (m : Mapping) (acc : list str) :
  parsed_mapping m -> exists acc', field_mapping acc m = Ok acc'.
Proof.
  intros (id & fields & Hf & ->). unfold field_mapping.
  destruct Hf as [callee _|target source transform _ _ _
                 |target condField condOp condValue thenValue elseValue _ _ _].
  - replace (TRANSFORMATION_PLUGINS _) with Absent by (by vm_compute).
    by eexists.
  - replace (TRANSFORMATION_PLUGINS _) with (Own direct) by (by vm_compute).
    replace (get _ "target") with (Str target) by (by vm_compute).
    destruct target as [|a s]; [by eexists|]. cbn. by eexists.
  - replace (TRANSFORMATION_PLUGINS _) with (Own conditional) by (by vm_compute).
    replace (get _ "target") with (Str target) by (by vm_compute).
    destruct target as [|a s]; [by eexists|].
    cbn [property_truthy negb orb truthy js_split_dot mbind result_bind
         call_generate generate].
    unfold generate_conditional.
    replace (get _ "thenValue") with (Str thenValue) by (by vm_compute).
    replace (get _ "elseValue") with (Str elseValue) by (by vm_compute).
    assert (forall v d, exists b, js_includes_dot (jsor (Str v) (Str d)) = Ok b)
      as Hdot.
    { intros v d. unfold jsor. destruct (truthy (Str v)); by eexists. }
    destruct (Hdot thenValue (lit "value1")) as [b1 ->].
    destruct (Hdot elseValue (lit "value2")) as [b2 ->].
    cbn [mbind result_bind]. by eexists.
Qed.

Lemma parsed_mapping_ok (in_main : bool) (m : Mapping) (acc : list str) :
  parsed_mapping m ->
  exists acc', (if in_main then main_mapping else helper_mapping) acc m = Ok acc'.
Proof.
  intros Hm. destruct (parsed_field_mapping m acc Hm) as [acc' Hacc].
  destruct in_main; unfold main_mapping, helper_mapping;
    destruct (is_str _ _); eauto.
Qed.

Lemma parsed_body_ok (in_main : bool) (l : list Mapping) :
  Forall parsed_mapping l ->
  exists body,
    forEach (if in_main then main_mapping else helper_mapping) l [] = Ok body.
Proof.
  intros H. apply forEach_ok. eapply Forall_impl; [exact H|].
  intros m Hm acc. by apply parsed_mapping_ok.
Qed.

Lemma parsed_model_generates (ms : list Module) :
  parsed_model ms -> exists code, generateCode ms = Ok code.
Proof.
  intros H. unfold generateCode. rewrite generateLines_layout.
  unfold spec_layout.
  assert (exists subs,
            mapM spec_subroutine (filter (fun md => is_helper md = true) ms)
            = Ok subs) as [subs ->].
  { unfold parsed_model in H.
    induction H as [|md ms Hmd _ IH]; [by eexists|].
    rewrite filter_cons. destruct (decide _); [|done].
    cbn [mapM]. destruct IH as [subs ->].
    assert (exists l, spec_subroutine md = Ok l) as [l ->]; [|by eexists].
    unfold spec_subroutine.
    destruct (parsed_body_ok false _ Hmd) as [body Hbody].
    cbn beta iota in Hbody. rewrite Hbody. by eexists. }
  cbn [mbind result_bind].
  destruct (List.find is_main ms) as [mainModule|] eqn:E; [|by eexists].
  assert (exists l, spec_entry_point mainModule = Ok l) as [l ->];
    [|by eexists].
  unfold spec_entry_point.
  destruct (parsed_body_ok true (mappings mainModule)) as [body Hbody].
  { apply find_some in E as [Hin _]. unfold parsed_model in H.
    rewrite Forall_forall in H. apply list_elem_of_In in Hin. by apply H. }
  cbn beta iota in Hbody. rewrite Hbody. by eexists.
Qed.

End Regeneration.

(** X11. Whatever the text of a template, [generateCode] returns a text on
    the modules [parseTemplate] read from it (and on the empty list when it
    read none): nothing the parser creates makes the generator throw. *)
Theorem parsed_modules_generate (uid : nat -> str) (n : nat) (text : str) :
  exists code,
    generateCode (default [] (parsed_modules (parseTemplate uid n text)))
    = Ok code.
Proof. apply parsed_model_generates, parseTemplate_parsed. Qed.

(** Two modules from which [generateCode] writes the same. *)
Definition same_text (a b : Module) : Prop :=
  is_main a = is_main b
  /\ is_helper a = is_helper b
  /\ spec_subroutine a = spec_subroutine b
  /\ spec_entry_point a = spec_entry_point b
  /\ existsb uses_regex (mappings a) = existsb uses_regex (mappings b).

Section SameText.

Variable uid : nat -> str.

Lemma same_text_refl (a : Module) : same_text a a.
Proof. by repeat split. Qed.

Lemma layout_same_text (ms ms' : list Module) :
  Forall2 same_text ms ms' -> spec_layout ms = spec_layout ms'.
Proof.
  intros H. unfold spec_layout.
  assert (mapM spec_subroutine (filter (fun md => is_helper md = true) ms)
          = mapM spec_subroutine (filter (fun md => is_helper md = true) ms'))
    as ->.
  { induction H as [|a b ms ms' (_ & Hh & Hs & _) _ IH]; [done|].
    rewrite !filter_cons, <- Hh.
    destruct (decide (is_helper a = true)); [|done].
    cbn [mapM]. by rewrite Hs, IH. }
  assert (match List.find is_main ms with
          | Some mainModule => spec_entry_point mainModule
          | None => Ok []
          end
          = match List.find is_main ms' with
            | Some mainModule => spec_entry_point mainModule
            | None => Ok []
            end) as ->.
  { induction H as [|a b ms ms' (Hm & _ & _ & He & _) _ IH]; [done|].
    cbn [List.find]. rewrite <- Hm. by destruct (is_main a). }
  assert (spec_preamble ms = spec_preamble ms') as ->; [|done].
  unfold spec_preamble. f_equal.
  assert (existsb (fun m => existsb uses_regex (mappings m)) ms
          = existsb (fun m => existsb uses_regex (mappings m)) ms') as ->;
    [|done].
  induction H as [|a b ms ms' (_ & _ & _ & _ & Hr) _ IH]; [done|].
  cbn [existsb]. by rewrite Hr, IH.
Qed.

Lemma generateCode_same_text (ms ms' : list Module) :
  Forall2 same_text ms ms' -> generateCode ms = generateCode ms'.
Proof.
  intros H. unfold generateCode.
  by rewrite !generateLines_layout, (layout_same_text ms ms').
Qed.

Lemma forEach_app {A S} (f : S -> A -> result S) (l1 l2 : list A) (acc : S) :
  forEach f (l1 ++ l2) acc = (acc' ← forEach f l1 acc; forEach f l2 acc').
Proof.
  revert acc. induction l1 as [|x l1 IH]; intros acc; [done|].
  cbn [app forEach]. destruct (f acc x) as [acc'|e]; [|done].
  cbn [mbind result_bind]. apply IH.
Qed.

(** The row [addMapping] appends. *)
Definition blank_row (id : str) : Mapping :=
  obj [ ("id", Str id); ("target", Str []); ("source", Str []);
        ("transformation", Str (lit "direct")); ("type", Str (lit "field"));
        ("isNew", Bool true) ].

Lemma blank_row_skipped (in_main : bool) (id : str) (acc : list str) :
  (if in_main then main_mapping else helper_mapping) acc (blank_row id) = Ok acc.
Proof.
  destruct in_main; unfold main_mapping, helper_mapping;
    (replace (is_str _ _) with false by (by vm_compute));
    apply field_mapping_skips_empty_target; by vm_compute.
Qed.

Lemma forEach_blank_row (in_main : bool) (l : list Mapping) (id : str) :
  forEach (if in_main then main_mapping else helper_mapping)
          (l ++ [blank_row id]) []
  = forEach (if in_main then main_mapping else helper_mapping) l [].
Proof.
  rewrite forEach_app. destruct (forEach _ l []) as [acc|e]; [|done].
  cbn [mbind result_bind forEach]. rewrite blank_row_skipped. done.
Qed.

Lemma same_text_blank_row (md : Module) (id : str) :
  is_main md = true \/ mappings md ≠ [] ->
  same_text md (set_mappings (mappings md ++ [blank_row id]) md).
Proof.
  intros H. unfold same_text, is_main, is_helper, is_main,
    spec_subroutine, spec_entry_point.
  cbn [name mappings set_mappings].
  rewrite (forEach_blank_row false), (forEach_blank_row true).
  rewrite existsb_app. cbn [existsb].
  replace (uses_regex (blank_row id)) with false by (by vm_compute).
  rewrite !orb_false_r, length_app. cbn [length].
  repeat split; try done.
  rewrite (proj2 (Nat.eqb_neq (length (mappings md) + 1) 0)) by lia.
  destruct H as [H|H].
  - unfold is_main in H. by rewrite H.
  - by destruct (mappings md).
Qed.

End SameText.

(** X12. A row that [addMapping] has just appended, with its empty
    target, leaves the generated text as it was, provided the active module
    is [main] or already holds a mapping (appended to a module without
    mapping that is not [main], the row makes the module's sub-routine
    appear); and so does the module that [addModule] has just appended. *)
Theorem fresh_rows_keep_code (uid : nat -> str) (s : State) :
  (forall md,
     modules s !! activeModule s = Some md ->
     is_main md = true \/ mappings md ≠ [] ->
     exists s',
       addMapping uid s = Done s'
       /\ generateCode (modules s') = generateCode (modules s))
  /\ generateCode (modules (addModule uid s)) = generateCode (modules s).
Proof.
  split.
  - intros md Hmd Hok. unfold addMapping, updateModuleMappings, active_mappings.
    rewrite Hmd. cbn [then_]. eexists. split; [reflexivity|].
    cbn [modules with_modules with_uids with_expandedRow].
    symmetry. apply generateCode_same_text.
    rewrite <- (list_insert_id (modules s) (activeModule s) md) at 1 by done.
    apply Forall2_insert.
    + apply Forall_Forall2_diag, Forall_forall. intros ? _.
      apply same_text_refl.
    + apply (same_text_blank_row md (uid (uids s)) Hok).
  - unfold addModule, generateCode.
    cbn [modules with_modules with_uids with_activeModule].
    rewrite !generateLines_layout. unfold spec_layout.
    set (new := mkModule _ _ []).
    assert (is_main new = false) as Hnew.
    { unfold is_main, str_eqb. apply bool_decide_eq_false_2.
      unfold new, lit. cbn. intros H. discriminate H. }
    rewrite filter_app, filter_cons, filter_nil.
    rewrite decide_False by (unfold is_helper; cbn; by rewrite andb_false_r).
    rewrite app_nil_r.
    assert (List.find is_main (modules s ++ [new]) = List.find is_main (modules s))
      as ->.
    { generalize (modules s). intros ms.
      induction ms as [|md ms IH]; cbn [app List.find];
        [by rewrite Hnew|]. by destruct (is_main md). }
    assert (spec_preamble (modules s ++ [new]) = spec_preamble (modules s))
      as ->; [|done].
    unfold spec_preamble. rewrite existsb_app. cbn. by rewrite !orb_false_r.
Qed.

Lemma fresh_rows_keep_code_witness :
  exists s',
    addMapping uid_sample (initial_state uid_sample) = Done s'
    /\ generateCode (modules s')
       = generateCode (modules (initial_state uid_sample)).
Proof.
  apply (proj1 (fresh_rows_keep_code uid_sample (initial_state uid_sample))
           (mkModule (uid_sample 0) (lit "main") [])).
  - reflexivity.
  - left. reflexivity.
Defined.

(** ** Skipped mappings and the generated text *)

(** A mapping both loop bodies pass over: it is not a module call, and the
    registry lookup finds nothing for its kind or its target is falsy
    ([if (!Plugin || !m.target) return]). *)
Definition skipped (m : Mapping) : bool :=
  negb (is_str (get m "type") "module_call")
  && (negb (property_truthy (TRANSFORMATION_PLUGINS (get m "transformation")))
      || negb (truthy (get m "target"))).

(** [modules.some(m => m.mappings.some(map => map.transformation === 'regex'))] *)
Definition hasRegex (modules : list Module) : bool :=
  existsb (fun m => existsb uses_regex (mappings m)) modules.

(** What a skipped mapping [m] still adds to the text: the import lines,
    when it is the only mapping of kind [regex] of the model, and the
    opening and closing lines of its module, when the module is not [main]
    and [others], its other mappings, are none. *)
Definition import_lines_of (m : Mapping) (without : list Module) : list str :=
  if uses_regex m && negb (hasRegex without)
  then [lit "import re"; []] else [].

Definition subroutine_lines_of (md : Module) (others : list Mapping) : list str :=
  if negb (is_main md) && (length others =? 0)
  then [ lit "def map_" ++ name md ++ lit "(INPUT, OUTPUT):";
         lit "    " ++ triple_quote ++ name md ++ lit " mappings" ++ triple_quote;
         [] ]
  else [].

Section Skipped.

Lemma skipped_passed (in_main : bool) (acc : list str) (m : Mapping) :
  skipped m = true ->
  (if in_main then main_mapping else helper_mapping) acc m = Ok acc.
Proof.
  unfold skipped. intros [Hty%negb_true_iff H]%andb_true_iff.
  destruct in_main; unfold main_mapping, helper_mapping, field_mapping;
    by rewrite Hty, H.
Qed.

Lemma forEach_skipped (in_main : bool) (l1 l2 : list Mapping) (m : Mapping)
  (acc : list str) :
  skipped m = true ->
  forEach (if in_main then main_mapping else helper_mapping) (l1 ++ m :: l2) acc
  = forEach (if in_main then main_mapping else helper_mapping) (l1 ++ l2) acc.
Proof.
  intros Hm. rewrite !forEach_app.
  destruct (forEach _ l1 acc) as [acc'|e]; [|done].
  cbn [mbind result_bind forEach]. by rewrite skipped_passed.
Qed.

Lemma spec_subroutine_skipped (md : Module) (l1 l2 : list Mapping) (m : Mapping) :
  skipped m = true ->
  spec_subroutine (set_mappings (l1 ++ m :: l2) md)
  = spec_subroutine (set_mappings (l1 ++ l2) md).
Proof.
  intros Hm. unfold spec_subroutine. cbn [mappings name set_mappings].
  by rewrite (forEach_skipped false).
Qed.

Lemma spec_entry_point_skipped (md : Module) (l1 l2 : list Mapping) (m : Mapping) :
  skipped m = true ->
  spec_entry_point (set_mappings (l1 ++ m :: l2) md)
  = spec_entry_point (set_mappings (l1 ++ l2) md).
Proof.
  intros Hm. unfold spec_entry_point. cbn [mappings name set_mappings].
  by rewrite (forEach_skipped true).
Qed.

Lemma mapM_app {A B} (f : A -> result B) (a b : list A) :
  mapM f (a ++ b) = (xs ← mapM f a; ys ← mapM f b; Ok (xs ++ ys)).
Proof.
  induction a as [|x a IH]; cbn [app mapM].
  - cbn [mbind result_bind]. by destruct (mapM f b).
  - destruct (f x) as [y|e]; [|done]. cbn [mbind result_bind]. rewrite IH.
    destruct (mapM f a) as [xs|e]; [|done]. cbn [mbind result_bind].
    by destruct (mapM f b).
Qed.

Lemma entry_skipped (before after : list Module) (md : Module)
  (l1 l2 : list Mapping) (m : Mapping) :
  skipped m = true ->
  match List.find is_main (before ++ set_mappings (l1 ++ m :: l2) md :: after) with
  | Some mainModule => spec_entry_point mainModule
  | None => Ok []
  end
  = match List.find is_main (before ++ set_mappings (l1 ++ l2) md :: after) with
    | Some mainModule => spec_entry_point mainModule
    | None => Ok []
    end.
Proof.
  intros Hm. induction before as [|a before IH]; cbn [app List.find].
  - change (is_main (set_mappings (l1 ++ m :: l2) md)) with (is_main md).
    change (is_main (set_mappings (l1 ++ l2) md)) with (is_main md).
    destruct (is_main md); [|done]. by apply spec_entry_point_skipped.
  - by destruct (is_main a).
Qed.

Lemma hasRegex_skipped (before after : list Module) (md : Module)
  (l1 l2 : list Mapping) (m : Mapping) :
  hasRegex (before ++ set_mappings (l1 ++ m :: l2) md :: after)
  = hasRegex (before ++ set_mappings (l1 ++ l2) md :: after) || uses_regex m.
Proof.
  unfold hasRegex. rewrite !existsb_app. cbn [existsb mappings set_mappings].
  rewrite !existsb_app. cbn [existsb].
  destruct (existsb _ before), (existsb uses_regex l1), (uses_regex m),
    (existsb uses_regex l2), (existsb _ after); done.
Qed.

Lemma spec_preamble_skipped (before after : list Module) (md : Module)
  (l1 l2 : list Mapping) (m : Mapping) :
  let without := before ++ set_mappings (l1 ++ l2) md :: after in
  exists imports,
    spec_preamble without = header_lines ++ imports
    /\ spec_preamble (before ++ set_mappings (l1 ++ m :: l2) md :: after)
       = header_lines ++ import_lines_of m without ++ imports.
Proof.
  intros without. unfold spec_preamble, import_lines_of.
  change (existsb _ (before ++ set_mappings (l1 ++ m :: l2) md :: after))
    with (hasRegex (before ++ set_mappings (l1 ++ m :: l2) md :: after)).
  change (existsb _ without) with (hasRegex without).
  rewrite hasRegex_skipped. fold without.
  destruct (hasRegex without), (uses_regex m); cbn [orb andb negb];
    eexists; (split; [reflexivity|]); by rewrite ?app_nil_r.
Qed.

(** The sub-routines of the two models: the same ones, but for the one of
    the module of [m] when that module holds nothing else. *)
Lemma subroutines_skipped (before after : list Module) (md : Module)
  (l1 l2 : list Mapping) (m : Mapping) :
  skipped m = true ->
  match mapM spec_subroutine
          (filter (fun md => is_helper md = true)
                  (before ++ set_mappings (l1 ++ l2) md :: after)) with
  | Throw e =>
      mapM spec_subroutine
        (filter (fun md => is_helper md = true)
                (before ++ set_mappings (l1 ++ m :: l2) md :: after))
      = Throw e
  | Ok subs =>
      exists x y,
        concat subs = x ++ y
        /\ exists subs',
             mapM spec_subroutine
               (filter (fun md => is_helper md = true)
                       (before ++ set_mappings (l1 ++ m :: l2) md :: after))
             = Ok subs'
             /\ concat subs' = x ++ subroutine_lines_of md (l1 ++ l2) ++ y
  end.
Proof.
  intros Hm. rewrite !filter_app, !filter_cons, !mapM_app.
  destruct (mapM spec_subroutine (filter _ before)) as [sb|e]; [|done].
  cbn [mbind result_bind].
  unfold subroutine_lines_of, is_helper.
  change (is_main (set_mappings (l1 ++ m :: l2) md)) with (is_main md).
  change (is_main (set_mappings (l1 ++ l2) md)) with (is_main md).
  cbn [mappings set_mappings].
  replace (length (l1 ++ m :: l2) =? 0) with false
    by (symmetry; apply Nat.eqb_neq; rewrite length_app; cbn; lia).
  destruct (is_main md); cbn [negb andb].
  - rewrite !decide_False by done. cbn [app].
    destruct (mapM spec_subroutine (filter _ after)) as [sa|e]; [|done].
    cbn [mbind result_bind].
    exists (concat sb), (concat sa). split; [by rewrite concat_app|].
    eexists. split; [reflexivity|]. by rewrite concat_app.
  - destruct (length (l1 ++ l2) =? 0) eqn:Elen; cbn [negb].
    + rewrite (decide_False (P := false = true)) by done.
      rewrite (decide_True (P := true = true)) by done.
      apply Nat.eqb_eq, length_zero_iff_nil in Elen.
      apply app_eq_nil in Elen as [-> ->]. cbn [app mapM].
      assert (spec_subroutine (set_mappings [m] md)
              = Ok [ lit "def map_" ++ name md ++ lit "(INPUT, OUTPUT):";
                     lit "    " ++ triple_quote ++ name md ++ lit " mappings"
                       ++ triple_quote; [] ]) as ->.
      { unfold spec_subroutine. cbn [mappings name set_mappings forEach].
        by rewrite (skipped_passed false). }
      cbn [mbind result_bind].
      destruct (mapM spec_subroutine (filter _ after)) as [sa|e]; [|done].
      cbn [mbind result_bind].
      exists (concat sb), (concat sa). split; [by rewrite concat_app|].
      eexists. split; [reflexivity|]. by rewrite concat_app.
    + rewrite !(decide_True (P := true = true)) by done. cbn [app mapM].
      rewrite (spec_subroutine_skipped md l1 l2 m Hm).
      destruct (spec_subroutine (set_mappings (l1 ++ l2) md)) as [s|e]; [|done].
      cbn [mbind result_bind].
      destruct (mapM spec_subroutine (filter _ after)) as [sa|e]; [|done].
      cbn [mbind result_bind].
      eexists _, []. split; [by rewrite app_nil_r|].
      eexists. split; [reflexivity|]. by rewrite !app_nil_r.
Qed.

End Skipped.

(** C6. A mapping that is not a module call and whose target is empty (or
    otherwise falsy), or for whose kind the registry lookup finds nothing,
    pushes no line, and the other mappings are generated as without it: in
    any model and at any place of any module, generation with the mapping
    fails exactly when it fails without it, with the same error, and
    otherwise the lines are those of the text without the mapping, with
    two possible additions: [import re] and a blank line after the header
    when the mapping is the only one of kind [regex] of the model, and the
    [def] line, the docstring and the blank line of its module when that
    module is not [main] and holds no other mapping. When neither applies
    the two texts are the same. *)
Theorem C6_skipped_mapping (before after : list Module) (md : Module)
  (l1 l2 : list Mapping) (m : Mapping) :
  skipped m = true ->
  let without := before ++ set_mappings (l1 ++ l2) md :: after in
  let with_m := before ++ set_mappings (l1 ++ m :: l2) md :: after in
  match generateLines without with
  | Throw e => generateLines with_m = Throw e
  | Ok lines =>
      exists x y,
        lines = header_lines ++ x ++ y
        /\ generateLines with_m
           = Ok (header_lines ++ import_lines_of m without ++ x
                   ++ subroutine_lines_of md (l1 ++ l2) ++ y)
  end
  /\ ((is_main md = true \/ l1 ++ l2 ≠ []) ->
      (uses_regex m = false \/ hasRegex without = true) ->
      generateCode with_m = generateCode without).
Proof.
  intros Hm without with_m.
  assert (match generateLines without with
          | Throw e => generateLines with_m = Throw e
          | Ok lines =>
              exists x y,
                lines = header_lines ++ x ++ y
                /\ generateLines with_m
                   = Ok (header_lines ++ import_lines_of m without ++ x
                           ++ subroutine_lines_of md (l1 ++ l2) ++ y)
          end) as Hlines.
  { rewrite !generateLines_layout. unfold spec_layout.
    pose proof (subroutines_skipped before after md l1 l2 m Hm) as Hs.
    pose proof (entry_skipped before after md l1 l2 m Hm) as He.
    destruct (spec_preamble_skipped before after md l1 l2 m)
      as (imports & Hp & Hp').
    fold without with_m in Hs, He, Hp, Hp'.
    destruct (mapM spec_subroutine (filter _ without)) as [subs|e].
    - destruct Hs as (x & y & Hxy & subs' & -> & Hsubs').
      cbn [mbind result_bind]. rewrite He.
      destruct (match List.find is_main without with
                | Some mainModule => spec_entry_point mainModule
                | None => Ok []
                end) as [entry|e]; cbn [mbind result_bind]; [|done].
      exists (imports ++ x), (y ++ entry). split.
      + by rewrite Hp, Hxy, <- !app_assoc.
      + rewrite Hp', Hsubs'. by rewrite <- !app_assoc.
    - by rewrite Hs. }
  split; [exact Hlines|]. intros Hsub Himp. unfold generateCode.
  assert (import_lines_of m without = []) as Ei.
  { unfold import_lines_of. by destruct Himp as [-> | ->]; rewrite ?andb_false_r. }
  assert (subroutine_lines_of md (l1 ++ l2) = []) as Es.
  { unfold subroutine_lines_of. destruct Hsub as [-> | Hne]; [done|].
    destruct (l1 ++ l2); [done|]. by rewrite andb_false_r. }
  rewrite Ei, Es in Hlines.
  destruct (generateLines without) as [lines|e]; [|by rewrite Hlines].
  destruct Hlines as (x & y & -> & ->). done.
Qed.

(** The row [addMapping] appends, after the kind selector has set its kind
    to [regex]. *)
Definition blank_regex_row : Mapping :=
  obj [ ("id", Str (lit "m_2")); ("target", Str []); ("source", Str []);
        ("transformation", Str (lit "regex")); ("type", Str (lit "field"));
        ("isNew", Bool false) ].

Lemma C6_skipped_mapping_witness :
  let md := mkModule (lit "m_1") (lit "module_1") [] in
  let without := [main_of []] ++ set_mappings ([] ++ []) md :: [] in
  let with_m := [main_of []] ++ set_mappings ([] ++ blank_regex_row :: []) md :: [] in
  match generateLines without with
  | Throw e => generateLines with_m = Throw e
  | Ok lines =>
      exists x y,
        lines = header_lines ++ x ++ y
        /\ generateLines with_m
           = Ok (header_lines ++ import_lines_of blank_regex_row without ++ x
                   ++ subroutine_lines_of md ([] ++ []) ++ y)
  end
  /\ ((is_main md = true \/ [] ++ [] ≠ ([] : list Mapping)) ->
      (uses_regex blank_regex_row = false \/ hasRegex without = true) ->
      generateCode with_m = generateCode without).
Proof.
  apply (C6_skipped_mapping [main_of []] [] (mkModule (lit "m_1") (lit "module_1") [])
           [] [] blank_regex_row).
  by vm_compute.
Defined.

(** C6 fails as stated, at models the handlers produce. The row that
    [addMapping] appends to the module that [addModule] has just made has
    an empty target, and with it the text has three lines more than
    without it: the [def] line, the docstring and the blank line of the
    module. The same row in [main], once its kind is [regex], puts
    [import re] and a blank line into the text. And the row that
    [addModuleCall] appends has no kind at all, which the registry does
    not know, and yet pushes its three lines. *)
Lemma C6_counterexample :
  let s0 := initial_state uid_sample in
  let s1 := addModule uid_sample s0 in
  let entry := entry_point_lines (main_of []) in
  (exists s2 row,
     addMapping uid_sample s1 = Done s2
     /\ modules s1 = [ mkModule (lit "m_0") (lit "main") [];
                       mkModule (lit "m_1") (lit "module_1") [] ]
     /\ modules s2 = [ mkModule (lit "m_0") (lit "main") [];
                       mkModule (lit "m_1") (lit "module_1") [row] ]
     /\ get row "type" = Str (lit "field") /\ get row "target" = Str []
     /\ generateLines (modules s1) = Ok (header_lines ++ entry)
     /\ generateLines (modules s2)
        = Ok (header_lines
              ++ [ lit "def map_module_1(INPUT, OUTPUT):";
                   lit "    " ++ triple_quote ++ lit "module_1 mappings"
                     ++ triple_quote;
                   [] ]
              ++ entry))
  /\ (exists s2 s3 row,
        addMapping uid_sample s0 = Done s2
        /\ updateMapping 0 {[ "transformation" := Str (lit "regex") ]} s2 = Done s3
        /\ modules s3 = [mkModule (lit "m_0") (lit "main") [row]]
        /\ get row "type" = Str (lit "field") /\ get row "target" = Str []
        /\ generateLines (modules s0) = Ok (header_lines ++ entry)
        /\ generateLines (modules s3)
           = Ok (header_lines ++ [lit "import re"; []] ++ entry))
  /\ (exists s2 row,
        addModuleCall uid_sample s0 = Done s2
        /\ modules s2 = [mkModule (lit "m_0") (lit "main") [row]]
        /\ TRANSFORMATION_PLUGINS (get row "transformation") = Absent
        /\ generateLines (modules s2)
           = Ok (header_lines
                 ++ [ lit "def transform(INPUT):";
                      lit "    " ++ triple_quote ++ lit "Main transformation"
                        ++ triple_quote;
                      lit "    OUTPUT = {}"; lit "    ";
                      lit "    # Call  module"; lit "    map_(INPUT, OUTPUT)";
                      lit "    ";
                      lit "    "; lit "    return OUTPUT" ])).
Proof.
  split; [|split].
  - eexists _, _. split; [reflexivity|]. by vm_compute.
  - eexists _, _, _. split; [reflexivity|]. split; [reflexivity|]. by vm_compute.
  - eexists _, _. split; [reflexivity|]. by vm_compute.
Qed.

(** ** The rows shown for the active module *)

(** An element of [displayMappings]: a mapping and its index in
    [mappings]. *)
Record row : Type := mkRow {
  row_m : Mapping;
  realIdx : nat
}.

(** [mappings.map((m, i) => ({ m, realIdx: i }))] *)
Definition indexed (mappings : list Mapping) : list row :=
  imap (fun i m => mkRow m i) mappings.

(** The value of the [useMemo] that computes [displayMappings]. *)
Definition displayMappings (mappings : list Mapping) : list row :=
  let fields :=
    filter (fun x => is_str (get (row_m x) "type") "field" = true)
           (indexed mappings) in
  let calls :=
    filter (fun x => is_str (get (row_m x) "type") "module_call" = true)
           (indexed mappings) in
  fields ++ calls.

Section Rows.

Lemma indexed_lookup (l : list Mapping) (x : row) :
  x ∈ indexed l <-> l !! realIdx x = Some (row_m x).
Proof.
  unfold indexed. rewrite elem_of_lookup_imap. split.
  - intros (i & m & -> & H). done.
  - intros H. exists (realIdx x), (row_m x). by destruct x.
Qed.

Lemma indexed_realIdx (l : list Mapping) :
  realIdx <$> indexed l = List.seq 0 (length l).
Proof.
  unfold indexed. rewrite fmap_imap.
  assert (forall n, imap (fun i _ => n + i) l = List.seq n (length l)) as H.
  { induction l as [|m l IH]; intros n; [done|]. cbn [imap length List.seq].
    f_equal; [lia|]. rewrite <- IH. apply imap_ext. intros. cbn. lia. }
  apply (H 0).
Qed.

Lemma NoDup_filter_fmap {A B} (f : A -> B) (P : A -> Prop)
  `{!forall x, Decision (P x)} (l : list A) :
  NoDup (f <$> l) -> NoDup (f <$> filter P l).
Proof.
  induction l as [|x l IH]; [done|]. cbn [fmap list_fmap].
  intros [Hx Hl]%NoDup_cons. rewrite filter_cons.
  destruct (decide (P x)); [|by apply IH]. cbn [fmap list_fmap].
  apply NoDup_cons. split; [|by apply IH].
  intros (y & E & Hy)%list_elem_of_fmap. apply Hx.
  apply list_elem_of_fmap. exists y. split; [done|].
  by apply list_elem_of_filter in Hy as [_ ?].
Qed.

End Rows.

(** X13. Each row of [displayMappings] carries in [realIdx] the index at
    which its mapping stands in [mappings], so that the buttons of a row
    update and delete the mapping shown; no mapping is shown twice; and a
    mapping is shown exactly when its [type] is [field] or [module_call]:
    a mapping without [type] has no row. *)
Theorem displayMappings_rows (mappings : list Mapping) :
  (forall x, x ∈ displayMappings mappings ->
     mappings !! realIdx x = Some (row_m x))
  /\ NoDup (realIdx <$> displayMappings mappings)
  /\ (forall i m, mappings !! i = Some m ->
        (mkRow m i ∈ displayMappings mappings
         <-> get m "type" = Str (lit "field")
             \/ get m "type" = Str (lit "module_call"))).
Proof.
  unfold displayMappings. split; [|split].
  - intros x [[_ H]%list_elem_of_filter|[_ H]%list_elem_of_filter]%elem_of_app;
      by apply indexed_lookup.
  - rewrite fmap_app. apply NoDup_app. split; [|split].
    + apply NoDup_filter_fmap. rewrite indexed_realIdx.
      apply NoDup_ListNoDup, List.seq_NoDup.
    + intros i (x & -> & [Hx Hinx]%list_elem_of_filter)%list_elem_of_fmap
        (y & E & [Hy Hiny]%list_elem_of_filter)%list_elem_of_fmap.
      apply indexed_lookup in Hinx, Hiny. rewrite E, Hiny in Hinx.
      injection Hinx as Hxy. rewrite Hxy in Hy.
      apply is_str_eq in Hx, Hy. rewrite Hx in Hy. discriminate Hy.
    + apply NoDup_filter_fmap. rewrite indexed_realIdx.
      apply NoDup_ListNoDup, List.seq_NoDup.
  - intros i m Hm. rewrite elem_of_app, !list_elem_of_filter, indexed_lookup.
    cbn [row_m realIdx]. unfold is_str, strict_eq.
    rewrite !bool_decide_eq_true. tauto.
Qed.

(** ** The fields of a schema *)

(** A value that [JSON.parse] returns. An object is the list of its
    properties in the order [Object.keys] enumerates them; the value of a
    number is never looked at. *)
#[local] Unset Elimination Schemes.
Inductive json : Type :=
  | JNull
  | JBool (b : bool)
  | JNumber
  | JString (s : str)
  | JArray (items : list json)
  | JObject (properties : list (str * json)).
#[local] Set Elimination Schemes.

(** An element of the array [extractFields] returns. *)
Record field : Type := mkField {
  path : str;
  type : str;
  depth : nat
}.

(** [typeof value] *)
Definition typeof (value : json) : str :=
  match value with
  | JNull | JArray _ | JObject _ => lit "object"
  | JBool _ => lit "boolean"
  | JNumber => lit "number"
  | JString _ => lit "string"
  end.

(** [typeof value === "object" && !Array.isArray(value)] *)
Definition is_plain_object (value : json) : bool :=
  match value with
  | JNull | JObject _ => true
  | _ => false
  end.

(** The path of property [key] of the object at [path]:
    [path ? `${path}.${key}` : key]. *)
Definition newPath (path key : str) : str :=
  match path with
  | [] => key
  | _ :: _ => path ++ lit "." ++ key
  end.

(** [newPath.split(".").length - 1] *)
Definition path_depth (p : str) : nat := length (split chr_dot p) - 1.

(** What one call of [traverse(current, path)] pushes onto [fields]. *)
Fixpoint traverse (current : json) (path : str) : list field :=
  match current with
  | JObject properties =>
      (fix each (properties : list (str * json)) : list field :=
         match properties with
         | [] => []
         | (key, value) :: rest =>
             let p := newPath path key in
             (if is_plain_object value
              then mkField p (lit "object") (path_depth p) :: traverse value p
              else [mkField p
                      (match value with
                       | JString s => s
                       | _ => typeof value
                       end)
                      (path_depth p)])
             ++ each rest
         end) properties
  | _ => []
  end.

(** [extractFields(obj, prefix = "")] *)
Definition extractFields (obj : json) (prefix : str) : list field :=
  traverse obj prefix.

(** The sample schemas of [loadSample]. *)
Definition sampleInput : json :=
  JObject
    [ (lit "customer",
       JObject [ (lit "firstName", JString (lit "string"));
                 (lit "lastName", JString (lit "string"));
                 (lit "email", JString (lit "string")) ]);
      (lit "loan",
       JObject [ (lit "amount", JString (lit "number"));
                 (lit "type", JString (lit "string")) ]) ].

Definition sampleOutput : json :=
  JObject
    [ (lit "CUSTOMER",
       JObject [ (lit "FIRST_NAME", JString (lit "string"));
                 (lit "LAST_NAME", JString (lit "string")) ]);
      (lit "LOAN",
       JObject [ (lit "AMOUNT", JString (lit "number"));
                 (lit "TYPE", JString (lit "string")) ]) ].

(** The keys on the way to each property of the nested objects of a
    value, parents first; what is inside an array is not visited. *)
Fixpoint key_paths (current : json) : list (list str) :=
  match current with
  | JObject properties =>
      (fix each (properties : list (str * json)) : list (list str) :=
         match properties with
         | [] => []
         | (key, value) :: rest =>
             ([key] :: map (cons key) (key_paths value)) ++ each rest
         end) properties
  | _ => []
  end.

(** Every key of every nested object is non-empty and holds no dot. *)
Fixpoint plain_keys (current : json) : bool :=
  match current with
  | JObject properties =>
      (fix each (properties : list (str * json)) : bool :=
         match properties with
         | [] => true
         | (key, value) :: rest =>
             negb (bool_decide (key = [])) && negb (includes chr_dot key)
             && plain_keys value && each rest
         end) properties
  | _ => true
  end.

(** No nested object has a key twice. *)
Fixpoint distinct_keys (current : json) : bool :=
  match current with
  | JObject properties =>
      bool_decide (NoDup properties.*1)
      && (fix each (properties : list (str * json)) : bool :=
            match properties with
            | [] => true
            | (_, value) :: rest => distinct_keys value && each rest
            end) properties
  | _ => true
  end.

Section Json.

(** Induction on a value, with the hypothesis for the values of the
    properties of an object. *)
Lemma json_properties_ind (P : json -> Prop) :
  P JNull -> (forall b, P (JBool b)) -> P JNumber -> (forall s, P (JString s)) ->
  (forall items, P (JArray items)) ->
  (forall properties,
     Forall (fun kv => P kv.2) properties -> P (JObject properties)) ->
  forall v, P v.
Proof.
  intros HN HB HNum HS HA HO.
  fix IH 1. intros [|b| |s|items|properties].
  - exact HN.
  - apply HB.
  - exact HNum.
  - apply HS.
  - apply HA.
  - apply HO. induction properties as [|[k v] rest IHrest]; constructor.
    + apply IH.
    + exact IHrest.
Qed.

Lemma traverse_cons (key : str) (value : json) (rest : list (str * json))
  (path : str) :
  traverse (JObject ((key, value) :: rest)) path
  = (if is_plain_object value
     then mkField (newPath path key) (lit "object") (path_depth (newPath path key))
          :: traverse value (newPath path key)
     else [mkField (newPath path key)
             (match value with
              | JString s => s
              | _ => typeof value
              end)
             (path_depth (newPath path key))])
    ++ traverse (JObject rest) path.
Proof. reflexivity. Qed.

Lemma key_paths_cons (key : str) (value : json) (rest : list (str * json)) :
  key_paths (JObject ((key, value) :: rest))
  = ([key] :: map (cons key) (key_paths value)) ++ key_paths (JObject rest).
Proof. reflexivity. Qed.

Lemma plain_keys_cons (key : str) (value : json) (rest : list (str * json)) :
  plain_keys (JObject ((key, value) :: rest)) = true
  <-> key ≠ [] /\ includes chr_dot key = false
      /\ plain_keys value = true /\ plain_keys (JObject rest) = true.
Proof.
  cbn [plain_keys]. rewrite !andb_true_iff, !negb_true_iff, bool_decide_eq_false.
  tauto.
Qed.

Lemma distinct_keys_cons (key : str) (value : json) (rest : list (str * json)) :
  distinct_keys (JObject ((key, value) :: rest)) = true
  <-> (key ∉ rest.*1) /\ distinct_keys value = true
      /\ distinct_keys (JObject rest) = true.
Proof.
  cbn [distinct_keys]. rewrite !andb_true_iff, !bool_decide_eq_true.
  cbn [fmap list_fmap fst]. rewrite NoDup_cons. tauto.
Qed.

Lemma key_paths_nonempty (v : json) : Forall (fun kp => kp ≠ []) (key_paths v).
Proof.
  induction v as [| | | | |properties IH] using json_properties_ind;
    try constructor.
  induction properties as [|[k v] rest IHrest]; [constructor|].
  rewrite key_paths_cons. apply Forall_inv_tail in IH as IHtail.
  apply Forall_app. split; [|by apply IHrest].
  constructor; [done|]. apply Forall_fmap. by apply Forall_true.
Qed.

Lemma key_paths_leaf (v : json) : is_plain_object v = false -> key_paths v = [].
Proof. by destruct v. Qed.

Lemma newPath_join (p k : str) (kp : list str) :
  k ≠ [] -> kp ≠ [] ->
  newPath (newPath p k) (join (lit ".") kp) = newPath p (join (lit ".") (k :: kp)).
Proof.
  intros Hk Hkp. destruct kp as [|k' kp]; [done|].
  change (join (lit ".") (k :: k' :: kp))
    with (k ++ lit "." ++ join (lit ".") (k' :: kp)).
  destruct p as [|a p]; cbn [newPath].
  - by destruct k.
  - change ((a :: p) ++ lit "." ++ k) with (a :: (p ++ lit "." ++ k)).
    cbn [newPath]. change (a :: (p ++ lit "." ++ k)) with ((a :: p) ++ lit "." ++ k).
    by rewrite <- !app_assoc.
Qed.

(** The paths listed are the paths of keys, joined with dots after the
    prefix. *)
Lemma traverse_paths (v : json) :
  plain_keys v = true ->
  forall p,
    map path (traverse v p)
    = map (fun kp => newPath p (join (lit ".") kp)) (key_paths v).
Proof.
  induction v as [| | | | |properties IH] using json_properties_ind; try done.
  induction properties as [|[k v] rest IHrest]; [done|].
  intros (Hk & _ & Hv & Hrest)%plain_keys_cons p.
  apply Forall_cons in IH as [IHv IHtail]. cbn [snd] in IHv.
  rewrite traverse_cons, key_paths_cons, !map_app, (IHrest IHtail Hrest p).
  f_equal. destruct (is_plain_object v) eqn:E.
  - cbn [map path]. f_equal. rewrite (IHv Hv), map_map.
    apply map_ext_Forall. eapply Forall_impl; [apply key_paths_nonempty|].
    intros kp Hkp. cbn beta. by apply newPath_join.
  - by rewrite (key_paths_leaf v E).
Qed.

Lemma traverse_depth (v : json) (p : str) :
  Forall (fun f => depth f = path_depth (path f)) (traverse v p).
Proof.
  revert p.
  induction v as [| | | | |properties IH] using json_properties_ind;
    try constructor.
  induction properties as [|[k v] rest IHrest]; intros p; [constructor|].
  apply Forall_cons in IH as [IHv IHtail]. cbn [snd] in IHv.
  rewrite traverse_cons. apply Forall_app. split; [|by apply IHrest].
  destruct (is_plain_object v); constructor; done.
Qed.

End Json.

Section JsonPaths.

Lemma split_join_dots (kp : list str) :
  kp ≠ [] -> Forall (fun k => includes chr_dot k = false) kp ->
  split chr_dot (join (lit ".") kp) = kp.
Proof.
  intros Hne H. induction H as [|k kp Hk _ IH]; [done|].
  destruct kp as [|k' kp].
  - cbn [join]. by apply split_no_sep.
  - change (join (lit ".") (k :: k' :: kp))
      with (k ++ chr_dot :: join (lit ".") (k' :: kp)).
    rewrite split_app_sep by done. by rewrite IH.
Qed.

Lemma key_paths_plain (v : json) :
  plain_keys v = true ->
  Forall (Forall (fun k => includes chr_dot k = false)) (key_paths v).
Proof.
  induction v as [| | | | |properties IH] using json_properties_ind;
    try (intros _; constructor).
  induction properties as [|[k v] rest IHrest]; [constructor|].
  intros (_ & Hk & Hv & Hrest)%plain_keys_cons.
  apply Forall_cons in IH as [IHv IHtail]. cbn [snd] in IHv.
  rewrite key_paths_cons. apply Forall_app. split; [|by apply IHrest].
  constructor; [by repeat constructor|].
  apply Forall_fmap. eapply Forall_impl; [by apply IHv|].
  intros kp Hkp. by constructor.
Qed.

Lemma key_paths_head (properties : list (str * json)) (kp : list str) :
  kp ∈ key_paths (JObject properties) ->
  exists k tl, kp = k :: tl /\ k ∈ properties.*1.
Proof.
  induction properties as [|[k v] rest IH]; [by intros ?%elem_of_nil|].
  rewrite key_paths_cons, elem_of_app, elem_of_cons, list_elem_of_fmap.
  intros [[->|(tl & -> & _)]|H].
  - exists k, []. split; [done|]. by left.
  - exists k, tl. split; [done|]. by left.
  - destruct (IH H) as (k' & tl & -> & Hk'). exists k', tl.
    split; [done|]. by right.
Qed.

Lemma key_paths_NoDup (v : json) :
  distinct_keys v = true -> NoDup (key_paths v).
Proof.
  induction v as [| | | | |properties IH] using json_properties_ind;
    try (intros _; constructor).
  induction properties as [|[k v] rest IHrest]; [constructor|].
  intros (Hk & Hv & Hrest)%distinct_keys_cons.
  apply Forall_cons in IH as [IHv IHtail]. cbn [snd] in IHv.
  rewrite key_paths_cons. apply NoDup_app. split; [|split].
  - apply NoDup_cons. split.
    + intros (tl & [= <-] & Htl)%list_elem_of_fmap.
      pose proof (key_paths_nonempty v) as Hne. rewrite Forall_forall in Hne.
      by apply (Hne [] Htl).
    + apply (NoDup_fmap_2 (cons k)). by apply IHv.
  - intros kp Hkp (k' & tl & -> & Hk')%key_paths_head. apply Hk.
    apply elem_of_cons in Hkp as [[= -> _]|(tl' & [= -> _] & _)%list_elem_of_fmap];
      done.
  - by apply IHrest.
Qed.

Lemma join_dots_inj (kp kp' : list str) :
  kp ≠ [] -> kp' ≠ [] ->
  Forall (fun k => includes chr_dot k = false) kp ->
  Forall (fun k => includes chr_dot k = false) kp' ->
  join (lit ".") kp = join (lit ".") kp' -> kp = kp'.
Proof.
  intros Hne Hne' H H' E.
  rewrite <- (split_join_dots kp), <- (split_join_dots kp') by done.
  by rewrite E.
Qed.

End JsonPaths.

(** X14. On a schema in which no key of a nested object is empty or holds
    a dot, [extractFields] lists one field for each key of the schema and
    of the objects nested in it, parents before their properties and
    nothing from inside an array; the path of a field is the keys on the
    way to it joined with dots, and its depth is the number of keys above
    it. If moreover no object has a key twice, no two fields have the same
    path. *)
Theorem extractFields_paths (schema : json) :
  plain_keys schema = true ->
  map (fun f => (path f, depth f)) (extractFields schema [])
  = map (fun kp => (join (lit ".") kp, length kp - 1)) (key_paths schema)
  /\ (distinct_keys schema = true ->
      NoDup (map path (extractFields schema []))).
Proof.
  intros Hplain. unfold extractFields.
  pose proof (traverse_paths schema Hplain []) as Hpaths.
  pose proof (traverse_depth schema []) as Hdepth.
  pose proof (key_paths_plain schema Hplain) as Hdots.
  pose proof (key_paths_nonempty schema) as Hne.
  split.
  - revert Hpaths Hdepth Hdots Hne.
    generalize (traverse schema []) (key_paths schema).
    intros fs. induction fs as [|f fs IH]; intros [|kp kps]; try done.
    cbn [map newPath]. intros [= Hp Hps].
    intros [Hd Hds]%Forall_cons [Hk Hks]%Forall_cons [Hn Hns]%Forall_cons.
    f_equal; [|by apply IH].
    rewrite Hd, Hp. unfold path_depth. by rewrite split_join_dots.
  - intros Hdistinct. rewrite Hpaths. cbn [newPath].
    apply NoDup_fmap_2_strong; [|by apply key_paths_NoDup].
    rewrite Forall_forall in Hdots, Hne.
    intros kp kp' Hkp Hkp'. apply join_dots_inj; auto.
Qed.

Lemma extractFields_paths_witness :
  map (fun f => (path f, depth f)) (extractFields sampleInput [])
  = map (fun kp => (join (lit ".") kp, length kp - 1)) (key_paths sampleInput)
  /\ NoDup (map path (extractFields sampleInput [])).
Proof.
  destruct (extractFields_paths sampleInput) as [H1 H2]; [reflexivity|].
  split; [exact H1|]. apply H2. by vm_compute.
Defined.

(** ** Writing again what was read back *)

(** A mapping the generator writes a line for that reads back as a mapping
    it writes the same line for: a recoverable module call or direct
    mapping. *)
Definition reemittable (m : Mapping) : bool :=
  if is_str (get m "type") "module_call" then call_ok m
  else is_str (get m "transformation") "direct" && direct_ok m.

(** A mapping of the same class from which the generator writes the same
    lines. *)
Definition same_lines (m m' : Mapping) : Prop :=
  reemittable m' = true
  /\ forall in_main, mapping_lines in_main m' = mapping_lines in_main m.

Definition reemittable_module (md : Module) : bool :=
  word (name md) && forallb reemittable (mappings md).

Definition reread (md md' : Module) : Prop :=
  name md' = name md /\ Forall2 same_lines (mappings md) (mappings md').

Section Reemission.

Variable uid : nat -> str.

Lemma reemittable_round_trippable (m : Mapping) :
  reemittable m = true -> round_trippable m = true.
Proof.
  unfold reemittable, round_trippable.
  destruct (is_str (get m "type") "module_call"); [done|].
  by intros [-> ?]%andb_true_iff.
Qed.

Lemma reemittable_module_ok (md : Module) :
  reemittable_module md = true -> module_ok md = true.
Proof.
  unfold reemittable_module, module_ok.
  intros [-> H]%andb_true_iff. cbn [andb].
  induction (mappings md) as [|m l IH]; [done|]. cbn [forallb] in *.
  apply andb_true_iff in H as [Hm Hl].
  by rewrite (reemittable_round_trippable m Hm), IH.
Qed.

Lemma reemittable_modules_ok (ms : list Module) :
  forallb reemittable_module ms = true -> forallb module_ok ms = true.
Proof.
  induction ms as [|md ms IH]; [done|]. cbn [forallb].
  intros [Hmd Hms]%andb_true_iff. by rewrite (reemittable_module_ok md), IH.
Qed.

Lemma reparse_call_mapping (in_main : bool) (st : pstate) (cur : nat) (m : Mapping) :
  is_str (get m "type") "module_call" = true -> call_ok m = true ->
  currentModule st = Some cur ->
  exists fields,
    fold_left (parse_line uid) (mapping_lines in_main m) st
    = add_mapping uid st cur fields
    /\ forall id, same_lines m (obj (("id", id) :: fields)).
Proof.
  intros Hty Hok Hcur. unfold call_ok in Hok.
  apply andb_true_iff in Hok as [[[Hc Hs]%andb_true_iff Hk]%andb_true_iff Ht].
  destruct (get m "moduleName") as [| | |callee] eqn:Ec; try done.
  eexists. split.
  - unfold mapping_lines. rewrite Hty, Ec. cbn [to_string].
    rewrite fold_left_app. cbn [fold_left].
    rewrite parse_comment_line, (parse_call_line uid st cur) by done.
    destruct in_main; cbn [fold_left]; [apply parse_blank_line|reflexivity].
  - intros id.
    set (m' := obj _).
    assert (is_str (get m' "type") "module_call" = true) as Hty' by (by vm_compute).
    assert (get m' "moduleName" = Str callee) as Hc' by (by vm_compute).
    assert (get m' "source" = Undefined) as Hs' by (by vm_compute).
    assert (get m' "transformation" = Undefined) as Hk' by (by vm_compute).
    assert (get m' "transform" = Undefined) as Ht' by (by vm_compute).
    split.
    + unfold reemittable, call_ok. rewrite Hty', Hc', Hs', Hk', Ht'.
      by rewrite Hc.
    + intros b. unfold mapping_lines. by rewrite Hty, Hty', Ec, Hc'.
Qed.

Lemma reparse_direct_mapping (in_main : bool) (st : pstate) (cur : nat) (m : Mapping) :
  is_str (get m "type") "module_call" = false ->
  is_str (get m "transformation") "direct" = true ->
  direct_ok m = true ->
  currentModule st = Some cur ->
  exists fields,
    fold_left (parse_line uid) (mapping_lines in_main m) st
    = add_mapping uid st cur fields
    /\ forall id, same_lines m (obj (("id", id) :: fields)).
Proof.
  intros Hty Hk Hok Hcur. pose proof Hok as Hok'. unfold direct_ok in Hok.
  apply andb_true_iff in Hok as [[Hmn Htr]%andb_true_iff H].
  destruct (get m "target") as [| | |tg] eqn:Etg; try done.
  destruct (get m "source") as [| | |src] eqn:Esrc; try done.
  apply andb_true_iff in H as [Hdot Hsrc].
  assert (forall fields,
            (forall id,
               let m' := obj (("id", id) :: fields) in
               is_str (get m' "type") "module_call" = false
               /\ get m' "transformation" = Str (lit "direct")
               /\ get m' "moduleName" = Undefined
               /\ get m' "target" = Str tg /\ get m' "source" = Str src
               /\ get m' "transform" = get m "transform") ->
            forall id, same_lines m (obj (("id", id) :: fields))) as Hsame.
  { intros fields Hf id. destruct (Hf id) as (H1 & H2 & H3 & H4 & H5 & H6).
    split.
    - unfold reemittable, direct_ok. rewrite H1, H2, H3, H4, H5, H6.
      change (is_str (Str (lit "direct")) "direct") with true.
      change (undefined Undefined) with true. cbn [andb].
      by rewrite Htr, Hdot, Hsrc.
    - intros b. unfold mapping_lines, direct_statement.
      rewrite H1, H2, H4, H5, H6, Hty, Hk, Etg, Esrc.
      by change (is_str (Str (lit "direct")) "direct") with true. }
  unfold mapping_lines. rewrite Hty, Hk. cbn [fold_left].
  unfold direct_statement. rewrite Etg, Esrc. cbn [to_string].
  assert (stops (ascii_eqb "d") (nested_line (split chr_dot tg) src (get m "transform")) = true)
    as Hd by done.
  assert (exec re_moduleCall (nested_line (split chr_dot tg) src (get m "transform")) = None)
    as Hcall by (by apply not_call_line).
  pose proof Hdot as Hdotted.
  unfold dotted in Hdot. rewrite forallb_forall in Hdot.
  assert (Forall (fun p => word p = true) (split chr_dot tg)) as Hsegs.
  { apply List.Forall_forall. intros p Hp. by apply Hdot. }
  clear Hdot.
  destruct (includes chr_dot tg) eqn:Edot.
  - assert (src ≠ []) as Hne by (by destruct src).
    assert (forallb word_or_dot src = true) as Hpath by (by destruct src).
    assert (trim (indent (nested_line (split chr_dot tg) src (get m "transform")))
            = nested_line (split chr_dot tg) src (get m "transform")) as E.
    { apply trim_statement; [done|]. by apply ends_tight_nested. }
    destruct (split_two _ _ Edot) as (p1 & p2 & segs & Esp).
    destruct (exec_nested_line (split chr_dot tg) src (get m "transform"))
      as (mt & Hmt & Hg2 & Hg3); try done.
    { by rewrite Esp. }
    eexists. split.
    + apply (parse_line_nested uid st _ cur mt); rewrite ?E; try done.
      rewrite Esp in *. by apply exec_simple_nested_line.
    + apply Hsame. intros id.
      rewrite E, matchAll_nested_line, map_default_some by done.
      unfold gtext. rewrite Hg2, Hg3. cbn [to_string].
      change (lit ".") with [chr_dot]. rewrite !join_split.
      by vm_compute.
  - rewrite (split_no_sep _ _ Edot) in *. apply Forall_inv in Hsegs.
    assert (trim (indent (nested_line [tg] src (get m "transform")))
            = nested_line [tg] src (get m "transform")) as E.
    { apply trim_statement; [done|]. apply ends_tight_nested; try done.
      - by apply word_nonempty.
      - by apply word_path. }
    destruct (exec_simple_line tg src (get m "transform"))
      as (mt & Hmt & Hg1 & Hg2 & Hg3); try done.
    eexists. split.
    + apply (parse_line_simple uid st _ cur mt); rewrite ?E; try done.
      by rewrite nested_single.
    + apply Hsame. intros id. rewrite Hg1, Hg2, Hg3. by vm_compute.
Qed.

Lemma reparse_mapping_lines (in_main : bool) (st : pstate) (cur : nat) (m : Mapping) :
  reemittable m = true ->
  currentModule st = Some cur ->
  exists fields,
    fold_left (parse_line uid) (mapping_lines in_main m) st
    = add_mapping uid st cur fields
    /\ forall id, same_lines m (obj (("id", id) :: fields)).
Proof.
  unfold reemittable. intros H Hcur.
  destruct (is_str (get m "type") "module_call") eqn:Ety.
  { by apply reparse_call_mapping. }
  apply andb_true_iff in H as [Hd Hok]. by apply reparse_direct_mapping.
Qed.

End Reemission.

(** The parser on the generated text, for any class of mappings whose
    lines it reads back one mapping at a time. *)
Section ReadBack.

Variable uid : nat -> str.
Variable ok : Mapping -> bool.
Variable R : Mapping -> Mapping -> Prop.

Hypothesis ok_round_trippable :
  forall m, ok m = true -> round_trippable m = true.

Hypothesis read_back :
  forall (in_main : bool) (st : pstate) (cur : nat) (m : Mapping),
    ok m = true -> currentModule st = Some cur ->
    exists fields,
      fold_left (parse_line uid) (mapping_lines in_main m) st
      = add_mapping uid st cur fields
      /\ forall id, R m (obj (("id", id) :: fields)).

Definition ok_module (md : Module) : bool :=
  word (name md) && forallb ok (mappings md).

Definition related (md md' : Module) : Prop :=
  name md' = name md /\ Forall2 R (mappings md) (mappings md').

Lemma ok_module_ok (md : Module) : ok_module md = true -> module_ok md = true.
Proof.
  unfold ok_module, module_ok. intros [-> H]%andb_true_iff. cbn [andb].
  induction (mappings md) as [|m l IH]; [done|]. cbn [forallb] in *.
  apply andb_true_iff in H as [Hm Hl].
  by rewrite (ok_round_trippable m Hm), IH.
Qed.

Lemma ok_modules_ok (ms : list Module) :
  forallb ok_module ms = true -> forallb module_ok ms = true.
Proof.
  induction ms as [|md ms IH]; [done|]. cbn [forallb].
  intros [Hmd Hms]%andb_true_iff. by rewrite (ok_module_ok md), IH.
Qed.

Lemma read_body (in_main : bool) (ms : list Mapping) :
  forallb ok ms = true ->
  forall (st : pstate) (pre : list Module) (md0 : Module),
    ps_modules st = pre ++ [md0] ->
    currentModule st = Some (length pre) ->
    exists (new : list Mapping) (st' : pstate),
      fold_left (parse_line uid) (concat (map (mapping_lines in_main) ms)) st = st'
      /\ Forall2 R ms new
      /\ ps_modules st' = pre ++ [set_mappings (mappings md0 ++ new) md0]
      /\ currentModule st' = Some (length pre).
Proof.
  induction ms as [|m ms IH]; intros Hok st pre md0 Hmods Hcur.
  - exists [], st. cbn. rewrite app_nil_r. destruct md0. by rewrite Hmods.
  - cbn [forallb] in Hok. apply andb_true_iff in Hok as [Hm Hms].
    destruct (read_back in_main st (length pre) m Hm Hcur)
      as (fields & Hfold & Hsame).
    cbn [map concat]. rewrite fold_left_app, Hfold.
    set (m' := obj (("id", Str (uid (uid_calls st))) :: fields)).
    destruct (IH Hms (add_mapping uid st (length pre) fields) pre
                (set_mappings (mappings md0 ++ [m']) md0))
      as (new & st' & Hst' & Hnew & Hmods' & Hcur').
    { cbn [add_mapping ps_modules]. rewrite Hmods. by rewrite alter_last. }
    { done. }
    exists (m' :: new), st'. split; [done|].
    split; [constructor; [apply Hsame|done]|].
    split; [|done]. rewrite Hmods'. cbn. by rewrite <- app_assoc.
Qed.

Lemma read_subroutines (hs : list Module) :
  forallb ok_module hs = true ->
  forall st : pstate,
    exists mds' : list Module,
      Forall2 related hs mds'
      /\ ps_modules (fold_left (parse_line uid)
                       (concat (map subroutine_lines hs)) st)
         = ps_modules st ++ mds'.
Proof.
  induction hs as [|md hs IH]; intros Hok st.
  - exists []. split; [constructor|]. cbn. by rewrite app_nil_r.
  - cbn [forallb] in Hok. apply andb_true_iff in Hok as [Hmd Hhs].
    apply andb_true_iff in Hmd as [Hw Hms].
    destruct (read_body false (mappings md) Hms
                (open_module uid st (name md)) (ps_modules st)
                (mkModule (uid (uid_calls st)) (name md) []))
      as (new & st' & Hst' & Hnew & Hmods & Hcur); [done|done|].
    destruct (IH Hhs st') as (mds' & Hrecs & Hmods').
    exists (mkModule (uid (uid_calls st)) (name md) new :: mds').
    split; [constructor; [by split|done]|].
    cbn [map concat]. rewrite fold_left_app.
    assert (fold_left (parse_line uid) (subroutine_lines md) st = st') as ->.
    { unfold subroutine_lines. cbn [fold_left app]. rewrite fold_left_app.
      rewrite parse_line_def, parse_docstring_line, Hst' by done.
      cbn [fold_left]. apply parse_line_plain; done. }
    rewrite Hmods', Hmods. by rewrite <- app_assoc.
Qed.

Lemma read_entry_point (md : Module) (st : pstate) :
  ok_module md = true -> is_main md = true ->
  exists (md' : Module),
    related md md'
    /\ ps_modules (fold_left (parse_line uid) (entry_point_lines md) st)
       = ps_modules st ++ [md'].
Proof.
  intros [Hw Hms]%andb_true_iff Hmain.
  assert (name md = lit "main") as Hname.
  { unfold is_main, str_eqb in Hmain. by apply bool_decide_eq_true in Hmain. }
  destruct (read_body true (mappings md) Hms
              (open_module uid st (lit "main")) (ps_modules st)
              (mkModule (uid (uid_calls st)) (lit "main") []))
    as (new & st' & Hst' & Hnew & Hmods & Hcur); [done|done|].
  exists (mkModule (uid (uid_calls st)) (lit "main") new). split.
  { split; [by rewrite Hname|exact Hnew]. }
  unfold entry_point_lines. rewrite !fold_left_app. cbn [fold_left].
  rewrite parse_line_main.
  rewrite !(parse_line_plain uid (open_module uid st (lit "main")))
    by (by vm_compute).
  rewrite Hst'. rewrite !parse_line_plain by (by vm_compute). exact Hmods.
Qed.

Lemma read_generated (uids : nat) (ms : list Module) (mainModule : Module) :
  forallb ok_module ms = true ->
  List.find is_main ms = Some mainModule ->
  exists (mds' : list Module) (main' : Module),
    parsed_modules (parseTemplate uid uids (join nl (generated_lines ms mainModule)))
    = Some (mds' ++ [main'])
    /\ Forall2 related (filter (fun md => is_helper md = true) ms) mds'
    /\ related mainModule main'.
Proof.
  intros Hok Hfind.
  assert (ok_module mainModule = true /\ is_main mainModule = true) as [Hmok Hmain].
  { apply find_some in Hfind as [Hin Hm]. split; [|done].
    rewrite forallb_forall in Hok. by apply Hok. }
  unfold parseTemplate. cbn [parsed_modules].
  rewrite split_join;
    [|by unfold generated_lines, header_lines
     |apply generated_lines_no_nl;
        [by apply ok_modules_ok|by apply ok_module_ok]].
  unfold generated_lines. rewrite !fold_left_app.
  rewrite (fold_parse_line_outside uid header_lines) by (by vm_compute).
  destruct (read_subroutines
              (filter (fun md => is_helper md = true) ms)
              (forallb_filter _ _ _ Hok) (parse_init uids))
    as (mds' & Hrecs & Hmods).
  destruct (read_entry_point mainModule
              (fold_left (parse_line uid)
                 (concat (map subroutine_lines
                            (filter (fun md => is_helper md = true) ms)))
                 (parse_init uids)) Hmok Hmain)
    as (main' & Hrec & Hmods').
  exists mds', main'. rewrite Hmods', Hmods. cbn [parse_init ps_modules app].
  rewrite length_app. cbn [length].
  replace (0 <? length mds' + 1) with true by (symmetry; apply Nat.ltb_lt; lia).
  done.
Qed.

End ReadBack.

Section Reemitted.

Lemma same_lines_body (l l' : list Mapping) :
  Forall2 same_lines l l' ->
  forallb reemittable l' = true
  /\ forall b, concat (map (mapping_lines b) l')
               = concat (map (mapping_lines b) l).
Proof.
  induction 1 as [|m m' l l' [Hre Hm] _ [IH1 IH2]]; [done|].
  cbn [forallb map concat]. rewrite Hre, IH1. split; [done|].
  intros b. by rewrite Hm, IH2.
Qed.

Lemma reread_lines (md md' : Module) :
  reread md md' ->
  subroutine_lines md' = subroutine_lines md
  /\ entry_point_lines md' = entry_point_lines md
  /\ is_main md' = is_main md
  /\ is_helper md' = is_helper md
  /\ (word (name md) = true -> reemittable_module md' = true).
Proof.
  intros [Hname Hmaps].
  destruct (same_lines_body _ _ Hmaps) as [Hre Hbody].
  unfold subroutine_lines, entry_point_lines, is_helper, is_main,
    reemittable_module.
  rewrite Hname, !Hbody, <- (Forall2_length _ _ _ Hmaps), Hre.
  repeat split; try done. by intros ->.
Qed.

Lemma reread_helpers (hs mds' : list Module) :
  Forall2 reread hs mds' ->
  forallb is_helper hs = true ->
  forallb (fun md => word (name md)) hs = true ->
  filter (fun md => is_helper md = true) mds' = mds'
  /\ map subroutine_lines mds' = map subroutine_lines hs
  /\ List.find is_main mds' = None
  /\ forallb reemittable_module mds' = true.
Proof.
  induction 1 as [|md md' hs mds' Hr _ IH]; [done|]. cbn [forallb].
  intros [Hh Hhs]%andb_true_iff [Hw Hws]%andb_true_iff.
  destruct (reread_lines md md' Hr) as (Hs & _ & Hm & Hh' & Hre).
  destruct (IH Hhs Hws) as (IH1 & IH2 & IH3 & IH4).
  rewrite filter_cons, decide_True by (by rewrite Hh').
  cbn [map List.find forallb]. rewrite IH1, IH2, IH3, IH4, Hs, Hm, (Hre Hw).
  repeat split; try done.
  unfold is_helper in Hh. apply andb_true_iff in Hh as [Hnm _].
  apply negb_true_iff in Hnm. by rewrite Hnm.
Qed.

End Reemitted.

(** X15. Writing, reading and writing again gives the same text. Let a
    model hold exactly one module named [main], let every module name be an
    identifier, and let every mapping be a recoverable module call or
    direct mapping (as in C1, without the conditional kind). Then
    [generateCode] returns a text, [parseTemplate] reads modules back from
    it, these are of the same class, and [generateCode] returns the same
    text on them. *)
Theorem generated_text_is_stable (uid : nat -> str) (uids : nat)
  (before after : list Module) (mainModule : Module) :
  is_main mainModule = true ->
  forallb (fun md => negb (is_main md)) (before ++ after) = true ->
  forallb reemittable_module (before ++ mainModule :: after) = true ->
  exists (code : str) (parsedModules : list Module),
    generateCode (before ++ mainModule :: after) = Ok code
    /\ parsed_modules (parseTemplate uid uids code) = Some parsedModules
    /\ generateCode parsedModules = Ok code
    /\ forallb reemittable_module parsedModules = true.
Proof.
  intros Hmain Hno Hok.
  set (ms := before ++ mainModule :: after) in *.
  assert (List.find is_main ms = Some mainModule) as Hfind.
  { unfold ms. rewrite forallb_app in Hno. apply andb_true_iff in Hno as [Hb _].
    rewrite find_app_none by (by apply find_none_forallb).
    cbn [List.find]. by rewrite Hmain. }
  pose proof (reemittable_modules_ok ms Hok) as Hmok.
  destruct (read_generated uid reemittable same_lines
              reemittable_round_trippable (reparse_mapping_lines uid)
              uids ms mainModule Hok Hfind)
    as (mds' & main' & Hparsed & Hrecs & Hrec).
  assert (forallb is_helper (filter (fun md => is_helper md = true) ms) = true)
    as Hhelpers.
  { apply forallb_forall. intros md Hmd. apply list_elem_of_In in Hmd.
    by apply list_elem_of_filter in Hmd as [? _]. }
  assert (forallb (fun md => word (name md))
            (filter (fun md => is_helper md = true) ms) = true) as Hwords.
  { apply forallb_forall. intros md Hmd. apply list_elem_of_In in Hmd.
    apply list_elem_of_filter in Hmd as [_ Hmd]. apply list_elem_of_In in Hmd.
    rewrite forallb_forall in Hok. apply Hok in Hmd.
    by apply andb_true_iff in Hmd as [? _]. }
  destruct (reread_helpers _ _ Hrecs Hhelpers Hwords)
    as (Hfilter & Hsubs & Hnomain & Hre).
  destruct (reread_lines _ _ Hrec) as (_ & Hentry & Hm' & Hh' & Hre').
  assert (word (name mainModule) = true) as Hwmain.
  { apply find_some in Hfind as [Hin _]. rewrite forallb_forall in Hok.
    apply Hok in Hin. by apply andb_true_iff in Hin as [? _]. }
  assert (forallb reemittable_module (mds' ++ [main']) = true) as Hok'.
  { rewrite forallb_app, Hre. cbn [forallb]. by rewrite (Hre' Hwmain). }
  exists (join nl (generated_lines ms mainModule)), (mds' ++ [main']).
  split; [by apply generateCode_lines|]. split; [done|]. split; [|done].
  rewrite (generateCode_lines (mds' ++ [main']) main').
  - do 2 f_equal. unfold generated_lines.
    rewrite filter_app, Hfilter, filter_cons, filter_nil, decide_False.
    + by rewrite app_nil_r, Hsubs, Hentry.
    + rewrite Hh'. unfold is_helper. by rewrite Hmain.
  - by apply reemittable_modules_ok.
  - rewrite find_app_none by done. cbn [List.find]. by rewrite Hm', Hmain.
Qed.

Definition stable_main : Module :=
  mkModule (lit "m_3") (lit "main")
    [ field_of "x" "a" Null; field_of "a.b" "c.d" (Str (lit "upper"));
      call_of "helper" ].

Lemma generated_text_is_stable_witness :
  exists (code : str) (parsedModules : list Module),
    generateCode (round_trip_before ++ stable_main :: round_trip_after) = Ok code
    /\ parsed_modules (parseTemplate uid_sample 0 code) = Some parsedModules
    /\ generateCode parsedModules = Ok code
    /\ forallb reemittable_module parsedModules = true.
Proof.
  apply (generated_text_is_stable uid_sample 0 round_trip_before
           round_trip_after stable_main); by vm_compute.
Defined.

(** ** Edits the diff engine does not see *)

(** The properties of a mapping that [calculateChanges] reads: those that
    make the key and those it compares. *)
Definition diff_fields : list string :=
  ["type"; "moduleName"; "target"; "source"; "transformation"; "transform"].

(** Two dictionaries with the same keys in the same order and, key by key,
    values the diff engine does not tell apart. *)
Definition paired (d d' : dict) : Prop :=
  Forall2 (fun kv kv' : str * Mapping =>
             kv'.1 = kv.1 /\ same_entry kv.2 kv'.2) d d'.

Section Unseen.

Lemma same_entry_refl (m : Mapping) : same_entry m m.
Proof. by repeat split. Qed.

Lemma recovered_refl (md : Module) : recovered md md.
Proof.
  split; [done|]. apply Forall_Forall2_diag, Forall_forall.
  intros m _. apply same_entry_refl.
Qed.

Lemma same_entry_flat (md md' : Module) (m m' : Mapping) :
  same_entry m m' -> same_entry (flat_entry md m) (flat_entry md' m').
Proof.
  intros (Hk & H1 & H2 & H3 & H4). unfold same_entry, key_suffix in *.
  by rewrite !get_flat_entry.
Qed.

Lemma dict_set_paired (k : str) (v v' : Mapping) (d d' : dict) :
  paired d d' -> same_entry v v' ->
  paired (dict_set k v d) (dict_set k v' d').
Proof.
  intros Hd Hv. induction Hd as [|[k0 v0] [k0' v0'] d d' [Hk Hv0] Hd IH];
    cbn [dict_set].
  - constructor; [done|constructor].
  - cbn [fst snd] in Hk, Hv0. subst k0'.
    destruct (str_eqb k k0); constructor; done.
Qed.

Lemma flatten_paired (ms ms' : list Module) :
  Forall2 recovered ms ms' -> paired (flatten ms) (flatten ms').
Proof.
  unfold flatten. assert (paired [] []) as Hnil by constructor.
  revert Hnil. generalize (@nil (str * Mapping)) at 1 3.
  generalize (@nil (str * Mapping)).
  intros d' d Hd H. revert d d' Hd.
  induction H as [|md md' ms ms' [Hname Hmaps] _ IH]; intros d d' Hd; [done|].
  cbn [fold_left]. apply IH. clear IH.
  revert d d' Hd. induction Hmaps as [|m m' l l' Hm _ IHl]; intros d d' Hd;
    [done|].
  cbn [fold_left]. apply IHl.
  replace (flat_key md' m') with (flat_key md m).
  - by apply dict_set_paired, same_entry_flat.
  - rewrite !flat_key_suffix, Hname. f_equal. symmetry. apply Hm.
Qed.

Lemma dict_get_paired (k : str) (d d' : dict) :
  paired d d' ->
  match dict_get k d, dict_get k d' with
  | Some v, Some v' => same_entry v v'
  | None, None => True
  | _, _ => False
  end.
Proof.
  induction 1 as [|[k0 v0] [k0' v0'] d d' [Hk Hv0] _ IH]; [done|].
  cbn [fst snd] in Hk, Hv0. subst k0'. cbn [dict_get].
  by destruct (str_eqb k k0).
Qed.

Lemma differs_same_entry (c c' o : Mapping) :
  same_entry c c' -> differs c' o = differs c o.
Proof. intros (_ & H1 & H2 & H3 & H4). unfold differs. by rewrite H1, H2, H3, H4. Qed.

Lemma spec_added_paired (fc fc' fo : dict) :
  paired fc fc' -> Forall2 same_entry (spec_added fc fo) (spec_added fc' fo).
Proof.
  unfold spec_added.
  induction 1 as [|[k v] [k' v'] d d' [Hk Hv] _ IH]; [constructor|].
  cbn [fst snd] in Hk, Hv. subst k'. rewrite !omap_cons. cbn [fst snd].
  destruct (dict_get k fo); [done|]. by constructor.
Qed.

Lemma spec_modified_paired (fc fc' fo : dict) :
  paired fc fc' ->
  Forall2 (fun p p' : Mapping * Mapping => same_entry p.1 p'.1 /\ p'.2 = p.2)
          (spec_modified fc fo) (spec_modified fc' fo).
Proof.
  unfold spec_modified.
  induction 1 as [|[k v] [k' v'] d d' [Hk Hv] _ IH]; [constructor|].
  cbn [fst snd] in Hk, Hv. subst k'. rewrite !omap_cons. cbn [fst snd].
  destruct (dict_get k fo) as [o|]; [|done].
  rewrite (differs_same_entry v v' o Hv).
  destruct (differs v o); [|done]. by constructor.
Qed.

Lemma spec_unchanged_paired (fc fc' fo : dict) :
  paired fc fc' ->
  Forall2 same_entry (spec_unchanged fc fo) (spec_unchanged fc' fo).
Proof.
  unfold spec_unchanged.
  induction 1 as [|[k v] [k' v'] d d' [Hk Hv] _ IH]; [constructor|].
  cbn [fst snd] in Hk, Hv. subst k'. rewrite !omap_cons. cbn [fst snd].
  destruct (dict_get k fo) as [o|]; [|done].
  rewrite (differs_same_entry v v' o Hv).
  destruct (differs v o); [done|]. by constructor.
Qed.

Lemma spec_removed_paired (fc fc' fo : dict) :
  paired fc fc' -> spec_removed fc' fo = spec_removed fc fo.
Proof.
  intros H. unfold spec_removed.
  induction fo as [|[k o] fo IH]; [done|].
  rewrite !omap_cons, IH. cbn [fst snd].
  pose proof (dict_get_paired k fc fc' H) as Hk.
  by destruct (dict_get k fc), (dict_get k fc').
Qed.

(** The report reads nothing but the keys and the compared properties. *)
Lemma calculateChanges_paired (original : option (list Module))
  (ms ms' : list Module) :
  Forall2 recovered ms ms' ->
  Forall2 same_entry (added (calculateChanges original ms))
                     (added (calculateChanges original ms'))
  /\ removed (calculateChanges original ms')
     = removed (calculateChanges original ms)
  /\ Forall2 (fun p p' : Mapping * Mapping =>
                same_entry p.1 p'.1 /\ p'.2 = p.2)
             (modified (calculateChanges original ms))
             (modified (calculateChanges original ms'))
  /\ Forall2 same_entry (unchanged (calculateChanges original ms))
                        (unchanged (calculateChanges original ms')).
Proof.
  intros H%flatten_paired. destruct original as [orig|].
  - unfold calculateChanges.
    rewrite !classify_current_fold, !classify_original_fold.
    cbn [added removed modified unchanged no_changes app].
    split; [by apply spec_added_paired|].
    split; [by apply spec_removed_paired|].
    split; [by apply spec_modified_paired|by apply spec_unchanged_paired].
  - cbn. repeat split; constructor.
Qed.

(** An update that assigns none of [diff_fields] gives a row the diff
    engine does not tell from the old one. *)
Lemma merge_updates_same_entry (old updates : Mapping) :
  Forall (fun f => updates !! f = None) diff_fields ->
  same_entry old (merge_updates old updates).
Proof.
  intros H.
  assert (forall f, f ∈ diff_fields ->
            get (merge_updates old updates) f = get old f) as Hget.
  { intros f Hf. rewrite Forall_forall in H. specialize (H f Hf).
    unfold merge_updates. rewrite get_insert_ne.
    - unfold get. by rewrite lookup_union, H, (left_id None _).
    - intros <-. revert Hf. unfold diff_fields.
      rewrite !elem_of_cons. intros [?|[?|[?|[?|[?|[?|?%elem_of_nil]]]]]]; done. }
  unfold same_entry, key_suffix.
  rewrite !Hget; [done|unfold diff_fields; rewrite !elem_of_cons; tauto..].
Qed.

End Unseen.

(** X17. [calculateChanges] reads of a mapping only [type], [moduleName],
    [target], [source], [transformation] and [transform]: when
    [updateMapping] changes an existing row in none of these (the condition
    of a conditional, say, or the parameters of another kind), the report
    lists the same entries in the same classes as before, the edited row
    included, each with its key and its compared properties as before; the
    removed entries are the same. A report without change stays without
    change. *)
Theorem unreported_edits (idx : nat) (updates : Mapping) (s : State)
  (old : Mapping) :
  active_mappings s !! idx = Some old ->
  Forall (fun f => updates !! f = None) diff_fields ->
  exists s',
    updateMapping idx updates s = Done s'
    /\ active_mappings s' !! idx = Some (merge_updates old updates)
    /\ Forall2 same_entry (added (changes_of s)) (added (changes_of s'))
    /\ removed (changes_of s') = removed (changes_of s)
    /\ Forall2 (fun p p' : Mapping * Mapping =>
                  same_entry p.1 p'.1 /\ p'.2 = p.2)
               (modified (changes_of s)) (modified (changes_of s'))
    /\ Forall2 same_entry (unchanged (changes_of s))
                          (unchanged (changes_of s')).
Proof.
  intros Hold Hupd. unfold updateMapping. rewrite Hold.
  unfold active_mappings in Hold |- *.
  destruct (modules s !! activeModule s) as [md|] eqn:Emd; [|done].
  pose proof (lookup_lt_Some _ _ _ Emd) as Hact.
  pose proof (lookup_lt_Some _ _ _ Hold) as Hidx.
  unfold updateModuleMappings. rewrite Emd.
  eexists. split; [reflexivity|].
  cbn [modules activeModule with_modules].
  rewrite list_lookup_insert_eq by done. cbn [mappings set_mappings].
  split; [by rewrite list_lookup_insert_eq|].
  unfold changes_of. cbn [modules originalModules with_modules].
  apply calculateChanges_paired.
  rewrite <- (list_insert_id (modules s) (activeModule s) md) at 1 by done.
  apply Forall2_insert.
  - apply Forall_Forall2_diag, Forall_forall. intros ? _. apply recovered_refl.
  - split; [done|]. cbn [mappings set_mappings].
    rewrite <- (list_insert_id (mappings md) idx old) at 1 by done.
    apply Forall2_insert.
    + apply Forall_Forall2_diag, Forall_forall. intros ? _.
      apply same_entry_refl.
    + by apply merge_updates_same_entry.
Qed.

(** A model with one conditional mapping, as it is after a template load. *)
Definition conditional_state : State :=
  let ms := [mkModule (lit "m_0") (lit "main")
               [conditional_of "tier" "age" ">" "18" "adult" "minor"]] in
  {| modules := ms; activeModule := 0; expandedRow := None;
     templateLoaded := true; templateInfo := [];
     originalModules := Some ms; console := []; uids := 2 |}.

Lemma unreported_edits_witness :
  exists s',
    updateMapping 0 {[ "condValue" := Str (lit "65") ]} conditional_state
    = Done s'
    /\ active_mappings s' !! 0
       = Some (merge_updates
                 (conditional_of "tier" "age" ">" "18" "adult" "minor")
                 {[ "condValue" := Str (lit "65") ]})
    /\ Forall2 same_entry (added (changes_of conditional_state))
                          (added (changes_of s'))
    /\ removed (changes_of s') = removed (changes_of conditional_state)
    /\ Forall2 (fun p p' : Mapping * Mapping =>
                  same_entry p.1 p'.1 /\ p'.2 = p.2)
               (modified (changes_of conditional_state))
               (modified (changes_of s'))
    /\ Forall2 same_entry (unchanged (changes_of conditional_state))
                          (unchanged (changes_of s')).
Proof.
  apply (unreported_edits 0 {[ "condValue" := Str (lit "65") ]}
           conditional_state
           (conditional_of "tier" "age" ">" "18" "adult" "minor")).
  - reflexivity.
  - repeat constructor.
Defined.

(** ** Lines outside the modules *)

(** A [def] line that opens no module: the parser leaves the module it was
    reading. *)
Definition is_foreign_def (line : str) : bool :=
  negb (is_module_def line)
  && startsWith (lit "def ") (trim line)
  && negb (matches re_knownDef (trim line)).

Section OutsideModules.

Variable uid : nat -> str.

Lemma split_app (c : ascii) (x y : str) :
  split c (x ++ c :: y) = split c x ++ split c y.
Proof.
  induction x as [|a x IH]; cbn [app split].
  - by rewrite ascii_eqb_refl.
  - rewrite IH. destruct (ascii_eqb a c); [done|].
    pose proof (split_nonempty c x) as Hne.
    by destruct (split c x).
Qed.

Lemma parse_line_foreign (st : pstate) (line : str) :
  is_foreign_def line = true -> parse_line uid st line = close_module st.
Proof.
  unfold is_foreign_def, is_module_def, parse_line.
  rewrite (matches_exec re_moduleDef).
  intros [[Hno%negb_true_iff Hdef]%andb_true_iff Hknown]%andb_true_iff.
  apply orb_false_iff in Hno as [-> Hmod].
  destruct (exec re_moduleDef (trim line)); [done|].
  by rewrite Hdef, Hknown.
Qed.

Lemma parse_skipped (skipped : str) (st : pstate) :
  currentModule st = None -> currentModuleName st = None ->
  forallb (fun l => negb (is_module_def l)) (split chr_nl skipped) = true ->
  fold_left (parse_line uid) (split chr_nl skipped) st = st.
Proof. apply fold_parse_line_outside. Qed.

End OutsideModules.

(** X18. [parseTemplate] reads mappings only inside [def transform(INPUT):]
    and [def map_<name>(INPUT, OUTPUT):]. Lines before the first of these,
    and lines after a [def] line of another form, up to the next line that
    opens a module, change nothing of what it returns, whatever they
    contain. *)
Theorem lines_outside_modules_are_skipped (uid : nat -> str) (n : nat)
  (skipped foreign above below : str) :
  forallb (fun l => negb (is_module_def l)) (split chr_nl skipped) = true ->
  includes chr_nl foreign = false ->
  is_foreign_def foreign = true ->
  parseTemplate uid n (skipped ++ chr_nl :: below) = parseTemplate uid n below
  /\ parseTemplate uid n
       (above ++ chr_nl :: foreign ++ chr_nl :: skipped ++ chr_nl :: below)
     = parseTemplate uid n (above ++ chr_nl :: foreign ++ chr_nl :: below).
Proof.
  intros Hskip Hnl Hdef. unfold parseTemplate. split.
  - rewrite split_app, fold_left_app.
    by rewrite (parse_skipped uid skipped (parse_init n)).
  - rewrite !(split_app chr_nl above), !(split_app chr_nl foreign).
    rewrite (split_app chr_nl skipped), (split_no_sep chr_nl foreign Hnl).
    rewrite !fold_left_app. cbn [fold_left].
    rewrite (parse_line_foreign uid _ foreign Hdef).
    by rewrite (parse_skipped uid skipped (close_module _)).
Qed.

Lemma lines_outside_modules_are_skipped_witness :
  let skipped :=
    lit "import re" ++ nl ++ simple_line (lit "a") (lit "x") Null in
  let foreign := lit "def helper(x):" in
  let above :=
    lit "def transform(INPUT):" ++ nl ++ simple_line (lit "b") (lit "y") Null in
  let below :=
    def_line (lit "more") ++ nl ++ simple_line (lit "c") (lit "z") Null in
  parseTemplate uid_sample 0 (skipped ++ chr_nl :: below)
  = parseTemplate uid_sample 0 below
  /\ parseTemplate uid_sample 0
       (above ++ chr_nl :: foreign ++ chr_nl :: skipped ++ chr_nl :: below)
     = parseTemplate uid_sample 0
         (above ++ chr_nl :: foreign ++ chr_nl :: below).
Proof.
  apply (lines_outside_modules_are_skipped uid_sample 0); by vm_compute.
Defined.
